(** * clang-tidy-visualizer: process scheduler and diagnostic text parser

    A shallow embedding of the core of the extension:
    - [ProcessUtils] (executeCommand, executeParallel, splitArray),
    - [ClangTidyRunner.runParallel] (batching, result mapping),
    - [TextParser] (header regex, line state machine, enrichment),
    - the failure check of [runClangTidyAnalysis] in extension.ts.

    JavaScript strings are modelled as [string], a sequence of 8-bit code
    units (the Latin-1 range of UTF-16).  Line and column numbers are
    doubles ([JS.number]); the job count of the settings is a rational;
    counts, indices, times and exit codes are exact integers. *)

From Stdlib Require Import ZArith QArith.QArith_base QArith.Qround.
From Stdlib Require Import QArith.Qminmax.
From Stdlib Require Import Ascii String List Lia Bool DecimalString.
From stdpp Require Import base list strings gmap.
Import ListNotations.

#[local] Open Scope string_scope.
#[local] Open Scope list_scope.
#[local] Open Scope nat_scope.

(* ===================================================================== *)
(** ** Exceptions *)
(* ===================================================================== *)

Module Exn.

(** The outcome of a call that may throw; the payload of [Thrown] is
    the error message. *)
Inductive outcome (A : Type) : Type :=
| Returned (a : A)
| Thrown (msg : string).
Arguments Returned {A} a.
Arguments Thrown {A} msg.

(** [try { body } catch (error) { handler(error) }] *)
Definition try_catch {A : Type} (body : outcome A)
           (handler : string -> outcome A) : outcome A :=
  match body with
  | Returned a => Returned a
  | Thrown msg => handler msg
  end.

End Exn.

(* ===================================================================== *)
(** ** JavaScript string primitives used by the sources *)
(* ===================================================================== *)

Module JS.

Definition code (c : ascii) : nat := nat_of_ascii c.

(** [\s] and the characters removed by [String.prototype.trim]: within
    the 8-bit range these are TAB, LF, VT, FF, CR, SPACE and NBSP. *)
Definition isWhiteSpace (c : ascii) : bool :=
  let n := code c in
  ((9 <=? n) && (n <=? 13)) || (n =? 32) || (n =? 160).

(** [\d] *)
Definition isDigit (c : ascii) : bool :=
  let n := code c in (48 <=? n) && (n <=? 57).

Definition isUpper (c : ascii) : bool :=
  let n := code c in (65 <=? n) && (n <=? 90).

Definition isLower (c : ascii) : bool :=
  let n := code c in (97 <=? n) && (n <=? 122).

(** [[a-zA-Z]] *)
Definition isAlpha (c : ascii) : bool := isUpper c || isLower c.

Definition eqc (a b : ascii) : bool := Ascii.eqb a b.

#[global] Arguments eqc : simpl never.
#[global] Arguments isWhiteSpace : simpl never.
#[global] Arguments isDigit : simpl never.
#[global] Arguments isAlpha : simpl never.

(** [s.length] *)
Definition length (s : string) : nat := String.length s.

(** [!s] for a string: only the empty string is falsy. *)
Definition isEmpty (s : string) : bool :=
  match s with EmptyString => true | String _ _ => false end.

Fixpoint trimStart (s : string) : string :=
  match s with
  | EmptyString => EmptyString
  | String c s' => if isWhiteSpace c then trimStart s' else s
  end.

Fixpoint trimEnd (s : string) : string :=
  match s with
  | EmptyString => EmptyString
  | String c s' =>
      let t := trimEnd s' in
      if isWhiteSpace c && isEmpty t then EmptyString else String c t
  end.

(** [s.trim()] *)
Definition trim (s : string) : string := trimEnd (trimStart s).

(** [s.split(sep)] for a one-character separator: never empty, the
    empty string splits into one empty piece. *)
Fixpoint split (sep : ascii) (s : string) : list string :=
  match s with
  | EmptyString => [EmptyString]
  | String c s' =>
      if eqc c sep then EmptyString :: split sep s'
      else match split sep s' with
           | [] => [String c EmptyString]
           | p :: ps => String c p :: ps
           end
  end.

(** [a.join(sep)] *)
Fixpoint join (sep : string) (l : list string) : string :=
  match l with
  | [] => EmptyString
  | [x] => x
  | x :: rest => x +:+ sep +:+ join sep rest
  end.

(** [a.pop()] on a fresh array: the last element, [undefined] when
    the array is empty. *)
Definition pop (l : list string) : option string := last l.

(** [s.includes(c)] for a one-character needle. *)
Fixpoint includes (c : ascii) (s : string) : bool :=
  match s with
  | EmptyString => false
  | String x s' => eqc x c || includes c s'
  end.

Definition lowerChar (c : ascii) : ascii :=
  if isUpper c then ascii_of_nat (code c + 32) else c.

(** [s.toLowerCase()]; the parser applies it to text captured by
    [[a-zA-Z]+] only, where it is the ASCII mapping. *)
Fixpoint toLowerCase (s : string) : string :=
  match s with
  | EmptyString => EmptyString
  | String c s' => String (lowerChar c) (toLowerCase s')
  end.

Definition digitValue (c : ascii) : Z := Z.of_nat (code c - 48).

Fixpoint parseDigits (acc : Z) (s : string) : Z :=
  match s with
  | EmptyString => acc
  | String c s' =>
      if isDigit c then parseDigits (10 * acc + digitValue c)%Z s' else acc
  end.

(** The decimal value of a string of digits. *)
Definition decimal (s : string) : Z := parseDigits 0%Z s.

(** The numbers that hold line and column numbers: IEEE 754 doubles
    whose value is an integer, and the two infinities. *)
Inductive number : Type :=
| Num (z : Z)
| Infinity
| NegInfinity.

(** 2^53: every integer below it is a double. *)
Definition exactBelow : Z := 9007199254740992%Z.

(** The double nearest to the integer [m >= 0], ties going to the even
    significand: [m] is cut to its 53 leading bits [q], and [q] is
    incremented when the bits cut off are more than half a unit, or
    half a unit with [q] odd.  [None] when the result is beyond the
    largest double, from 2^1024 - 2^970 on: the Number value is
    Infinity there. *)
Definition nearest (m : Z) : option Z :=
  if (m <? exactBelow)%Z then Some m
  else
    let e := (Z.log2 m - 52)%Z in
    let q := Z.shiftr m e in
    let r := (m - Z.shiftl q e)%Z in
    let half := Z.shiftl 1 (e - 1) in
    let q' := if (half <? r)%Z || ((r =? half)%Z && Z.odd q)
              then (q + 1)%Z else q in
    let v := Z.shiftl q' e in
    if (Z.log2 v <? 1024)%Z then Some v else None.

(** The Number value of the integer [z]. *)
Definition round (z : Z) : number :=
  match nearest (Z.abs z) with
  | Some v => Num (Z.sgn z * v)
  | None => if (0 <? z)%Z then Infinity else NegInfinity
  end.

#[global] Arguments nearest : simpl never.
#[global] Arguments round : simpl never.

(** [parseInt(s, 10)] on text captured by [\d+]: the Number value of
    the decimal value of the digits (an empty digit prefix, which gives
    NaN in JavaScript, cannot be captured by [\d+]).  The decimal value
    is rounded once, as V8 does; ECMAScript allows an implementation to
    read the digits after the 20th significant one as zeros. *)
Definition parseInt (s : string) : number := round (decimal s).

(** [n - 1] *)
Definition minusOne (n : number) : number :=
  match n with
  | Num z => round (z - 1)
  | Infinity => Infinity
  | NegInfinity => NegInfinity
  end.

(** [Math.max(0, n)] *)
Definition max0 (n : number) : number :=
  match n with
  | Num z => Num (Z.max 0 z)
  | Infinity => Infinity
  | NegInfinity => Num 0
  end.

(** The number is not negative. *)
Definition nonNegative (n : number) : Prop :=
  match n with
  | Num z => (0 <= z)%Z
  | Infinity => True
  | NegInfinity => False
  end.

(** [n >= 0 && n < length] *)
Definition isIndex (n : number) (length : nat) : bool :=
  match n with
  | Num z => (0 <=? z)%Z && (z <? Z.of_nat length)%Z
  | Infinity | NegInfinity => false
  end.

(** [array[n]], [undefined] outside the array. *)
Definition element (array : list string) (n : number) : option string :=
  match n with
  | Num z => if (0 <=? z)%Z then nth_error array (Z.to_nat z) else None
  | Infinity | NegInfinity => None
  end.

(** Every character of [s] is in the class [p]. *)
Fixpoint every (p : ascii -> bool) (s : string) : bool :=
  match s with
  | EmptyString => true
  | String c s' => p c && every p s'
  end.

(** [s] starts with a character of the class [p]. *)
Definition headIn (p : ascii -> bool) (s : string) : bool :=
  match s with
  | EmptyString => false
  | String c _ => p c
  end.

(** [n] copies of a character. *)
Fixpoint repeat (c : ascii) (n : nat) : string :=
  match n with
  | O => EmptyString
  | S n' => String c (repeat c n')
  end.

(** [c.repeat(count)] for a one-character string [c]: a RangeError for
    a negative or infinite count, and for a result longer than the
    strings of the engine, whose limit is [maxStringLength]. *)
Definition repeatCount (maxStringLength : Z) (c : ascii) (count : number)
  : Exn.outcome string :=
  match count with
  | Num z =>
      if (z <? 0)%Z then Exn.Thrown "RangeError: Invalid count value"
      else if (maxStringLength <? z)%Z
           then Exn.Thrown "RangeError: Invalid string length"
           else Exn.Returned (repeat c (Z.to_nat z))
  | Infinity | NegInfinity => Exn.Thrown "RangeError: Invalid count value"
  end.

(** [a + b], a RangeError when the result is longer than the strings
    of the engine. *)
Definition concat (maxStringLength : Z) (a b : string) : Exn.outcome string :=
  if (maxStringLength <? Z.of_nat (String.length a + String.length b))%Z
  then Exn.Thrown "RangeError: Invalid string length"
  else Exn.Returned (a +:+ b).

End JS.

(* ===================================================================== *)
(** ** A backtracking matcher for the regular expressions of TextParser *)
(* ===================================================================== *)

(** The three patterns of the parser all start with [^] and carry no flag,
    so a match can only start at index 0; quantifiers are applied to
    character classes, except for the two optional non-capturing groups.
    The matcher explores alternatives in the order of the ECMAScript
    backtracking semantics: a greedy quantifier tries the longer match
    first, a lazy one the shorter. *)

Module Regex.

Inductive regex : Type :=
| Cls (p : ascii -> bool)          (* one character of a class *)
| Rep (n : nat) (p : ascii -> bool) (* class{n} *)
| Plus (p : ascii -> bool)         (* class+ , greedy *)
| PlusLazy (p : ascii -> bool)     (* class+? , lazy *)
| Seq (r1 r2 : regex)
| Opt (r : regex)                  (* (?: r )? , greedy *)
| Cap (i : nat) (r : regex)        (* i-th capturing group *)
| Eol.                             (* $ without the m flag *)

(** Captures: group index and captured text; a group that did not take
    part in the match has no entry ([undefined]). *)
Definition captures : Type := list (nat * string).

Fixpoint group (i : nat) (c : captures) : option string :=
  match c with
  | [] => None
  | (j, s) :: c' => if Nat.eqb i j then Some s else group i c'
  end.

Definition cont : Type := string -> captures -> option captures.

Fixpoint starGreedy (p : ascii -> bool) (s : string) (c : captures)
         (k : cont) : option captures :=
  match s with
  | String x s' =>
      if p x then
        match starGreedy p s' c k with
        | Some r => Some r
        | None => k s c
        end
      else k s c
  | EmptyString => k s c
  end.

Fixpoint starLazy (p : ascii -> bool) (s : string) (c : captures)
         (k : cont) : option captures :=
  match k s c with
  | Some r => Some r
  | None =>
      match s with
      | String x s' => if p x then starLazy p s' c k else None
      | EmptyString => None
      end
  end.

Fixpoint repeatN (n : nat) (p : ascii -> bool) (s : string) (c : captures)
         (k : cont) : option captures :=
  match n with
  | O => k s c
  | S n' =>
      match s with
      | String x s' => if p x then repeatN n' p s' c k else None
      | EmptyString => None
      end
  end.

(** The text consumed between input [s] and its suffix [s']. *)
Definition consumed (s s' : string) : string :=
  String.substring 0 (String.length s - String.length s') s.

Fixpoint run (r : regex) (s : string) (c : captures) (k : cont)
  : option captures :=
  match r with
  | Cls p =>
      match s with
      | String x s' => if p x then k s' c else None
      | EmptyString => None
      end
  | Rep n p => repeatN n p s c k
  | Plus p =>
      match s with
      | String x s' => if p x then starGreedy p s' c k else None
      | EmptyString => None
      end
  | PlusLazy p =>
      match s with
      | String x s' => if p x then starLazy p s' c k else None
      | EmptyString => None
      end
  | Seq r1 r2 => run r1 s c (fun s' c' => run r2 s' c' k)
  | Opt r1 =>
      match run r1 s c k with
      | Some res => Some res
      | None => k s c
      end
  | Cap i r1 => run r1 s c (fun s' c' => k s' ((i, consumed s s') :: c'))
  | Eol =>
      match s with
      | EmptyString => k s c
      | String _ _ => None
      end
  end.

(** [s.match(/^r/)]: the captures of the first match in backtracking
    order, [None] for [null]. *)
Definition exec (r : regex) (s : string) : option captures :=
  run r s [] (fun _ c => Some c).

(** [/^r/.test(s)] *)
Definition test (r : regex) (s : string) : bool :=
  match exec r s with Some _ => true | None => false end.

Definition chr (a : ascii) : regex := Cls (JS.eqc a).
Definition notIn (l : list ascii) (x : ascii) : bool :=
  negb (existsb (JS.eqc x) l).

End Regex.

Declare Scope regex_scope.
Delimit Scope regex_scope with regex.
Infix "&>" := Regex.Seq (at level 60, right associativity) : regex_scope.

(* ===================================================================== *)
(** ** TextParser (core/parser/TextParser.ts) *)
(* ===================================================================== *)

Module TextParser.
Import Regex.
#[local] Open Scope regex_scope.

(** [ClangTidyDiagnostic] of types/index.ts; the optional fields are
    [None] while the property is absent. *)
Record Diagnostic : Type := mkDiagnostic {
  filePath : string;
  line : JS.number;
  column : JS.number;
  severity : string;
  message : string;
  checkName : string;
  codeLineFull : option string;
  caretLine : option string;
  fixSuggestion : option string
}.

(** JavaScript truthiness of an optional string property: [undefined]
    and the empty string are falsy. *)
Definition truthy (o : option string) : bool :=
  match o with
  | Some s => negb (JS.isEmpty s)
  | None => false
  end.

Definition setCodeLineFull (v : string) (d : Diagnostic) : Diagnostic :=
  mkDiagnostic (filePath d) (line d) (column d) (severity d) (message d)
               (checkName d) (Some v) (caretLine d) (fixSuggestion d).

Definition setCaretLine (v : string) (d : Diagnostic) : Diagnostic :=
  mkDiagnostic (filePath d) (line d) (column d) (severity d) (message d)
               (checkName d) (codeLineFull d) (Some v) (fixSuggestion d).

Definition setFixSuggestion (v : string) (d : Diagnostic) : Diagnostic :=
  mkDiagnostic (filePath d) (line d) (column d) (severity d) (message d)
               (checkName d) (codeLineFull d) (caretLine d) (Some v).

Definition LF : ascii := ascii_of_nat 10.

(** [[\/\\]] *)
Definition isSeparator (x : ascii) : bool :=
  JS.eqc x "/" || JS.eqc x "\".

(** [[^:\n]] *)
Definition pathChar : ascii -> bool := notIn [":"%char; LF].

(** [\s+\[([^\]]+)\]], the inside of the optional rule group. *)
Definition ruleGroup : regex :=
  Plus JS.isWhiteSpace &> chr "["
  &> Cap 6 (Plus (notIn ["]"%char])) &> chr "]".

(** [/^((?:[a-zA-Z]:)?[\/\\][^:\n]+):(\d+):(\d+):\s+([a-zA-Z]+):\s+([^\n]+?)(?:\s+\[([^\]]+)\])?$/] *)
Definition warningRegex : regex :=
  Cap 1 (Opt (Cls JS.isAlpha &> chr ":")
         &> Cls isSeparator
         &> Plus pathChar)
  &> chr ":" &> Cap 2 (Plus JS.isDigit)
  &> chr ":" &> Cap 3 (Plus JS.isDigit)
  &> chr ":" &> Plus JS.isWhiteSpace &> Cap 4 (Plus JS.isAlpha)
  &> chr ":" &> Plus JS.isWhiteSpace &> Cap 5 (PlusLazy (notIn [LF]))
  &> Opt ruleGroup
  &> Eol.

(** [/^\s{3}\d+\s+\|/] *)
Definition codeLineRegex : regex :=
  Rep 3 JS.isWhiteSpace &> Plus JS.isDigit &> Plus JS.isWhiteSpace
  &> chr "|".

(** [/^\s+\|/] *)
Definition detailLineRegex : regex :=
  Plus JS.isWhiteSpace &> chr "|".

(** [validateSeverity]: the severity itself when it is one of the four
    valid ones, [None] for [null]. *)
Definition validSeverities : list string :=
  ["error"; "warning"; "note"; "fatal"].

Definition validateSeverity (severity : string) : option string :=
  if existsb (String.eqb severity) validSeverities
  then Some severity else None.

(** The local variables of the line loop of
    [transformTextToDiagnostics].  [currentDiagnostic] aliases an
    element of [diagnostics]: it is kept as the index of that element,
    and assignments through it update the array in place. *)
Record LoopState : Type := mkLoopState {
  diagnostics : list Diagnostic;
  currentDiagnostic : option nat;
  matchedWarnings : nat;
  invalidSeverities : nat
}.

Definition initialState : LoopState := mkLoopState [] None 0 0.

Definition capture (i : nat) (c : captures) : string :=
  match group i c with Some s => s | None => EmptyString end.

(** [line.split('|').pop()?.trim() || line] *)
Definition codePart (ln : string) : string :=
  match JS.pop (JS.split "|" ln) with
  | Some p => if JS.isEmpty (JS.trim p) then ln else JS.trim p
  | None => ln
  end.

(** The body of [for (const line of lines)]. *)
Definition processLine (st : LoopState) (ln : string) : LoopState :=
  if JS.isEmpty (JS.trim ln) then
    mkLoopState (diagnostics st) None
                (matchedWarnings st) (invalidSeverities st)
  else
    match exec warningRegex ln with
    | Some warningMatch =>
        let filePath := capture 1 warningMatch in
        let lineStr := capture 2 warningMatch in
        let columnStr := capture 3 warningMatch in
        let severityStr := capture 4 warningMatch in
        let message := capture 5 warningMatch in
        let checkName := capture 6 warningMatch in
        match validateSeverity (JS.toLowerCase severityStr) with
        | None =>
            mkLoopState (diagnostics st) None
                        (S (matchedWarnings st)) (S (invalidSeverities st))
        | Some severity =>
            let diagnostic :=
              mkDiagnostic filePath (JS.parseInt lineStr)
                           (JS.parseInt columnStr) severity
                           (JS.trim message) checkName None None None in
            mkLoopState (diagnostics st ++ [diagnostic])
                        (Some (List.length (diagnostics st)))
                        (S (matchedWarnings st)) (invalidSeverities st)
        end
    | None =>
        match currentDiagnostic st with
        | Some cur =>
            let isCodeLine := test codeLineRegex ln in
            let isDiagnosticDetailLine := test detailLineRegex ln in
            if isCodeLine || isDiagnosticDetailLine then
              let update :=
                if isCodeLine then setCodeLineFull (codePart ln)
                else if JS.includes "^" (JS.trim ln) then setCaretLine ln
                else fun d =>
                       match fixSuggestion d with
                       | Some f =>
                           if JS.isEmpty f then setFixSuggestion ln d
                           else setFixSuggestion
                                  (f +:+ String LF EmptyString +:+ ln) d
                       | None => setFixSuggestion ln d
                       end in
              mkLoopState (alter update cur (diagnostics st))
                          (Some cur)
                          (matchedWarnings st) (invalidSeverities st)
            else
              mkLoopState (diagnostics st) None
                          (matchedWarnings st) (invalidSeverities st)
        | None => st
        end
    end.

(** The line loop: [text.split("\n")] folded from the initial state. *)
Definition parseLines (lines : list string) : LoopState :=
  fold_left processLine lines initialState.

Definition parseLoop (text : string) : LoopState :=
  parseLines (JS.split LF text).

(** *** Header lines, for the statements about the parser *)

(** [<path>:<line>:<column>: <severity>: <message>], followed by
    [ [<rule>]] when there is a rule. *)
Definition headerLine (path lineStr columnStr severityStr message : string)
           (rule : option string) : string :=
  path +:+ ":" +:+ lineStr +:+ ":" +:+ columnStr +:+ ": "
  +:+ severityStr +:+ ": " +:+ message
  +:+ match rule with
      | Some r => " [" +:+ r +:+ "]"
      | None => EmptyString
      end.

Definition isPathBody (s : string) : bool :=
  negb (JS.isEmpty s) && JS.every pathChar s.

(** A POSIX absolute path or a drive-qualified path, free of colons
    after the drive and of line feeds. *)
Definition isAbsolutePath (s : string) : bool :=
  match s with
  | String a rest =>
      if isSeparator a then isPathBody rest
      else match rest with
           | String b (String c body) =>
               JS.isAlpha a && JS.eqc b ":" && isSeparator c
               && isPathBody body
           | _ => false
           end
  | EmptyString => false
  end.

(** A non-empty string of decimal digits. *)
Definition isNumber (s : string) : bool :=
  negb (JS.isEmpty s) && JS.every JS.isDigit s.

(** The text after a ['['] holds a [']'] that is not its last
    character. *)
Fixpoint closesBeforeEnd (s : string) : bool :=
  match s with
  | EmptyString => false
  | String x s' =>
      if JS.eqc x "]" then negb (JS.isEmpty s') else closesBeforeEnd s'
  end.

(** Every ['['] that directly follows a white space character is
    closed by a [']'] before the last character of the text: no tail
    of the text reads as a rule suffix. *)
Fixpoint bracketsClosed (s : string) : bool :=
  match s with
  | String a s' =>
      match s' with
      | String b rest =>
          (if JS.isWhiteSpace a && JS.eqc b "[" then closesBeforeEnd rest
           else true)
          && bracketsClosed s'
      | EmptyString => true
      end
  | EmptyString => true
  end.

(** The last character of [s] exists and is not white space. *)
Fixpoint lastNonWs (s : string) : bool :=
  match s with
  | EmptyString => false
  | String a s' =>
      match s' with
      | EmptyString => negb (JS.isWhiteSpace a)
      | String _ _ => lastNonWs s'
      end
  end.

(** A message as the header pattern and [trim] leave it: not empty,
    on one line, without white space around it. *)
Definition isMessage (s : string) : bool :=
  negb (JS.isEmpty s) && JS.every (notIn [LF]) s
  && String.eqb (JS.trim s) s.

(** A rule identifier: not empty, without [']'] and line feed. *)
Definition isRule (s : string) : bool :=
  negb (JS.isEmpty s) && JS.every (notIn ["]"%char; LF]) s.

(** The text is made of [lines] joined by line feeds. *)
Definition joinLines (lines : list string) : string :=
  JS.join (String LF EmptyString) lines.

Definition noLineFeed (s : string) : bool := JS.every (notIn [LF]) s.

(** *** enrichDiagnosticsWithSourceCode *)

(** What the parser takes from its host: [fs.readFileSync(path,
    'utf8')], which gives the content or throws, and the longest string
    that the engine builds.  The caret line is the only string whose
    length comes from a number of the input; every other string of the
    parser is a part of the text or of a file that is already in
    memory. *)
Record Host : Type := mkHost {
  readFileSync : string -> Exn.outcome string;
  maxStringLength : Z
}.

(** [Map<string, ClangTidyDiagnostic[]>], in insertion order; the
    arrays hold references, kept as indices into [diagnostics]. *)
Definition FileMap : Type := list (string * list nat).

Definition mapHas (key : string) (m : FileMap) : bool :=
  existsb (fun e => String.eqb (fst e) key) m.

Definition mapSetEmpty (key : string) (m : FileMap) : FileMap :=
  m ++ [(key, [])].

(** [m.get(key)!.push(i)] *)
Definition mapPush (key : string) (i : nat) (m : FileMap) : FileMap :=
  map (fun e => if String.eqb (fst e) key then (fst e, snd e ++ [i]) else e)
      m.

Definition groupStep (m : FileMap) (entry : nat * Diagnostic) : FileMap :=
  let '(i, diagnostic) := entry in
  let m' := if mapHas (filePath diagnostic) m then m
            else mapSetEmpty (filePath diagnostic) m in
  mapPush (filePath diagnostic) i m'.

Definition groupByFile (ds : list Diagnostic) : FileMap :=
  fold_left groupStep (combine (seq 0 (List.length ds)) ds) [].

(** [if (!diagnostic.codeLineFull) diagnostic.codeLineFull = codeLine] *)
Definition fillCodeLine (codeLine : string) (d : Diagnostic) : Diagnostic :=
  if truthy (codeLineFull d) then d else setCodeLineFull codeLine d.

(** [const position = Math.max(0, diagnostic.column - 1);
    const whitespace = ' '.repeat(position); whitespace + '^'] *)
Definition buildCaretLine (host : Host) (d : Diagnostic)
  : Exn.outcome string :=
  let position := JS.max0 (JS.minusOne (column d)) in
  match JS.repeatCount (maxStringLength host) " " position with
  | Exn.Returned whitespace =>
      JS.concat (maxStringLength host) whitespace "^"
  | Exn.Thrown error => Exn.Thrown error
  end.

(** [if (!diagnostic.caretLine) { ... }] *)
Definition fillCaretLine (host : Host) (d : Diagnostic)
  : Exn.outcome Diagnostic :=
  if truthy (caretLine d) then Exn.Returned d
  else
    match buildCaretLine host d with
    | Exn.Returned caret => Exn.Returned (setCaretLine caret d)
    | Exn.Thrown error => Exn.Thrown error
    end.

(** The body of [for (const diagnostic of fileDiagnostics)]: the record
    as the body leaves it, and the error that the body throws, if any.
    The source line is assigned before the caret line is built, so
    that it stays when building the caret line throws. *)
Definition enrichOne (host : Host) (fileLines : list string)
           (d : Diagnostic) : Diagnostic * option string :=
  let lineIndex := JS.minusOne (line d) in
  if JS.isIndex lineIndex (List.length fileLines) then
    match JS.element fileLines lineIndex with
    | Some codeLine =>
        let d1 := fillCodeLine codeLine d in
        match fillCaretLine host d1 with
        | Exn.Returned d2 => (d2, None)
        | Exn.Thrown error => (d1, Some error)
        end
    | None => (d, None)
    end
  else (d, None).

(** [for (const diagnostic of fileDiagnostics) { ... }] over the
    records at the positions [fileDiagnostics] of [store]: the store as
    the loop leaves it, and the error that ends the loop, if any. *)
Fixpoint enrichLoop (host : Host) (fileLines : list string)
         (fileDiagnostics : list nat) (store : list Diagnostic)
  : list Diagnostic * option string :=
  match fileDiagnostics with
  | [] => (store, None)
  | i :: rest =>
      match store !! i with
      | Some d =>
          let '(d', thrown) := enrichOne host fileLines d in
          let store' := <[i := d']> store in
          match thrown with
          | None => enrichLoop host fileLines rest store'
          | Some error => (store', Some error)
          end
      | None => enrichLoop host fileLines rest store
      end
  end.

(** The [try] block of [for (const [filePath, fileDiagnostics] of
    ...)]: the read, the split and the inner loop. *)
Definition tryFile (host : Host) (store : list Diagnostic)
           (entry : string * list nat) : list Diagnostic * option string :=
  match readFileSync host (fst entry) with
  | Exn.Returned content =>
      enrichLoop host (JS.split LF content) (snd entry) store
  | Exn.Thrown error => (store, Some error)
  end.

(** The body of [for (const [filePath, fileDiagnostics] of ...)]:
    [try { ... } catch (error) { logger.warn(...); continue; }].  With
    or without an error the outer loop goes on, with the records as
    the [try] block left them. *)
Definition enrichFile (host : Host) (store : list Diagnostic)
           (entry : string * list nat) : list Diagnostic :=
  match tryFile host store entry with
  | (store', Some _) => store'
  | (store', None) => store'
  end.

Definition enrichDiagnosticsWithSourceCode (host : Host)
           (ds : list Diagnostic) : list Diagnostic :=
  fold_left (enrichFile host) (groupByFile ds) ds.

(** What the body of the inner loop makes of one record, with the
    lines of the record's own file; the record itself when the file
    cannot be read. *)
Definition enrichDiag (host : Host) (d : Diagnostic) : Diagnostic :=
  match readFileSync host (filePath d) with
  | Exn.Returned content => fst (enrichOne host (JS.split LF content) d)
  | Exn.Thrown _ => d
  end.

(** The body of the inner loop throws on this record. *)
Definition throwsOn (host : Host) (fileLines : list string)
           (d : Diagnostic) : bool :=
  match snd (enrichOne host fileLines d) with
  | Some _ => true
  | None => false
  end.

(** The positions, counted from [k], of the records of file [key]. *)
Fixpoint positionsFrom (k : nat) (key : string) (ds : list Diagnostic)
  : list nat :=
  match ds with
  | [] => []
  | d :: rest =>
      (if String.eqb (filePath d) key then [k] else [])
      ++ positionsFrom (S k) key rest
  end.

(** The inner loop seen on the whole list: the records of file [key]
    go through the body in order, up to the first one on which it
    throws; the records after that one stay as they are. *)
Fixpoint enrichRecords (host : Host) (fileLines : list string)
         (key : string) (ds : list Diagnostic) : list Diagnostic :=
  match ds with
  | [] => []
  | d :: rest =>
      if String.eqb (filePath d) key then
        match enrichOne host fileLines d with
        | (d', None) => d' :: enrichRecords host fileLines key rest
        | (d', Some _) => d' :: rest
        end
      else d :: enrichRecords host fileLines key rest
  end.

(** One round of the outer loop seen on the whole list. *)
Definition enrichPath (host : Host) (key : string) (ds : list Diagnostic)
  : list Diagnostic :=
  match readFileSync host key with
  | Exn.Returned content => enrichRecords host (JS.split LF content) key ds
  | Exn.Thrown _ => ds
  end.

(** The body of the inner loop threw on a record of file [key] in
    front of position [i]. *)
Definition abortedBefore (host : Host) (fileLines : list string) (i : nat)
           (ds : list Diagnostic) (key : string) : bool :=
  existsb (fun e => String.eqb (filePath e) key && throwsOn host fileLines e)
          (take i ds).

(** A record after the pass: as it was, or as the body of the inner
    loop leaves it. *)
Definition enriched (host : Host) (d d' : Diagnostic) : Prop :=
  d' = d \/ d' = enrichDiag host d.

(** [transformTextToDiagnostics]: the loop over the lines, then the
    enrichment.  The loop splits, matches and trims the text and
    stores parts of it; the errors of the enrichment are caught in its
    loop over the files; the logger catches the errors of its own
    writes.  No statement of the body is left that throws, and the
    outcome is [Returned]. *)
Definition transformTextToDiagnostics (host : Host) (text : string)
  : Exn.outcome (list Diagnostic) :=
  let st := parseLoop text in
  Exn.Returned (enrichDiagnosticsWithSourceCode host (diagnostics st)).

(** The body of [parseClangTidyText], over the private method it
    calls: [try { return transform(text) } catch { return [] }]. *)
Definition parseWith (transform : string -> Exn.outcome (list Diagnostic))
           (text : string) : Exn.outcome (list Diagnostic) :=
  Exn.try_catch (transform text) (fun _ => Exn.Returned []).

Definition parseClangTidyText (host : Host) (text : string)
  : Exn.outcome (list Diagnostic) :=
  parseWith (transformTextToDiagnostics host) text.

(** *** Vocabulary for the properties of the parser *)

(** Two records agree on the fields taken from the header line. *)
Definition sameHeader (d d' : Diagnostic) : Prop :=
  filePath d' = filePath d /\ line d' = line d /\ column d' = column d
  /\ severity d' = severity d /\ message d' = message d
  /\ checkName d' = checkName d.

(** [d'] is [d] up to a source line and a caret line filled in where
    [d] had none. *)
Definition filledFrom (d d' : Diagnostic) : Prop :=
  sameHeader d d' /\ fixSuggestion d' = fixSuggestion d
  /\ (truthy (codeLineFull d) = true -> codeLineFull d' = codeLineFull d)
  /\ (truthy (caretLine d) = true -> caretLine d' = caretLine d).

(** The optional fields hold no empty string. *)
Definition fieldsNonEmpty (d : Diagnostic) : Prop :=
  (forall s, codeLineFull d = Some s -> s <> EmptyString)
  /\ (forall s, caretLine d = Some s -> s <> EmptyString)
  /\ (forall s, fixSuggestion d = Some s -> s <> EmptyString).

(** The updates made through [currentDiagnostic]. *)
Inductive detailUpdate : (Diagnostic -> Diagnostic) -> Prop :=
| UpdateCode v : v <> EmptyString -> detailUpdate (setCodeLineFull v)
| UpdateCaret v : v <> EmptyString -> detailUpdate (setCaretLine v)
| UpdateFix (ln : string) :
    ln <> EmptyString ->
    detailUpdate
      (fun d =>
         match fixSuggestion d with
         | Some f =>
             if JS.isEmpty f then setFixSuggestion ln d
             else setFixSuggestion (f +:+ String LF EmptyString +:+ ln) d
         | None => setFixSuggestion ln d
         end).

(** A continuation that needs [']'] next and the end right after. *)
Definition closing (k : Regex.cont) : Prop :=
  (forall s c, JS.headIn (JS.eqc "]") s = false -> k s c = None)
  /\ (forall y t c, k (String "]" (String y t)) c = None).

(** The parser returns a list that holds a diagnostic with these
    header fields. *)
Definition headerParsed (host : Host) (text : string)
           (path : string) (lineNo columnNo : JS.number)
           (sev msg check : string) : Prop :=
  exists ds d,
    parseClangTidyText host text = Exn.Returned ds /\ In d ds
    /\ filePath d = path /\ line d = lineNo /\ column d = columnNo
    /\ severity d = sev /\ message d = msg /\ checkName d = check.

End TextParser.


(* ===================================================================== *)
(** ** ProcessUtils (utils/processUtils.ts) *)
(* ===================================================================== *)

Module ProcessUtils.

(** [ProcessResult] *)
Record ProcessResult : Type := mkProcessResult {
  stdout : string;
  stderr : string;
  exitCode : Z;
  duration : Z
}.

(** One entry of the [tasks] argument of [executeParallel]. *)
Record Task : Type := mkTask {
  command : string;
  args : list string;
  cwd : option string
}.

(** *** executeCommand *)

(** What the spawned child emits, in order.  A [CloseEvent] carries the
    exit code handed to the listener ([None] for [null]) and the value
    of [Date.now()] when the listener runs. *)
Inductive ChildEvent : Type :=
| StdoutData (chunk : string)
| StderrData (chunk : string)
| CloseEvent (exitCode : option Z) (now : Z)
| ErrorEvent (message : string).

(** Output chunks, the events that do not settle the promise. *)
Definition isData (e : ChildEvent) : Prop :=
  match e with
  | StdoutData _ | StderrData _ => True
  | CloseEvent _ _ | ErrorEvent _ => False
  end.

(** The state of the promise returned by [executeCommand]. *)
Inductive Settlement : Type :=
| Resolved (result : ProcessResult)
| Rejected (message : string)
| Pending.

(** [exitCode || 0]: [null] and [0] are falsy. *)
Definition orZero (exitCode : option Z) : Z :=
  match exitCode with
  | Some n => if (n =? 0)%Z then 0%Z else n
  | None => 0%Z
  end.

(** The listeners of [executeCommand] run over the child's events; the
    promise keeps its first settlement. *)
Fixpoint listen (startTime : Z) (events : list ChildEvent)
         (stdout stderr : string) : Settlement :=
  match events with
  | [] => Pending
  | StdoutData data :: rest => listen startTime rest (stdout +:+ data) stderr
  | StderrData data :: rest => listen startTime rest stdout (stderr +:+ data)
  | CloseEvent exitCode now :: _ =>
      Resolved (mkProcessResult stdout stderr (orZero exitCode)
                                (now - startTime))
  | ErrorEvent message :: _ => Rejected message
  end.

Definition executeCommand (startTime : Z) (events : list ChildEvent)
  : Settlement :=
  listen startTime events EmptyString EmptyString.

(** *** splitArray *)

Section SplitArray.
Context {T : Type}.

(** [array.slice(i, i + batchSize)] for in-range non-negative bounds. *)
Definition slice (array : list T) (i j : nat) : list T :=
  firstn (j - i) (skipn i array).

(** The [for] loop of [splitArray], from index [i] with [batches]
    already pushed.  The loop does not end when [batchSize] is 0 and
    the array is not empty; [fuel] bounds the iterations and [None]
    stands for a loop that did not end within them. *)
Fixpoint splitLoop (fuel : nat) (array : list T) (batchSize i : nat)
         (batches : list (list T)) : option (list (list T)) :=
  if i <? List.length array then
    match fuel with
    | O => None
    | S fuel' =>
        splitLoop fuel' array batchSize (i + batchSize)
                  (batches ++ [slice array i (i + batchSize)])
    end
  else Some batches.

Definition splitArray (array : list T) (batchSize : nat)
  : option (list (list T)) :=
  splitLoop (List.length array) array batchSize 0 [].
End SplitArray.

(** *** executeParallel *)

(** The environment of one pool run: for every task, when its child was
    started and what the child emits. *)
Record Spawner : Type := mkSpawner {
  startTime : nat -> Task -> Z;
  events : nat -> Task -> list ChildEvent
}.

(** The invocation of [executeCommand] for the task taken from the
    queue at position [taskIndex]. *)
Definition invoke (sp : Spawner) (w : nat * Task) : Settlement :=
  executeCommand (startTime sp (fst w) (snd w)) (events sp (fst w) (snd w)).

(** The variables shared by the workers of [executeParallel].  A worker
    suspended at [await this.executeCommand(...)] is an entry of
    [inflight], with its [taskIndex] and [task]; [started] and
    [progress] log the invocations and the [onProgress] calls. *)
Record Pool : Type := mkPool {
  queue : list Task;
  results : list ProcessResult;
  inflight : list (nat * Task);
  completedTasks : nat;
  started : list nat;
  progress : list (nat * nat)
}.

(** The [catch] branch of [executeNext]. *)
Definition failureResult (errorMsg : string) : ProcessResult :=
  mkProcessResult EmptyString errorMsg 1%Z 0%Z.

(** What a settled invocation pushes on [results]. *)
Definition pushed (s : Settlement) : option ProcessResult :=
  match s with
  | Resolved result => Some result
  | Rejected errorMsg => Some (failureResult errorMsg)
  | Pending => None
  end.

(** A worker at the head of [while (queue.length > 0)]: it ends when
    the queue is empty, and otherwise shifts the next task, starts its
    child and suspends. *)
Definition executeNext (totalTasks : nat) (p : Pool) : Pool :=
  match queue p with
  | [] => p
  | task :: queue' =>
      let taskIndex := totalTasks - List.length (queue p) in
      mkPool queue' (results p) (inflight p ++ [(taskIndex, task)])
             (completedTasks p) (started p ++ [taskIndex]) (progress p)
  end.

(** [for (let i = 0; i < actualWorkers; i++) workers.add(executeNext())] *)
Fixpoint startWorkers (actualWorkers : nat) (totalTasks : nat) (p : Pool)
  : Pool :=
  match actualWorkers with
  | O => p
  | S n => startWorkers n totalTasks (executeNext totalTasks p)
  end.

Definition settled (sp : Spawner) (w : nat * Task) : bool :=
  match pushed (invoke sp w) with
  | Some _ => true
  | None => false
  end.

(** The positions in [inflight] of the suspended workers whose
    invocation has settled. *)
Definition readyWorkers (sp : Spawner) (p : Pool) : list nat :=
  List.filter (fun j => match inflight p !! j with
                        | Some w => settled sp w
                        | None => false
                        end)
              (seq 0 (List.length (inflight p))).

(** The continuation of the worker at position [j] of [inflight] once
    its invocation has settled with [result] (pushed by the [try] or
    the [catch] branch): push, count, report progress, loop. *)
Definition resume (totalTasks : nat) (j : nat) (result : ProcessResult)
           (p : Pool) : Pool :=
  let completed := S (completedTasks p) in
  executeNext totalTasks
    (mkPool (queue p) (results p ++ [result]) (delete j (inflight p))
            completed (started p)
            (progress p ++ [(completed, totalTasks)])).

(** The event loop until every worker has ended.  [schedule] gives, for
    each settlement in turn, which of the ready workers is resumed
    first (completion order is not determined by the program); [None]
    stands for a pool whose promise never settles, because a suspended
    worker waits for a child that never closes. *)
Fixpoint eventLoop (fuel : nat) (sp : Spawner) (totalTasks : nat)
         (schedule : list nat) (p : Pool) : option Pool :=
  match inflight p with
  | [] => Some p
  | _ :: _ =>
      match fuel with
      | O => None
      | S fuel' =>
          let choice := hd 0 schedule in
          let candidates := readyWorkers sp p in
          match candidates !! (choice mod List.length candidates) with
          | Some j =>
              match inflight p !! j with
              | Some w =>
                  match pushed (invoke sp w) with
                  | Some result =>
                      eventLoop fuel' sp totalTasks (tl schedule)
                                (resume totalTasks j result p)
                  | None => None
                  end
              | None => None
              end
          | None => None
          end
      end
  end.

Definition runPool (sp : Spawner) (tasks : list Task) (maxWorkers : Z)
           (schedule : list nat) : option Pool :=
  let totalTasks := List.length tasks in
  let actualWorkers := Z.min maxWorkers (Z.of_nat totalTasks) in
  let p0 := mkPool tasks [] [] 0 [] [] in
  eventLoop totalTasks sp totalTasks schedule
            (startWorkers (Z.to_nat actualWorkers) totalTasks p0).

(** [executeParallel(tasks, maxWorkers, onProgress)]: the array the
    promise resolves with. *)
Definition executeParallel (sp : Spawner) (tasks : list Task)
           (maxWorkers : Z) (schedule : list nat)
  : option (list ProcessResult) :=
  match runPool sp tasks maxWorkers schedule with
  | Some p => Some (results p)
  | None => None
  end.

(** *** Vocabulary for the properties of the pool *)

(** The tasks of [l] with their positions, counted from [n]. *)
Definition indexedFrom (n : nat) (l : list Task) : list (nat * Task) :=
  List.combine (seq n (List.length l)) l.

(** What each task's invocation pushes, in task order. *)
Definition outcomes (sp : Spawner) (tasks : list Task)
  : list (option ProcessResult) :=
  map (fun w => pushed (invoke sp w)) (indexedFrom 0 tasks).

(** What holds of the shared variables between two settlements: the
    queue is the rest of the task list, every task is accounted for
    once among the results, the suspended workers and the queue, and
    the tasks were started in order. *)
Record poolInv (sp : Spawner) (tasks : list Task) (p : Pool) : Prop :=
  mkPoolInv {
  inv_len : List.length (queue p) <= List.length tasks;
  inv_queue :
    queue p = skipn (List.length tasks - List.length (queue p)) tasks;
  inv_perm :
    Permutation
      (map Some (results p)
       ++ map (fun w => pushed (invoke sp w)) (inflight p)
       ++ map (fun w => pushed (invoke sp w))
              (indexedFrom (List.length tasks - List.length (queue p))
                           (queue p)))
      (outcomes sp tasks);
  inv_inflight :
    Forall (fun w => tasks !! fst w = Some (snd w)) (inflight p);
  inv_started :
    started p = seq 0 (List.length tasks - List.length (queue p));
  inv_completed : completedTasks p = List.length (results p)
}.

(** Work left: suspended workers and queued tasks. *)
Definition pending (p : Pool) : nat :=
  List.length (inflight p) + List.length (queue p).

(** Every child closes or fails to start. *)
Definition allSettle (sp : Spawner) (tasks : list Task) : Prop :=
  forall i t, tasks !! i = Some t -> settled sp (i, t) = true.

End ProcessUtils.


(* ===================================================================== *)
(** ** ClangTidyRunner.runParallel (core/runner/ClangTidyRunner.ts) *)
(* ===================================================================== *)

Module ClangTidyRunner.
Import ProcessUtils.

(** [ParallelResult] *)
Record ParallelResult : Type := mkParallelResult {
  rawOutput : string;
  errorOutput : string;
  exitCode : Z;
  duration : Z;
  files : option (list string)
}.

(** The setting [parallelJobs]: ['auto'] or a number, which need not
    be an integer.  The settings are read from JSON, which has no
    notation for NaN and the infinities: a number is a rational. *)
Inductive ParallelJobs : Type :=
| Auto
| Jobs (jobs : Q).

(** [ConfigManager.getParallelJobs]; [cpus] is [os.cpus().length].  A
    number between 1 and 8 is returned as it is, a fractional one
    included. *)
Definition getParallelJobs (cpus : Z) (setting : ParallelJobs) : Q :=
  let jobs := match setting with
              | Auto => Qmin (inject_Z cpus) 8
              | Jobs jobs => jobs
              end in
  Qmax 1 (Qmin jobs 8).

(** [Math.ceil(files.length / maxJobs)], for an integer [maxJobs] of
    at least 1; the quotient is taken in the rationals (for an integer
    job count and a length below 2^53 the floating-point quotient has
    the same ceiling). *)
Definition batchSize (fileCount : nat) (maxJobs : Z) : nat :=
  Z.to_nat
    (Qceiling (Qdiv (inject_Z (Z.of_nat fileCount)) (inject_Z maxJobs))).

Definition makeBatches (files : list string) (maxJobs : Z)
  : option (list (list string)) :=
  splitArray files (batchSize (List.length files) maxJobs).

(** The part of the runner that [runParallel] uses as given: the
    executable, the working directory and [buildArguments]. *)
Record Runner : Type := mkRunner {
  clangTidyPath : string;
  workspaceRoot : string;
  buildArguments : list string -> list string
}.

Definition makeTask (r : Runner) (batch : list string) : Task :=
  mkTask (clangTidyPath r) (buildArguments r batch)
         (Some (workspaceRoot r)).

(** [results.map((result, index) => ({..., files: batches[index]}))];
    [files] is [None] where [batches[index]] is [undefined]. *)
Definition toParallelResult (batches : list (list string))
           (index : nat) (result : ProcessResult) : ParallelResult :=
  mkParallelResult (stdout result) (stderr result)
                   (ProcessUtils.exitCode result)
                   (ProcessUtils.duration result)
                   (batches !! index).

(** [runParallel(files, options, onProgress)] for an integer job count
    [maxJobs], as [getParallelJobs] returns it for ['auto'] and for an
    integer setting; [None] when the returned promise never settles. *)
Definition runParallel (r : Runner) (sp : Spawner) (maxJobs : Z)
           (schedule : list nat) (files : list string)
  : option (list ParallelResult) :=
  match makeBatches files maxJobs with
  | Some batches =>
      let tasks := map (makeTask r) batches in
      match executeParallel sp tasks maxJobs schedule with
      | Some results => Some (imap (toParallelResult batches) results)
      | None => None
      end
  | None => None
  end.

End ClangTidyRunner.

(* ===================================================================== *)
(** ** String searching and replacing *)
(* ===================================================================== *)

Module JSString.

(** The rest of [s] after [prefix], when [s] starts with it. *)
Fixpoint after (prefix s : string) : option string :=
  match prefix with
  | EmptyString => Some s
  | String a prefix' =>
      match s with
      | String b s' => if JS.eqc a b then after prefix' s' else None
      | EmptyString => None
      end
  end.

(** [s.startsWith(prefix)] *)
Definition startsWith (prefix s : string) : bool :=
  match after prefix s with Some _ => true | None => false end.

(** [s.includes(needle)] *)
Fixpoint includes (needle s : string) : bool :=
  startsWith needle s
  || match s with
     | EmptyString => false
     | String _ s' => includes needle s'
     end.

(** [s.indexOf(c)] for a one-character needle; [None] stands for -1. *)
Fixpoint indexOf (c : ascii) (s : string) : option nat :=
  match s with
  | EmptyString => None
  | String x s' => if JS.eqc x c then Some 0 else option_map S (indexOf c s')
  end.

(** [s.substring(n)] *)
Fixpoint substringFrom (n : nat) (s : string) : string :=
  match n with
  | O => s
  | S n' =>
      match s with
      | String _ s' => substringFrom n' s'
      | EmptyString => EmptyString
      end
  end.

(** The replacement text of [String.prototype.replace] for a string
    pattern (GetSubstitution without captures): [$$] is a dollar sign,
    [$&] the matched text, [$`] the text before the match, [$'] the
    text after it; any other dollar sign stands for itself. *)
Fixpoint getSubstitution (matched before rest replacement : string)
  : string :=
  match replacement with
  | EmptyString => EmptyString
  | String a tl =>
      if JS.eqc a "$" then
        match tl with
        | String c tl' =>
            if JS.eqc c "$" then
              String "$" (getSubstitution matched before rest tl')
            else if JS.eqc c "&" then
              matched +:+ getSubstitution matched before rest tl'
            else if JS.eqc c "`" then
              before +:+ getSubstitution matched before rest tl'
            else if JS.eqc c "'" then
              rest +:+ getSubstitution matched before rest tl'
            else String "$" (getSubstitution matched before rest tl)
        | EmptyString => String "$" EmptyString
        end
      else String a (getSubstitution matched before rest tl)
  end.

(** The search of [replace], with [before] already passed over. *)
Fixpoint replaceFrom (before needle replacement s : string) : string :=
  match after needle s with
  | Some rest =>
      before +:+ getSubstitution needle before rest replacement +:+ rest
  | None =>
      match s with
      | EmptyString => before
      | String c s' =>
          replaceFrom (before +:+ String c EmptyString) needle replacement s'
      end
  end.

(** [s.replace(needle, replacement)] for a string [needle]: the first
    occurrence only. *)
Definition replace (needle replacement s : string) : string :=
  replaceFrom EmptyString needle replacement s.

(** The number of occurrences of the character [c]. *)
Fixpoint count (c : ascii) (s : string) : nat :=
  match s with
  | EmptyString => 0
  | String x s' => (if JS.eqc x c then 1 else 0) + count c s'
  end.

End JSString.

(* ===================================================================== *)
(** ** I18nService.t (utils/i18nService.ts) *)
(* ===================================================================== *)

Module I18nService.

(** [a || b] where [a] may be [undefined]. *)
Definition orElse (a : option string) (b : string) : string :=
  match a with
  | Some v => if JS.isEmpty v then b else v
  | None => b
  end.

(** [`{${index}}`] *)
Definition placeholder (index : nat) : string :=
  "{" +:+ NilZero.string_of_uint (Nat.to_uint index) +:+ "}".

(** [this.translations.get(key) || defaultValue || key] *)
Definition lookupTranslation (translations : string -> option string)
           (key : string) (defaultValue : option string) : string :=
  orElse (translations key) (orElse defaultValue key).

(** [while (translation.includes(placeholder)) translation =
    translation.replace(placeholder, String(param))]; [fuel] bounds the
    iterations and [None] stands for a loop that did not end within
    them. *)
Fixpoint replaceWhile (fuel : nat) (placeholder param translation : string)
  : option string :=
  if JSString.includes placeholder translation then
    match fuel with
    | O => None
    | S fuel' =>
        replaceWhile fuel' placeholder param
                     (JSString.replace placeholder param translation)
    end
  else Some translation.

(** [params.forEach((param, index) => ...)], from position [index]. *)
Fixpoint forEachParam (fuel : nat) (params : list string) (index : nat)
         (translation : string) : option string :=
  match params with
  | [] => Some translation
  | param :: rest =>
      match replaceWhile fuel (placeholder index) param translation with
      | Some translation' => forEachParam fuel rest (S index) translation'
      | None => None
      end
  end.

(** [t(key, defaultValue, ...params)]; the parameters are given by
    their images under [String(param)]. *)
Definition t (fuel : nat) (translations : string -> option string)
           (key : string) (defaultValue : option string)
           (params : list string) : option string :=
  forEachParam fuel params 0 (lookupTranslation translations key defaultValue).

End I18nService.

(* ===================================================================== *)
(** ** runClangTidyAnalysis (extension.ts), from the merged result on *)
(* ===================================================================== *)

Module Extension.
Import TextParser.

(** The [result] object handed to the failure check and the parser. *)
Record RunResult : Type := mkRunResult {
  rawOutput : string;
  errorOutput : string;
  exitCode : Z
}.

(** "Combine results from all batches" *)
Definition combine (parallelResults : list ClangTidyRunner.ParallelResult)
  : RunResult :=
  let nl := String LF EmptyString in
  mkRunResult
    (JS.join nl (map ClangTidyRunner.rawOutput parallelResults))
    (JS.join nl (map ClangTidyRunner.errorOutput parallelResults))
    (if existsb (fun r => negb (ClangTidyRunner.exitCode r =? 0)%Z)
                parallelResults
     then 1%Z else 0%Z).

(** How [runClangTidyAnalysis] ends once it has a result; the
    messages are those that [i18n.t] returned. *)
Inductive Ending : Type :=
| AnalysisFailed (message : string)   (* showErrorMessage, return *)
| NoIssuesFound (message : string)    (* showInformationMessage, return *)
| ReportShown (diagnostics : list Diagnostic)
| GenericError (message : string).    (* the outer catch *)

(** [runClangTidyAnalysis] from the failure check to the branch it
    takes; [translations] is the map of the [I18nService], and [None]
    stands for a run that never ends because [i18n.t] does not return.
    With diagnostics the run goes on with [prepareReportData] and the
    webview (lines 211 to 228), which [ReportShown] stands for. *)
Definition runClangTidyAnalysis (fuel : nat)
           (translations : string -> option string) (host : Host)
           (result : RunResult) : option Ending :=
  if (negb (exitCode result =? 0)%Z && JS.isEmpty (rawOutput result))%bool
  then
    option_map AnalysisFailed
      (I18nService.t fuel translations "error.analysisFailed"
         (Some ("Clang-Tidy analysis failed: " +:+ errorOutput result))
         [errorOutput result])
  else
    match parseClangTidyText host (rawOutput result) with
    | Exn.Returned diagnostics =>
        if List.length diagnostics =? 0 then
          option_map NoIssuesFound
            (I18nService.t fuel translations "info.noIssuesFound" None [])
        else Some (ReportShown diagnostics)
    | Exn.Thrown message =>
        option_map GenericError
          (I18nService.t fuel translations "error.generic"
             (Some ("Error: " +:+ message)) [message])
    end.

End Extension.

(* ===================================================================== *)
(** ** Sample inputs *)
(* ===================================================================== *)

Module Examples.
Import ProcessUtils.

Definition taskA : Task := mkTask "clang-tidy" ["a.cpp"] (Some "/w").
Definition taskB : Task := mkTask "clang-tidy" ["b.cpp"] (Some "/w").

(** Children that print their first argument and exit with code 0;
    an executable named [missing] cannot be started. *)
Definition echo : Spawner :=
  mkSpawner
    (fun _ _ => 0%Z)
    (fun _ t => if String.eqb (command t) "missing"
                then [ErrorEvent "spawn missing ENOENT"]
                else [StdoutData (hd EmptyString (args t));
                      CloseEvent (Some 0%Z) 5%Z]).

Definition taskMissing : Task := mkTask "missing" ["c.cpp"] (Some "/w").

Definition resultA : ProcessResult := mkProcessResult "a.cpp" "" 0 5.
Definition resultB : ProcessResult := mkProcessResult "b.cpp" "" 0 5.

(** A runner whose arguments are the files of the batch. *)
Definition plainRunner : ClangTidyRunner.Runner :=
  ClangTidyRunner.mkRunner "clang-tidy" "/w" (fun batch => batch).

(** The header line of the scenario of the specification, its source
    line and its caret line. *)
Definition headerText : string :=
  "/p/f.cpp:5:9: warning: use of a signed integer operand [bugprone-signed-char-bitwise]".
Definition sourceText : string := "   5 | char c = 'a';".
Definition caretText : string := "     | ^~~~~".

(** The record pushed for [headerText]. *)
Definition headerDiagnostic : TextParser.Diagnostic :=
  TextParser.mkDiagnostic "/p/f.cpp" (JS.Num 5) (JS.Num 9) "warning"
    "use of a signed integer operand" "bugprone-signed-char-bitwise"
    None None None.

(** The loop state right after [headerText]. *)
Definition afterHeader : TextParser.LoopState :=
  TextParser.mkLoopState [headerDiagnostic] (Some 0) 1 0.

(** Header lines with an unknown and with a capitalised severity. *)
Definition oddityText : string :=
  "/p/f.cpp:5:9: oddity: use of a signed integer operand [bugprone-signed-char-bitwise]".
Definition capitalText : string :=
  "/p/f.cpp:5:9: Warning: use of a signed integer operand [bugprone-signed-char-bitwise]".

(** The longest string of V8 on a 64-bit platform: 2^29 - 24. *)
Definition v8Limit : Z := 536870888%Z.

(** A host whose every file has five lines. *)
Definition fiveLines : TextParser.Host :=
  TextParser.mkHost
    (fun _ => Exn.Returned
                (TextParser.joinLines ["1"; "2"; "3"; "4"; "char other;"]))
    v8Limit.

(** A host without any readable file. *)
Definition noFiles : TextParser.Host :=
  TextParser.mkHost (fun _ => Exn.Thrown "ENOENT") v8Limit.

End Examples.

(* ===================================================================== *)
(** ** ProcessUtils.commandExists *)
(* ===================================================================== *)

Module ProcessLookup.
Import ProcessUtils.

(** [commandExists(command)], from the events of the lookup child:
    [true] once the awaited promise resolves, [false] from the [catch];
    [None] while the promise is pending. *)
Definition commandExists (startTime : Z) (events : list ChildEvent)
  : option bool :=
  match executeCommand startTime events with
  | Resolved _ => Some true
  | Rejected _ => Some false
  | Pending => None
  end.

(** The chunks of the events in front of the first settling event. *)
Fixpoint stdoutChunks (events : list ChildEvent) : list string :=
  match events with
  | StdoutData data :: rest => data :: stdoutChunks rest
  | StderrData _ :: rest => stdoutChunks rest
  | _ => []
  end.

Fixpoint stderrChunks (events : list ChildEvent) : list string :=
  match events with
  | StderrData data :: rest => data :: stderrChunks rest
  | StdoutData _ :: rest => stderrChunks rest
  | _ => []
  end.

(** The text of the chunks, one after the other. *)
Definition collected (chunks : list string) : string :=
  fold_right String.append EmptyString chunks.

(** The first event that settles the promise, if any. *)
Fixpoint firstSettling (events : list ChildEvent) : option ChildEvent :=
  match events with
  | [] => None
  | StdoutData _ :: rest | StderrData _ :: rest => firstSettling rest
  | e :: _ => Some e
  end.

(** The [onProgress] calls of a pool of [total] tasks that completed
    [completed] of them. *)
Definition progressCalls (completed total : nat) : list (nat * nat) :=
  map (fun k => (k, total)) (seq 1 completed).

(** The calls of [onProgress] so far count the completed tasks. *)
Definition progressInv (tasks : list Task) (p : Pool) : Prop :=
  progress p = progressCalls (completedTasks p) (List.length tasks).

(** With a single worker: at most one child runs, and the results,
    the running task and the queued tasks follow the task order. *)
Definition orderedInv (sp : Spawner) (tasks : list Task) (p : Pool) : Prop :=
  List.length (inflight p) <= 1
  /\ map Some (results p)
     ++ map (fun w => pushed (invoke sp w)) (inflight p)
     ++ map (fun w => pushed (invoke sp w))
            (indexedFrom (List.length tasks - List.length (queue p))
                         (queue p))
     = outcomes sp tasks.

End ProcessLookup.

(* ===================================================================== *)
(** ** ClangTidyRunner: arguments, single run, availability, checks *)
(* ===================================================================== *)

Module ClangTidyCommand.
Import ProcessUtils.

(** [RunOptions]; [fixFlag] is the property [fix] ([fix] is a keyword
    here), [false] when it is absent. *)
Record RunOptions : Type := mkRunOptions {
  checks : option string;
  headerFilter : option string;
  fixFlag : bool;
  extraArgs : option (list string)
}.

(** What [buildArguments] reads from the [ConfigManager]. *)
Record Configuration : Type := mkConfiguration {
  getChecks : string;
  getHeaderFilter : string;
  getCompileCommandsPath : string;
  getExtraArgs : list string
}.

(** What [buildArguments] reads from the platform: [path.join],
    [path.extname], [fs.existsSync] and
    [vscode.workspace.workspaceFolders?.[0].uri.fsPath]. *)
Record Platform : Type := mkPlatform {
  join : string -> string -> string;
  extname : string -> string;
  existsSync : string -> bool;
  workspaceRoot : option string
}.

(** [a || b] for strings, [a] possibly [undefined]. *)
Definition orString (a : option string) (b : string) : string :=
  match a with
  | Some v => if JS.isEmpty v then b else v
  | None => b
  end.

Definition cppExtensions : list string :=
  [".cpp"; ".hpp"; ".cc"; ".hh"; ".cxx"; ".hxx"; ".c"; ".h"].

(** The predicate of [files.filter(...)]. *)
Definition isCppFile (pf : Platform) (file : string) : bool :=
  let ext := JS.toLowerCase (extname pf file) in
  existsb (String.eqb ext) cppExtensions.

Definition cppFiles (pf : Platform) (files : list string) : list string :=
  List.filter (isCppFile pf) files.

(** The [-checks=] argument of both branches. *)
Definition checksArgument (cfg : Configuration) (options : RunOptions)
  : string :=
  let checks := orString (checks options) (getChecks cfg) in
  let finalChecks := orString (Some checks) "*" in
  "-checks=" +:+ finalChecks.

(** The arguments in front of the files: everything [buildArguments]
    pushes before [args.push(...cppFiles)]. *)
Definition optionArguments (pf : Platform) (cfg : Configuration)
           (options : RunOptions) : list string :=
  let root :=
    match workspaceRoot pf with
    | Some r => if JS.isEmpty r then None else Some r
    | None => None
    end in
  let '(args, clangTidyConfigPath) :=
    match root with
    | Some r =>
        let p := join pf r ".clang-tidy" in
        if existsSync pf p then (["--config-file=" +:+ p], Some p)
        else ([checksArgument cfg options], None)
    | None => ([checksArgument cfg options], None)
    end in
  let headerFilter :=
    orString (headerFilter options) (getHeaderFilter cfg) in
  let args :=
    if negb (JS.isEmpty headerFilter) then
      args ++ ["-header-filter=" +:+ headerFilter]
    else
      match root with
      | Some r =>
          if negb (TextParser.truthy clangTidyConfigPath)
          then args ++ ["-header-filter=" +:+ r] else args
      | None => args
      end in
  let args := if fixFlag options then args ++ ["-fix"] else args in
  let compileCommandsPath := getCompileCommandsPath cfg in
  let args :=
    if negb (JS.isEmpty compileCommandsPath)
    then args ++ ["-p=" +:+ compileCommandsPath] else args in
  let extraArgs :=
    match extraArgs options with
    | Some l => l
    | None => getExtraArgs cfg
    end in
  args ++ extraArgs.

(** [buildArguments(files, options)] *)
Definition buildArguments (pf : Platform) (cfg : Configuration)
           (files : list string) (options : RunOptions) : list string :=
  optionArguments pf cfg options ++ cppFiles pf files.

(** The runner of [runParallel] with these arguments. *)
Definition runner (pf : Platform) (cfg : Configuration)
           (options : RunOptions) (clangTidyPath cwd : string)
  : ClangTidyRunner.Runner :=
  ClangTidyRunner.mkRunner clangTidyPath cwd
    (fun batch => buildArguments pf cfg batch options).

(** [RunResult] *)
Record RunResult : Type := mkRunResult {
  rawOutput : string;
  errorOutput : string;
  exitCode : Z;
  duration : Z
}.

(** [runAnalysis(files, options)], from the settlement of its
    [executeCommand]; [startTime] and [now] are the two readings of
    [Date.now()]. *)
Definition runAnalysis (startTime now : Z) (s : Settlement)
  : option RunResult :=
  match s with
  | Resolved result =>
      Some (mkRunResult (stdout result) (stderr result)
                        (ProcessUtils.exitCode result) (now - startTime))
  | Rejected message =>
      Some (mkRunResult EmptyString message 1 (now - startTime))
  | Pending => None
  end.

(** The condition under which [parseChecksList] pushes a trimmed
    line. *)
Definition isCheck (trimmedLine : string) : bool :=
  negb (JS.isEmpty trimmedLine)
  && negb (JSString.startsWith "-" trimmedLine)
  && negb (JSString.startsWith "Checks" trimmedLine).

(** [parseChecksList(output)] *)
Definition parseChecksList (output : string) : list string :=
  fold_left
    (fun checks ln =>
       let trimmedLine := JS.trim ln in
       if isCheck trimmedLine then checks ++ [trimmedLine] else checks)
    (JS.split TextParser.LF output) [].

(** A check name as [parseChecksList] returns them: a check line
    without white space around it and without line feed. *)
Definition isCheckName (name : string) : bool :=
  isCheck name && String.eqb (JS.trim name) name
  && TextParser.noLineFeed name.

End ClangTidyCommand.

(* ===================================================================== *)
(** ** runClangTidyAnalysis (extension.ts): the result and the report *)
(* ===================================================================== *)

Module Analysis.
Import TextParser.

(** The [result] of [runClangTidyAnalysis]: the merged batches for more
    than one file, the single run otherwise.  [None] when the awaited
    promise never settles. *)
Definition result (r : ClangTidyRunner.Runner) (sp : ProcessUtils.Spawner)
           (maxJobs : Z) (schedule : list nat) (startTime now : Z)
           (files : list string) : option Extension.RunResult :=
  if 1 <? List.length files then
    match ClangTidyRunner.runParallel r sp maxJobs schedule files with
    | Some parallelResults => Some (Extension.combine parallelResults)
    | None => None
    end
  else
    match ClangTidyCommand.runAnalysis startTime now
            (ProcessUtils.invoke sp (0, ClangTidyRunner.makeTask r files))
    with
    | Some single =>
        Some (Extension.mkRunResult (ClangTidyCommand.rawOutput single)
                                    (ClangTidyCommand.errorOutput single)
                                    (ClangTidyCommand.exitCode single))
    | None => None
    end.

(** The run from the file list to its ending; [None] when it never
    ends. *)
Definition run (fuel : nat) (translations : string -> option string)
           (host : Host) (r : ClangTidyRunner.Runner)
           (sp : ProcessUtils.Spawner) (maxJobs : Z) (schedule : list nat)
           (startTime now : Z) (files : list string)
  : option Extension.Ending :=
  match result r sp maxJobs schedule startTime now files with
  | Some res => Extension.runClangTidyAnalysis fuel translations host res
  | None => None
  end.

(** [ReportData]; the two records are objects used as maps. *)
Record ReportData : Type := mkReportData {
  diagnostics : list Diagnostic;
  totalFilesChecked : nat;
  filesWithWarnings : nat;
  totalWarnings : nat;
  warningsByChecker : gmap string nat;
  files : gmap string (list Diagnostic)
}.

(** The property names that every object inherits from
    [Object.prototype]: reading one of them from a fresh object does
    not give [undefined].  The two loops below are modelled for keys
    outside this list. *)
Definition inheritedNames : list string :=
  ["constructor"; "__proto__"; "hasOwnProperty"; "isPrototypeOf";
   "propertyIsEnumerable"; "toLocaleString"; "toString"; "valueOf";
   "__defineGetter__"; "__defineSetter__"; "__lookupGetter__";
   "__lookupSetter__"].

Definition plainKey (key : string) : bool :=
  negb (existsb (String.eqb key) inheritedNames).

(** [if (diag.checkName) warningsByChecker[diag.checkName] =
    (warningsByChecker[diag.checkName] || 0) + 1] *)
Definition countChecker (warningsByChecker : gmap string nat)
           (diag : Diagnostic) : gmap string nat :=
  if JS.isEmpty (checkName diag) then warningsByChecker
  else
    let previous := match warningsByChecker !! checkName diag with
                    | Some n => n
                    | None => 0
                    end in
    <[checkName diag := previous + 1]> warningsByChecker.

(** [if (!files[diag.filePath]) files[diag.filePath] = [];
    files[diag.filePath].push(diag)] *)
Definition groupFile (files : gmap string (list Diagnostic))
           (diag : Diagnostic) : gmap string (list Diagnostic) :=
  let files' := match files !! filePath diag with
                | Some _ => files
                | None => <[filePath diag := []]> files
                end in
  alter (fun group => group ++ [diag]) (filePath diag) files'.

(** [prepareReportData(diagnostics, totalFiles)] *)
Definition prepareReportData (diagnostics : list Diagnostic)
           (totalFiles : nat) : ReportData :=
  let warningsByChecker := fold_left countChecker diagnostics ∅ in
  let files := fold_left groupFile diagnostics ∅ in
  mkReportData diagnostics totalFiles (size files)
               (List.length diagnostics) warningsByChecker files.

(** The diagnostics of one file, and the number of diagnostics of one
    checker. *)
Definition inFile (path : string) (ds : list Diagnostic) : list Diagnostic :=
  List.filter (fun d => String.eqb (filePath d) path) ds.

Definition issuesOf (checker : string) (ds : list Diagnostic) : nat :=
  List.length (List.filter (fun d => String.eqb (checkName d) checker) ds).

(** The keys of the diagnostics are outside the inherited names. *)
Definition plainKeys (ds : list Diagnostic) : Prop :=
  Forall (fun d => plainKey (filePath d) = true
                   /\ plainKey (checkName d) = true) ds.

End Analysis.

(* ===================================================================== *)
(** ** HtmlReporter.renderTemplate: the code block of a warning *)
(* ===================================================================== *)

Module HtmlReporter.
Import TextParser.

Definition quote : string := String (ascii_of_nat 34) EmptyString.

Definition spanOpen : string :=
  "<span class=" +:+ quote +:+ "caret-highlight" +:+ quote +:+ ">".
Definition spanClose : string := "</span>".

(** [s.replace(/(\^+)/g, '<span class="caret-highlight">$1</span>')]:
    every maximal run of carets is wrapped; [inRun] tells that the
    previous character was a caret. *)
Fixpoint highlightCarets (inRun : bool) (s : string) : string :=
  match s with
  | EmptyString => if inRun then spanClose else EmptyString
  | String c s' =>
      if JS.eqc c "^" then
        (if inRun then EmptyString else spanOpen)
        +:+ String c (highlightCarets true s')
      else
        (if inRun then spanClose else EmptyString)
        +:+ String c (highlightCarets false s')
  end.

(** The text of [ln] after its first pipe, [ln] itself without one. *)
Definition afterSeparator (ln : string) : string :=
  match JSString.indexOf "|" ln with
  | Some separatorIndex => JSString.substringFrom (separatorIndex + 1) ln
  | None => ln
  end.

(** The local [caretContent] of [renderTemplate]. *)
Definition caretContent (warn : Diagnostic) : string :=
  match caretLine warn with
  | Some caret =>
      if JS.isEmpty caret then EmptyString
      else
        match JSString.indexOf "|" caret with
        | Some separatorIndex =>
            highlightCarets false
              (JSString.substringFrom (separatorIndex + 1) caret)
        | None => EmptyString
        end
  | None => EmptyString
  end.

(** The local [fixContent] of [renderTemplate]. *)
Definition fixContent (warn : Diagnostic) : string :=
  match fixSuggestion warn with
  | Some suggestion =>
      if JS.isEmpty suggestion then EmptyString
      else
        JS.join (String LF EmptyString)
                (map afterSeparator (JS.split LF suggestion))
  | None => EmptyString
  end.

End HtmlReporter.

(* ===================================================================== *)
(** ** Vocabulary for the properties of the line loop *)
(* ===================================================================== *)

Module Lines.
Import Regex TextParser.

(** The diagnostic that a line starts: the one pushed by the header
    branch of the loop, for a line that is not blank, matches the
    header pattern and has a valid severity. *)
Definition headerOf (ln : string) : option Diagnostic :=
  if JS.isEmpty (JS.trim ln) then None
  else
    match exec warningRegex ln with
    | Some warningMatch =>
        match validateSeverity
                (JS.toLowerCase (capture 4 warningMatch)) with
        | Some severity =>
            Some (mkDiagnostic (capture 1 warningMatch)
                               (JS.parseInt (capture 2 warningMatch))
                               (JS.parseInt (capture 3 warningMatch))
                               severity
                               (JS.trim (capture 5 warningMatch))
                               (capture 6 warningMatch) None None None)
        | None => None
        end
    | None => None
    end.

(** A caret or fix suggestion line as clang-tidy prints it: white
    space, a pipe, and the rest. *)
Definition detailLine (indent rest : string) : string :=
  indent +:+ "|" +:+ rest.

Definition isIndent (indent : string) : bool :=
  negb (JS.isEmpty indent) && JS.every JS.isWhiteSpace indent.

(** What holds of every diagnostic the parser returns. *)
Definition wellFormed (d : Diagnostic) : Prop :=
  In (severity d) validSeverities
  /\ isAbsolutePath (filePath d) = true
  /\ JS.nonNegative (line d) /\ JS.nonNegative (column d)
  /\ JS.trim (message d) = message d
  /\ noLineFeed (message d) = true
  /\ JS.includes "]" (checkName d) = false.

End Lines.

(* ===================================================================== *)
(** ** More sample inputs *)
(* ===================================================================== *)

Module Samples.
Import ProcessUtils.

(** Children that cannot be started. *)
Definition unstartable : Spawner :=
  mkSpawner (fun _ _ => 0%Z) (fun _ _ => [ErrorEvent "spawn ENOENT"]).

(** Children of which the one with index 1 never closes. *)
Definition hanging : Spawner :=
  mkSpawner (fun _ _ => 0%Z)
            (fun i t => if i =? 1 then [StdoutData "..."]
                        else [StdoutData (hd EmptyString (args t));
                              CloseEvent (Some 0%Z) 5%Z]).

(** A platform whose [path.extname] is the text from the last dot on,
    on file names without directory part. *)
Fixpoint lastDot (s : string) : option string :=
  match s with
  | EmptyString => None
  | String c s' =>
      match lastDot s' with
      | Some e => Some e
      | None => if JS.eqc c "." then Some s else None
      end
  end.

Definition flatPlatform : ClangTidyCommand.Platform :=
  ClangTidyCommand.mkPlatform
    (fun a b => a +:+ "/" +:+ b)
    (fun s => match lastDot s with Some e => e | None => EmptyString end)
    (fun _ => false)
    (Some "/w").

Definition plainConfiguration : ClangTidyCommand.Configuration :=
  ClangTidyCommand.mkConfiguration "*" "" "/w/build" [].

Definition plainOptions : ClangTidyCommand.RunOptions :=
  ClangTidyCommand.mkRunOptions (Some "*") (Some "") false (Some []).

Definition noteDiagnostic : TextParser.Diagnostic :=
  TextParser.mkDiagnostic "/p/g.cpp" (JS.Num 7) (JS.Num 1) "note"
                          "declared here" ""
                          None None None.

End Samples.

(* ===================================================================== *)
(** * Properties *)
(* ===================================================================== *)

(** ** executeCommand *)

Section ExecuteCommand.
Import ProcessUtils.

Lemma listen_data (t0 : Z) (pre rest : list ChildEvent) :
  Forall isData pre ->
  forall out err, exists out' err',
    listen t0 (pre ++ rest) out err = listen t0 rest out' err'
    /\ forall rest', listen t0 (pre ++ rest') out err
                     = listen t0 rest' out' err'.
Proof.
  induction 1 as [|e pre He _ IH]; intros out err.
  - exists out, err. split; [reflexivity | intros; reflexivity].
  - destruct e; simpl in He; try contradiction; simpl; apply IH.
Qed.

(** A settled promise comes from a first settling event after output
    chunks only. *)
Lemma listen_resolved (t0 : Z) (evs : list ChildEvent) :
  forall out err r,
    listen t0 evs out err = Resolved r ->
    exists pre code now rest,
      Forall isData pre /\ evs = pre ++ CloseEvent code now :: rest
      /\ ProcessUtils.exitCode r = orZero code.
Proof.
  induction evs as [|e evs IH]; intros out err r H; simpl in H.
  - discriminate.
  - destruct e as [chunk|chunk|code now|msg].
    + destruct (IH _ _ _ H) as (pre & code & now & rest & Hp & -> & Hc).
      exists (StdoutData chunk :: pre), code, now, rest.
      repeat split; [constructor; [exact I | exact Hp] | exact Hc].
    + destruct (IH _ _ _ H) as (pre & code & now & rest & Hp & -> & Hc).
      exists (StderrData chunk :: pre), code, now, rest.
      repeat split; [constructor; [exact I | exact Hp] | exact Hc].
    + injection H as <-. exists [], code, now, evs.
      repeat split. constructor.
    + discriminate.
Qed.

Lemma orZero_nonzero (code : option Z) :
  orZero code <> 0%Z -> exists n, code = Some n /\ n <> 0%Z /\ orZero code = n.
Proof.
  destruct code as [n|]; simpl; [|congruence].
  destruct (Z.eqb_spec n 0); [congruence|]. intros _. eauto.
Qed.

End ExecuteCommand.

(** C9. When the child closes with a null exit code, after any output
    chunks, executeCommand resolves with exitCode 0 and with the very
    result of a child that closed with exit code 0 at the same moment;
    and a resolved result has a non-zero exitCode only when the close
    event carried that non-zero number. *)
Theorem executeCommand_null_exit_code
  (t0 : Z) (evs : list ProcessUtils.ChildEvent) :
  (forall pre now rest,
      Forall ProcessUtils.isData pre ->
      evs = pre ++ ProcessUtils.CloseEvent None now :: rest ->
      exists r,
        ProcessUtils.executeCommand t0 evs = ProcessUtils.Resolved r
        /\ ProcessUtils.exitCode r = 0%Z
        /\ ProcessUtils.executeCommand t0
             (pre ++ ProcessUtils.CloseEvent (Some 0%Z) now :: rest)
           = ProcessUtils.Resolved r)
  /\ (forall r,
         ProcessUtils.executeCommand t0 evs = ProcessUtils.Resolved r ->
         ProcessUtils.exitCode r <> 0%Z ->
         exists pre n now rest,
           Forall ProcessUtils.isData pre
           /\ evs = pre ++ ProcessUtils.CloseEvent (Some n) now :: rest
           /\ n <> 0%Z /\ ProcessUtils.exitCode r = n).
Proof.
  split.
  - intros pre now rest Hpre ->. unfold ProcessUtils.executeCommand.
    destruct (listen_data t0 pre (ProcessUtils.CloseEvent None now :: rest)
                          Hpre EmptyString EmptyString)
      as (out & err & H1 & H2).
    rewrite H1, H2. simpl. eexists. repeat split.
  - intros r Hr Hne. unfold ProcessUtils.executeCommand in Hr.
    destruct (listen_resolved _ _ _ _ _ Hr)
      as (pre & code & now & rest & Hp & -> & Hc).
    rewrite Hc in Hne. destruct (orZero_nonzero _ Hne) as (n & -> & Hn & Hz).
    exists pre, n, now, rest. repeat split; try assumption. congruence.
Qed.

Lemma executeCommand_null_exit_code_witness :
  (exists r,
      ProcessUtils.executeCommand 3
        [ProcessUtils.StdoutData "warning"; ProcessUtils.CloseEvent None 10]
      = ProcessUtils.Resolved r
      /\ ProcessUtils.exitCode r = 0%Z
      /\ ProcessUtils.executeCommand 3
           [ProcessUtils.StdoutData "warning";
            ProcessUtils.CloseEvent (Some 0%Z) 10]
         = ProcessUtils.Resolved r).
Proof.
  apply (proj1 (executeCommand_null_exit_code 3
                  [ProcessUtils.StdoutData "warning";
                   ProcessUtils.CloseEvent None 10])
               [ProcessUtils.StdoutData "warning"] 10%Z []).
  - repeat constructor.
  - reflexivity.
Defined.

(** ** splitArray and the batches of runParallel *)

Section SplitArrayFacts.
Import ProcessUtils.
Context {T : Type}.

Lemma slice_from (array : list T) (i n : nat) :
  slice array i (i + n) = firstn n (skipn i array).
Proof. unfold slice. f_equal. lia. Qed.

(** From index [i] the loop appends [tail], which cuts the rest of the
    array into consecutive pieces of [batchSize] elements, the last one
    possibly shorter. *)
Lemma splitLoop_spec (array : list T) (batchSize : nat) :
  1 <= batchSize ->
  forall fuel i batches,
    List.length array - i <= fuel ->
    exists tail,
      splitLoop fuel array batchSize i batches = Some (batches ++ tail)
      /\ concat tail = skipn i array
      /\ (tail = [] <-> List.length array <= i)
      /\ Forall (fun b => b <> [] /\ List.length b <= batchSize) tail
      /\ (forall k b, S k < List.length tail -> tail !! k = Some b ->
                      List.length b = batchSize).
Proof.
  intros Hbs. induction fuel as [|fuel IH]; intros i batches Hfuel.
  - exists []. simpl. destruct (Nat.ltb_spec i (List.length array)); [lia|].
    rewrite app_nil_r.
    split; [reflexivity|]. split; [symmetry; apply skipn_all2; lia|].
    split; [split; [lia | reflexivity]|]. split; [constructor|].
    intros k b Hk. simpl in Hk. lia.
  - simpl. destruct (Nat.ltb_spec i (List.length array)) as [Hlt|Hge].
    + destruct (IH (i + batchSize)
                   (batches ++ [slice array i (i + batchSize)]))
        as (tail & Hrun & Hcat & Hnil & Hall & Hfull); [lia|].
      exists (slice array i (i + batchSize) :: tail).
      rewrite Hrun, <- app_assoc. simpl. rewrite slice_from.
      split; [reflexivity|]. split.
      { rewrite Hcat.
        rewrite <- (firstn_skipn batchSize (skipn i array)) at 2.
        f_equal. rewrite skipn_skipn. f_equal. lia. }
      split; [split; [discriminate | lia]|]. split.
      { constructor; [|exact Hall]. split.
        - intros Hempty. apply (f_equal (@List.length T)) in Hempty.
          rewrite length_firstn, length_skipn in Hempty.
          simpl in Hempty. lia.
        - rewrite length_firstn. lia. }
      intros k b Hk Hb. destruct k as [|k].
      * simpl in Hb. injection Hb as <-.
        rewrite length_firstn, length_skipn.
        destruct tail as [|b' tail']; [simpl in Hk; lia|].
        assert (~ List.length array <= i + batchSize).
        { intros Hle. apply Hnil in Hle. discriminate. }
        lia.
      * simpl in Hb. apply (Hfull k b); [simpl in Hk; lia | exact Hb].
    + exists []. rewrite app_nil_r.
      split; [reflexivity|]. split; [symmetry; apply skipn_all2; lia|].
      split; [split; [lia | reflexivity]|]. split; [constructor|].
      intros k b Hk. simpl in Hk. lia.
Qed.

Lemma splitArray_spec (array : list T) (batchSize : nat) :
  1 <= batchSize \/ array = [] ->
  exists batches,
    splitArray array batchSize = Some batches
    /\ concat batches = array
    /\ Forall (fun b => b <> [] /\ List.length b <= batchSize) batches
    /\ (forall k b, S k < List.length batches -> batches !! k = Some b ->
                    List.length b = batchSize).
Proof.
  intros [Hbs | ->].
  - destruct (splitLoop_spec array batchSize Hbs (List.length array) 0 [])
      as (tail & Hrun & Hcat & _ & Hall & Hfull); [lia|].
    exists tail. unfold splitArray. rewrite Hrun. simpl.
    repeat split; assumption.
  - exists []. split; [reflexivity|]. split; [reflexivity|].
    split; [constructor|]. intros k b Hk. simpl in Hk. lia.
Qed.

End SplitArrayFacts.

(** [Math.ceil(n / j)] is the least integer whose product with [j]
    reaches [n]. *)
Lemma batchSize_ceiling (n : nat) (j : Z) :
  (1 <= j)%Z ->
  (Z.of_nat n <= Z.of_nat (ClangTidyRunner.batchSize n j) * j
   < Z.of_nat n + j)%Z.
Proof.
  intros Hj. unfold ClangTidyRunner.batchSize.
  destruct j as [|pj|pj]; try lia.
  unfold Qceiling, Qfloor, Qdiv, Qinv, inject_Z, Qmult, Qopp. simpl.
  change (1 * pj)%positive with pj. rewrite Z.mul_1_r.
  set (N := Z.of_nat n).
  assert (HN : (0 <= N)%Z) by (subst N; lia).
  pose proof (Z.div_mod (- N) (Z.pos pj) ltac:(lia)) as Hdm.
  pose proof (Z.mod_pos_bound (- N) (Z.pos pj) ltac:(lia)) as Hmod.
  assert (Hq : (- N / Z.pos pj <= 0)%Z).
  { apply Z.div_le_upper_bound; lia. }
  rewrite Z2Nat.id by lia.
  nia.
Qed.

(** [getParallelJobs] gives a job count between 1 and 8. *)
Lemma getParallelJobs_range
      (cpus : Z) (setting : ClangTidyRunner.ParallelJobs) :
  (1 <= ClangTidyRunner.getParallelJobs cpus setting <= 8)%Q.
Proof.
  unfold ClangTidyRunner.getParallelJobs.
  set (jobs := match setting with
               | ClangTidyRunner.Auto => Qmin (inject_Z cpus) 8
               | ClangTidyRunner.Jobs jobs => jobs
               end).
  split; [apply Q.le_max_l|].
  apply Q.max_lub; [discriminate | apply Q.le_min_r].
Qed.

Lemma Qmin_inject_Z (a b : Z) :
  Qmin (inject_Z a) (inject_Z b) == inject_Z (Z.min a b).
Proof.
  destruct (Q.min_spec (inject_Z a) (inject_Z b)) as [[Hlt ->] | [Hle ->]].
  - rewrite <- Zlt_Qlt in Hlt. now rewrite Z.min_l by lia.
  - rewrite <- Zle_Qle in Hle. now rewrite Z.min_r by lia.
Qed.

Lemma Qmax_inject_Z (a b : Z) :
  Qmax (inject_Z a) (inject_Z b) == inject_Z (Z.max a b).
Proof.
  destruct (Q.max_spec (inject_Z a) (inject_Z b)) as [[Hlt ->] | [Hle ->]].
  - rewrite <- Zlt_Qlt in Hlt. now rewrite Z.max_r by lia.
  - rewrite <- Zle_Qle in Hle. now rewrite Z.max_l by lia.
Qed.

(** For ['auto'] and for an integer setting the job count is an
    integer. *)
Lemma getParallelJobs_integer
      (cpus : Z) (setting : ClangTidyRunner.ParallelJobs) :
  setting = ClangTidyRunner.Auto
  \/ (exists n, setting = ClangTidyRunner.Jobs (inject_Z n)) ->
  exists maxJobs,
    ClangTidyRunner.getParallelJobs cpus setting == inject_Z maxJobs
    /\ (1 <= maxJobs <= 8)%Z.
Proof.
  intros Hint. unfold ClangTidyRunner.getParallelJobs.
  assert (Hjobs : exists n,
             match setting with
             | ClangTidyRunner.Auto => Qmin (inject_Z cpus) 8
             | ClangTidyRunner.Jobs jobs => jobs
             end == inject_Z n).
  { destruct Hint as [-> | (n & ->)].
    - exists (Z.min cpus 8). apply (Qmin_inject_Z cpus 8).
    - exists n. reflexivity. }
  destruct Hjobs as (n & Hn). exists (Z.max 1 (Z.min n 8)).
  split; [|lia].
  rewrite Hn. change 8%Q with (inject_Z 8). rewrite Qmin_inject_Z.
  apply (Qmax_inject_Z 1 (Z.min n 8)).
Qed.

(** C2. For a job count of at least 1, the batches of runParallel exist,
    concatenate to the file list, are non-empty, and all but the last
    have exactly ceil(N/J) elements, the least integer whose product
    with J reaches N. *)
Theorem runParallel_batches_partition (files : list string) (maxJobs : Z) :
  (1 <= maxJobs)%Z ->
  let size := ClangTidyRunner.batchSize (List.length files) maxJobs in
  exists batches,
    ClangTidyRunner.makeBatches files maxJobs = Some batches
    /\ concat batches = files
    /\ (forall k b, S k < List.length batches -> batches !! k = Some b ->
                    List.length b = size)
    /\ Forall (fun b => b <> [] /\ List.length b <= size) batches
    /\ (Z.of_nat (List.length files) <= Z.of_nat size * maxJobs
        < Z.of_nat (List.length files) + maxJobs)%Z.
Proof.
  intros Hj size.
  pose proof (batchSize_ceiling (List.length files) maxJobs Hj) as Hceil.
  fold size in Hceil.
  destruct (splitArray_spec files size)
    as (batches & Hrun & Hcat & Hall & Hfull).
  { destruct files as [|f files]; [right; reflexivity | left].
    simpl List.length in Hceil. nia. }
  exists batches. unfold ClangTidyRunner.makeBatches. fold size.
  repeat split; try assumption; lia.
Qed.

Lemma runParallel_batches_partition_witness :
  (1 <= 2)%Z /\
  exists batches,
    ClangTidyRunner.makeBatches ["a.cpp"; "b.cpp"; "c.cpp"; "d.cpp"; "e.cpp"] 2
    = Some batches
    /\ concat batches = ["a.cpp"; "b.cpp"; "c.cpp"; "d.cpp"; "e.cpp"]
    /\ (forall k b, S k < List.length batches -> batches !! k = Some b ->
                    List.length b = 3)
    /\ Forall (fun b => b <> [] /\ List.length b <= 3) batches
    /\ (5 <= 3 * 2 < 5 + 2)%Z.
Proof.
  split; [lia|].
  apply (runParallel_batches_partition
           ["a.cpp"; "b.cpp"; "c.cpp"; "d.cpp"; "e.cpp"] 2).
  lia.
Defined.

(** ** The worker pool *)

Section Pool.
Import ProcessUtils.
Variable sp : Spawner.
Variable tasks : list Task.

Let exp (w : nat * Task) := pushed (invoke sp w).
Let poolInv := poolInv sp tasks.

Lemma poolInv_initial : poolInv (mkPool tasks [] [] 0 [] []).
Proof.
  constructor; simpl.
  - lia.
  - rewrite Nat.sub_diag. reflexivity.
  - rewrite Nat.sub_diag. reflexivity.
  - constructor.
  - rewrite Nat.sub_diag. reflexivity.
  - reflexivity.
Qed.

Lemma queue_head (p : Pool) (t : Task) (q : list Task) :
  poolInv p -> queue p = t :: q ->
  tasks !! (List.length tasks - List.length (queue p)) = Some t.
Proof.
  intros Hinv Hq. pose proof (inv_queue _ _ p Hinv) as Hd.
  set (k := (List.length tasks) - List.length (queue p)) in *.
  replace k with (k + 0) by lia. rewrite <- lookup_drop, <- Hd, Hq.
  reflexivity.
Qed.

Lemma executeNext_inv (p : Pool) :
  poolInv p -> poolInv (executeNext (List.length tasks) p).
Proof.
  intros Hinv. unfold executeNext.
  destruct (queue p) as [|t q] eqn:Hq; [exact Hinv|].
  pose proof (queue_head p t q Hinv Hq) as Hhead.
  destruct Hinv as [Hlen Hqueue Hperm Hfl Hst Hc].
  rewrite Hq in *. simpl List.length in *.
  assert (Hidx : List.length tasks - List.length q
                 = S (List.length tasks - S (List.length q)))
    by lia.
  constructor; simpl.
  - lia.
  - rewrite Hidx. rewrite (drop_S tasks t _ Hhead) in Hqueue.
    injection Hqueue as Hqueue. exact Hqueue.
  - rewrite Hidx. etransitivity; [|exact Hperm].
    unfold indexedFrom. simpl. rewrite map_app. simpl.
    rewrite <- !app_assoc. reflexivity.
  - apply Forall_app. split; [exact Hfl|]. repeat constructor. exact Hhead.
  - rewrite Hst, Hidx. rewrite seq_S. reflexivity.
  - exact Hc.
Qed.

Lemma executeNext_pending (p : Pool) :
  pending (executeNext (List.length tasks) p) = pending p.
Proof.
  unfold executeNext, pending.
  destruct (queue p) as [|t q] eqn:Hq; [rewrite Hq; reflexivity|].
  simpl. rewrite length_app. simpl. lia.
Qed.

(** A worker that has just looped leaves the queue empty or is itself
    suspended. *)
Lemma executeNext_busy (p : Pool) :
  inflight (executeNext (List.length tasks) p) = [] ->
  queue (executeNext (List.length tasks) p) = [].
Proof.
  unfold executeNext. destruct (queue p) as [|t q] eqn:Hq; simpl.
  - intros _. exact Hq.
  - intros H. destruct (inflight p); discriminate.
Qed.

Lemma startWorkers_inv (n : nat) (p : Pool) :
  poolInv p -> poolInv (startWorkers n (List.length tasks) p).
Proof.
  revert p. induction n as [|n IH]; intros p Hinv; simpl; [exact Hinv|].
  apply IH, executeNext_inv, Hinv.
Qed.

Lemma startWorkers_pending (n : nat) (p : Pool) :
  pending (startWorkers n (List.length tasks) p) = pending p.
Proof.
  revert p. induction n as [|n IH]; intros p; simpl; [reflexivity|].
  rewrite IH. apply executeNext_pending.
Qed.

Lemma startWorkers_busy (n : nat) (p : Pool) :
  1 <= n <= List.length (queue p) ->
  inflight (startWorkers n (List.length tasks) p) <> [].
Proof.
  revert p. induction n as [|n IH]; intros p Hn; [lia|]. simpl.
  destruct (queue p) as [|t q] eqn:Hq; [simpl in Hn; lia|].
  destruct n as [|n].
  - simpl. unfold executeNext. rewrite Hq. simpl.
    destruct (inflight p); discriminate.
  - apply IH. unfold executeNext. rewrite Hq. simpl. simpl in Hn. lia.
Qed.

Lemma resume_inv (p : Pool) (j : nat) (w : nat * Task) (r : ProcessResult) :
  poolInv p -> inflight p !! j = Some w -> exp w = Some r ->
  poolInv (resume (List.length tasks) j r p).
Proof.
  intros [Hlen Hqueue Hperm Hfl Hst Hc] Hj Hr. unfold resume.
  apply executeNext_inv. constructor; simpl; try assumption.
  - etransitivity; [|exact Hperm].
    assert (Hp : Permutation (map exp (inflight p))
                             (exp w :: map exp (delete j (inflight p)))).
    { change (exp w :: map exp (delete j (inflight p)))
        with (map exp (w :: delete j (inflight p))).
      apply Permutation_map, delete_Permutation. exact Hj. }
    change (fun w0 : nat * Task => pushed (invoke sp w0)) with exp.
    rewrite Hp, Hr, map_app, <- app_assoc. reflexivity.
  - apply Forall_delete. exact Hfl.
  - rewrite length_app. simpl. lia.
Qed.

Lemma resume_pending (p : Pool) (j : nat) (w : nat * Task)
      (r : ProcessResult) :
  inflight p !! j = Some w ->
  S (pending (resume (List.length tasks) j r p)) = pending p.
Proof.
  intros Hj. unfold resume. rewrite executeNext_pending. unfold pending.
  simpl. rewrite length_delete by (rewrite Hj; eauto).
  apply lookup_lt_Some in Hj. lia.
Qed.

Hypothesis settle : allSettle sp tasks.

Lemma inflight_settled (p : Pool) (j : nat) (w : nat * Task) :
  poolInv p -> inflight p !! j = Some w -> settled sp w = true.
Proof.
  intros Hinv Hj. pose proof (inv_inflight _ _ p Hinv) as Hfl.
  rewrite Forall_forall in Hfl.
  assert (Hin : w ∈ inflight p).
  { apply list_elem_of_lookup. eauto. }
  specialize (Hfl w Hin). destruct w as [i t]. apply settle. exact Hfl.
Qed.

Lemma filter_all {A : Type} (f : A -> bool) (l : list A) :
  (forall x, In x l -> f x = true) -> List.filter f l = l.
Proof.
  induction l as [|x l IH]; intros H; simpl; [reflexivity|].
  rewrite (H x) by (left; reflexivity). f_equal. apply IH.
  intros y Hy. apply H. right. exact Hy.
Qed.

Lemma readyWorkers_all (p : Pool) :
  poolInv p -> readyWorkers sp p = seq 0 (List.length (inflight p)).
Proof.
  intros Hinv. unfold readyWorkers. apply filter_all.
  intros j Hj. apply in_seq in Hj.
  destruct (lookup_lt_is_Some_2 (inflight p) j) as [w Hw]; [lia|].
  rewrite Hw. eapply inflight_settled; eassumption.
Qed.

(** When every child settles, the event loop ends with every worker
    ended and the queue drained. *)
Lemma eventLoop_complete (fuel : nat) :
  forall (schedule : list nat) (p : Pool),
    poolInv p ->
    (inflight p = [] -> queue p = []) ->
    pending p <= fuel ->
    exists p', eventLoop fuel sp (List.length tasks) schedule p = Some p'
               /\ poolInv p' /\ inflight p' = [] /\ queue p' = [].
Proof.
  induction fuel as [|fuel IH]; intros schedule p Hinv Hbusy Hfuel.
  - assert (Hnil : inflight p = []).
    { unfold pending in Hfuel. destruct (inflight p); [reflexivity|].
      simpl in Hfuel. lia. }
    exists p. simpl. rewrite Hnil. auto.
  - simpl. destruct (inflight p) as [|w0 ws] eqn:Hfl.
    + exists p. auto.
    + rewrite (readyWorkers_all p Hinv), Hfl.
      set (n := List.length (w0 :: ws)).
      set (c := hd 0 schedule mod List.length (seq 0 n)).
      assert (Hc : c < n).
      { subst c. rewrite length_seq. apply Nat.mod_upper_bound.
        subst n. simpl. lia. }
      rewrite (lookup_seq_lt 0 n c Hc). simpl.
      destruct (lookup_lt_is_Some_2 (w0 :: ws) c Hc) as [w Hw].
      rewrite Hw.
      assert (Hset : settled sp w = true).
      { apply (inflight_settled p c w Hinv). rewrite Hfl. exact Hw. }
      unfold settled in Hset.
      destruct (pushed (invoke sp w)) as [r|] eqn:Hr; [|discriminate].
      apply IH.
      * apply (resume_inv p c w r Hinv); [rewrite Hfl; exact Hw | exact Hr].
      * apply executeNext_busy.
      * pose proof (resume_pending p c w r) as Hp.
        rewrite Hfl in Hp. specialize (Hp Hw). lia.
Qed.

(** With at least one worker the pool settles, and every task was
    started and has pushed its result exactly once. *)
Lemma runPool_complete (maxWorkers : Z) (schedule : list nat) :
  (1 <= maxWorkers)%Z ->
  exists p,
    runPool sp tasks maxWorkers schedule = Some p
    /\ Permutation (map Some (results p)) (outcomes sp tasks)
    /\ started p = seq 0 (List.length tasks)
    /\ completedTasks p = List.length tasks.
Proof.
  intros Hw. unfold runPool.
  set (n := Z.to_nat (Z.min maxWorkers (Z.of_nat (List.length tasks)))).
  set (p0 := mkPool tasks [] [] 0 [] []).
  destruct (eventLoop_complete (List.length tasks) schedule
                               (startWorkers n (List.length tasks) p0))
    as (p & Hrun & Hinv & Hfl & Hq).
  - apply startWorkers_inv, poolInv_initial.
  - intros Hnil. destruct (Nat.eq_dec (List.length tasks) 0) as [Hz|Hnz].
    + replace n with 0 by (subst n; lia). simpl.
      apply nil_length_inv. exact Hz.
    + exfalso. revert Hnil. apply (startWorkers_busy n p0).
      subst n p0. simpl queue. lia.
  - rewrite startWorkers_pending. unfold pending. simpl. lia.
  - exists p. split; [exact Hrun|].
    destruct Hinv as [_ _ Hperm _ Hst Hc].
    rewrite Hfl, Hq in Hperm. simpl in Hperm. rewrite app_nil_r in Hperm.
    rewrite Hq in Hst. simpl in Hst. rewrite Nat.sub_0_r in Hst.
    split; [exact Hperm|]. split; [exact Hst|].
    rewrite Hc. apply Permutation_length in Hperm.
    rewrite length_map in Hperm. rewrite Hperm.
    unfold outcomes, indexedFrom.
    rewrite length_map, length_combine, length_seq. lia.
Qed.

End Pool.

(** Without a worker nothing is started and the result array is empty. *)
Lemma runPool_no_worker (sp : ProcessUtils.Spawner)
      (tasks : list ProcessUtils.Task) (maxWorkers : Z) (schedule : list nat) :
  (maxWorkers <= 0)%Z ->
  ProcessUtils.runPool sp tasks maxWorkers schedule
  = Some (ProcessUtils.mkPool tasks [] [] 0 [] []).
Proof.
  intros Hw. unfold ProcessUtils.runPool.
  replace (Z.to_nat (Z.min maxWorkers (Z.of_nat (List.length tasks))))
    with 0 by lia.
  simpl. destruct (List.length tasks); reflexivity.
Qed.

(** ** executeParallel *)

Lemma indexedFrom_lookup (l : list ProcessUtils.Task) :
  forall n i t, l !! i = Some t ->
                ProcessUtils.indexedFrom n l !! i = Some (n + i, t).
Proof.
  unfold ProcessUtils.indexedFrom.
  induction l as [|x l IH]; intros n i t Hi; [discriminate|].
  destruct i as [|i]; simpl in *.
  - injection Hi as ->. rewrite Nat.add_0_r. reflexivity.
  - rewrite (IH (S n) i t Hi). f_equal. f_equal. lia.
Qed.

Lemma outcomes_lookup (sp : ProcessUtils.Spawner)
      (tasks : list ProcessUtils.Task) (i : nat) (t : ProcessUtils.Task) :
  tasks !! i = Some t ->
  ProcessUtils.outcomes sp tasks !! i
  = Some (ProcessUtils.pushed (ProcessUtils.invoke sp (i, t))).
Proof.
  intros Hi. unfold ProcessUtils.outcomes.
  change (map ?f ?l) with (f <$> l). rewrite list_lookup_fmap.
  rewrite (indexedFrom_lookup tasks 0 i t Hi). reflexivity.
Qed.

(** A task's pushed result is in the array the pool resolves with. *)
Lemma pushed_in_results (sp : ProcessUtils.Spawner)
      (tasks : list ProcessUtils.Task) (rs : list ProcessUtils.ProcessResult)
      (i : nat) (t : ProcessUtils.Task) (r : ProcessUtils.ProcessResult) :
  Permutation (map Some rs) (ProcessUtils.outcomes sp tasks) ->
  tasks !! i = Some t ->
  ProcessUtils.pushed (ProcessUtils.invoke sp (i, t)) = Some r ->
  In r rs.
Proof.
  intros Hperm Hi Hr.
  assert (Hin : In (Some r) (map Some rs)).
  { eapply Permutation_in; [symmetry; exact Hperm|].
    apply list_elem_of_In, list_elem_of_lookup. exists i.
    rewrite (outcomes_lookup sp tasks i t Hi), Hr. reflexivity. }
  apply in_map_iff in Hin. destruct Hin as (r' & Heq & Hin).
  injection Heq as ->. exact Hin.
Qed.

(** C1 (the code departs from it). With two workers, when the child of
    the second task closes first, the result array holds the second
    task's result at index 0: results are pushed in completion order.
    runParallel then pairs the output of the second batch with the
    files of the first. *)
Theorem executeParallel_completion_order :
  ProcessUtils.executeParallel Examples.echo
    [Examples.taskA; Examples.taskB] 2 [1]
  = Some [Examples.resultB; Examples.resultA]
  /\ ProcessUtils.outcomes Examples.echo [Examples.taskA; Examples.taskB]
     = [Some Examples.resultA; Some Examples.resultB]
  /\ ClangTidyRunner.runParallel Examples.plainRunner Examples.echo 2 [1]
       ["a.cpp"; "b.cpp"]
     = Some [ClangTidyRunner.mkParallelResult "b.cpp" "" 0 5 (Some ["a.cpp"]);
             ClangTidyRunner.mkParallelResult "a.cpp" "" 0 5 (Some ["b.cpp"])].
Proof. repeat split; reflexivity. Qed.

(** C3. When every child settles, the pool resolves.  If the invocation
    of a started task rejects, the result array holds for it the result
    with exit code 1, empty stdout and the error message as stderr; and
    every task was started and has its own result in the array, each
    exactly once. *)
Theorem executeParallel_failure_isolation
  (sp : ProcessUtils.Spawner) (tasks : list ProcessUtils.Task)
  (maxWorkers : Z) (schedule : list nat) :
  ProcessUtils.allSettle sp tasks ->
  exists p,
    ProcessUtils.runPool sp tasks maxWorkers schedule = Some p
    /\ ProcessUtils.executeParallel sp tasks maxWorkers schedule
       = Some (ProcessUtils.results p)
    /\ forall i t msg,
        In i (ProcessUtils.started p) ->
        tasks !! i = Some t ->
        ProcessUtils.invoke sp (i, t) = ProcessUtils.Rejected msg ->
        In (ProcessUtils.mkProcessResult EmptyString msg 1 0)
           (ProcessUtils.results p)
        /\ ProcessUtils.started p = seq 0 (List.length tasks)
        /\ ProcessUtils.completedTasks p = List.length tasks
        /\ Permutation (map Some (ProcessUtils.results p))
                       (ProcessUtils.outcomes sp tasks)
        /\ forall j t' r,
            tasks !! j = Some t' ->
            ProcessUtils.pushed (ProcessUtils.invoke sp (j, t')) = Some r ->
            In r (ProcessUtils.results p).
Proof.
  intros Hsettle. destruct (Z_lt_le_dec maxWorkers 1) as [Hw|Hw].
  - exists (ProcessUtils.mkPool tasks [] [] 0 [] []).
    unfold ProcessUtils.executeParallel.
    rewrite runPool_no_worker by lia. split; [reflexivity|].
    split; [reflexivity|]. intros i t msg Hin. destruct Hin.
  - destruct (runPool_complete sp tasks Hsettle maxWorkers schedule Hw)
      as (p & Hrun & Hperm & Hst & Hc).
    exists p. unfold ProcessUtils.executeParallel. rewrite Hrun.
    split; [reflexivity|]. split; [reflexivity|].
    intros i t msg _ Hi Hrej. split.
    { apply (pushed_in_results sp tasks _ i t); [exact Hperm | exact Hi|].
      rewrite Hrej. reflexivity. }
    repeat split; try assumption.
    intros j t' r Hj Hr.
    exact (pushed_in_results sp tasks _ j t' r Hperm Hj Hr).
Qed.

Lemma executeParallel_failure_isolation_witness :
  ProcessUtils.allSettle Examples.echo
    [Examples.taskA; Examples.taskMissing; Examples.taskB]
  /\ exists p,
    ProcessUtils.runPool Examples.echo
      [Examples.taskA; Examples.taskMissing; Examples.taskB] 2 [1; 0; 0]
    = Some p
    /\ In (ProcessUtils.mkProcessResult EmptyString "spawn missing ENOENT" 1 0)
          (ProcessUtils.results p)
    /\ In Examples.resultA (ProcessUtils.results p)
    /\ In Examples.resultB (ProcessUtils.results p).
Proof.
  assert (Hsettle : ProcessUtils.allSettle Examples.echo
            [Examples.taskA; Examples.taskMissing; Examples.taskB]).
  { intros i t Hi.
    destruct i as [|[|[|i]]]; simpl in Hi; try discriminate;
      injection Hi as <-; reflexivity. }
  split; [exact Hsettle|].
  destruct (executeParallel_failure_isolation Examples.echo
              [Examples.taskA; Examples.taskMissing; Examples.taskB]
              2 [1; 0; 0] Hsettle) as (p & Hrun & _ & H).
  exists p. split; [exact Hrun|].
  assert (Hst : In 1 (ProcessUtils.started p)).
  { vm_compute in Hrun. injection Hrun as <-. simpl. auto. }
  destruct (H 1 Examples.taskMissing "spawn missing ENOENT" Hst
              eq_refl eq_refl) as (Hfail & _ & _ & _ & Hall).
  split; [exact Hfail|]. split.
  - apply (Hall 0 Examples.taskA); reflexivity.
  - apply (Hall 2 Examples.taskB); reflexivity.
Defined.

(** ** The matcher on concatenated input *)

Section RegexFacts.
Import Regex.

Lemma append_cons (a : ascii) (s t : string) :
  String a s +:+ t = String a (s +:+ t).
Proof. reflexivity. Qed.

Lemma append_nil_l (t : string) : EmptyString +:+ t = t.
Proof. reflexivity. Qed.

Lemma append_nil_r (s : string) : s +:+ EmptyString = s.
Proof.
  induction s as [|a s IH]; [reflexivity|].
  rewrite append_cons, IH. reflexivity.
Qed.

Lemma append_assoc (a b c : string) : (a +:+ b) +:+ c = a +:+ b +:+ c.
Proof.
  induction a as [|x a IH]; [reflexivity|].
  rewrite !append_cons, IH. reflexivity.
Qed.

Lemma length_append (a b : string) :
  String.length (a +:+ b) = String.length a + String.length b.
Proof.
  induction a as [|x a IH]; [reflexivity|].
  rewrite append_cons. simpl. rewrite IH. reflexivity.
Qed.

Lemma substring_prefix (m rest : string) :
  String.substring 0 (String.length m) (m +:+ rest) = m.
Proof.
  induction m as [|x m IH].
  - rewrite append_nil_l. destruct rest; reflexivity.
  - rewrite append_cons. simpl. rewrite IH. reflexivity.
Qed.

Lemma consumed_append (m rest : string) : consumed (m +:+ rest) rest = m.
Proof.
  unfold consumed. rewrite length_append.
  replace (String.length m + String.length rest - String.length rest)
    with (String.length m) by lia.
  apply substring_prefix.
Qed.

Lemma headIn_append (p : ascii -> bool) (m rest : string) :
  m <> EmptyString -> JS.headIn p (m +:+ rest) = JS.headIn p m.
Proof. destruct m; [congruence | reflexivity]. Qed.

Lemma run_Seq (r1 r2 : regex) (s : string) (c : captures) (k : cont) :
  run (Seq r1 r2) s c k = run r1 s c (fun s' c' => run r2 s' c' k).
Proof. reflexivity. Qed.

Lemma run_Cap (i : nat) (r : regex) (s : string) (c : captures) (k : cont) :
  run (Cap i r) s c k
  = run r s c (fun s' c' => k s' ((i, consumed s s') :: c')).
Proof. reflexivity. Qed.

Lemma run_Opt (r : regex) (s : string) (c : captures) (k : cont) :
  run (Opt r) s c k
  = match run r s c k with Some res => Some res | None => k s c end.
Proof. reflexivity. Qed.

Lemma run_Cls_cons (p : ascii -> bool) (x : ascii) (s : string)
      (c : captures) (k : cont) :
  run (Cls p) (String x s) c k = if p x then k s c else None.
Proof. reflexivity. Qed.

Lemma run_Plus_cons (p : ascii -> bool) (x : ascii) (s : string)
      (c : captures) (k : cont) :
  run (Plus p) (String x s) c k = if p x then starGreedy p s c k else None.
Proof. reflexivity. Qed.

Lemma run_PlusLazy_cons (p : ascii -> bool) (x : ascii) (s : string)
      (c : captures) (k : cont) :
  run (PlusLazy p) (String x s) c k
  = if p x then starLazy p s c k else None.
Proof. reflexivity. Qed.

Lemma run_Eol_cons (x : ascii) (s : string) (c : captures) (k : cont) :
  run Eol (String x s) c k = None.
Proof. reflexivity. Qed.

Lemma run_chr (a : ascii) (s : string) (c : captures) (k : cont) :
  run (chr a) (String a s) c k = k s c.
Proof. simpl. unfold JS.eqc. now rewrite Ascii.eqb_refl. Qed.

(** A greedy run over [m], when the continuation accepts what follows
    and the class stops there. *)
Lemma starGreedy_append (p : ascii -> bool) (m rest : string)
      (c : captures) (k : cont) (res : captures) :
  JS.every p m = true -> JS.headIn p rest = false ->
  k rest c = Some res ->
  starGreedy p (m +:+ rest) c k = Some res.
Proof.
  intros Hm Hrest Hk. induction m as [|x m IH].
  - rewrite append_nil_l.
    destruct rest as [|y rest]; simpl in *; [exact Hk|].
    rewrite Hrest. exact Hk.
  - rewrite append_cons. simpl in *.
    apply andb_prop in Hm. destruct Hm as [Hx Hm].
    rewrite Hx, (IH Hm). reflexivity.
Qed.

Lemma run_Plus_append (p : ascii -> bool) (m rest : string)
      (c : captures) (k : cont) (res : captures) :
  m <> EmptyString -> JS.every p m = true -> JS.headIn p rest = false ->
  k rest c = Some res ->
  run (Plus p) (m +:+ rest) c k = Some res.
Proof.
  intros Hne Hm Hrest Hk. destruct m as [|x m]; [congruence|].
  rewrite append_cons. simpl in *.
  apply andb_prop in Hm. destruct Hm as [Hx Hm].
  rewrite Hx. apply starGreedy_append; assumption.
Qed.

Lemma run_Cap_Plus_append (i : nat) (p : ascii -> bool) (m rest : string)
      (c : captures) (k : cont) (res : captures) :
  m <> EmptyString -> JS.every p m = true -> JS.headIn p rest = false ->
  k rest ((i, m) :: c) = Some res ->
  run (Cap i (Plus p)) (m +:+ rest) c k = Some res.
Proof.
  intros Hne Hm Hrest Hk. rewrite run_Cap.
  apply run_Plus_append; try assumption.
  rewrite consumed_append. exact Hk.
Qed.

Lemma repeatN_append (p : ascii -> bool) (m rest : string)
      (c : captures) (k : cont) :
  JS.every p m = true ->
  repeatN (String.length m) p (m +:+ rest) c k = k rest c.
Proof.
  intros Hm. induction m as [|x m IH]; [reflexivity|].
  rewrite append_cons. simpl in *.
  apply andb_prop in Hm. destruct Hm as [Hx Hm]. rewrite Hx. now apply IH.
Qed.

(** A lazy run stops at the first suffix the continuation accepts. *)
Lemma starLazy_append (p : ascii -> bool) (m rest : string)
      (c : captures) (k : cont) (res : captures) :
  JS.every p m = true ->
  (forall m1 m2, m = m1 +:+ m2 -> m2 <> EmptyString ->
                 k (m2 +:+ rest) c = None) ->
  k rest c = Some res ->
  starLazy p (m +:+ rest) c k = Some res.
Proof.
  intros Hm Hfail Hk. induction m as [|x m IH].
  - rewrite append_nil_l. destruct rest; simpl; now rewrite Hk.
  - assert (Hhere : k (String x m +:+ rest) c = None).
    { apply (Hfail EmptyString (String x m)); [reflexivity | discriminate]. }
    rewrite append_cons in *. simpl. rewrite Hhere.
    simpl in Hm. apply andb_prop in Hm. destruct Hm as [Hx Hm].
    rewrite Hx. apply IH; [exact Hm|].
    intros m1 m2 -> Hne.
    apply (Hfail (String x m1) m2); [reflexivity|exact Hne].
Qed.

End RegexFacts.

(** ** Character classes *)

Section Classes.

Lemma eqc_eq (a b : ascii) : JS.eqc a b = true -> a = b.
Proof. unfold JS.eqc. apply Ascii.eqb_eq. Qed.

Lemma separator_not_alpha (a : ascii) :
  TextParser.isSeparator a = true -> JS.isAlpha a = false.
Proof.
  unfold TextParser.isSeparator. intros H. apply orb_prop in H.
  destruct H as [H|H]; apply eqc_eq in H; subst a; reflexivity.
Qed.

Lemma whitespace_cases (a : ascii) :
  JS.isWhiteSpace a = true ->
  JS.isAlpha a = false /\ TextParser.isSeparator a = false
  /\ JS.isDigit a = false /\ JS.eqc "[" a = false /\ JS.eqc a "[" = false
  /\ JS.eqc "|" a = false.
Proof.
  destruct a as [[] [] [] [] [] [] [] []]; vm_compute; intros H;
    try discriminate H; repeat split.
Qed.

Lemma alpha_not_whitespace (a : ascii) :
  JS.isAlpha a = true -> JS.isWhiteSpace a = false.
Proof.
  intros H. destruct (JS.isWhiteSpace a) eqn:Hw; [|reflexivity].
  apply whitespace_cases in Hw. destruct Hw as [Hw _]. congruence.
Qed.

Lemma digit_not_whitespace (a : ascii) :
  JS.isDigit a = true -> JS.isWhiteSpace a = false.
Proof.
  intros H. destruct (JS.isWhiteSpace a) eqn:Hw; [|reflexivity].
  apply whitespace_cases in Hw. destruct Hw as (_ & _ & Hw & _). congruence.
Qed.

End Classes.

(** ** trim *)

Section Trim.

Lemma trimStart_length (s : string) :
  String.length (JS.trimStart s) <= String.length s.
Proof.
  induction s as [|a s IH]; simpl; [lia|].
  destruct (JS.isWhiteSpace a); simpl; lia.
Qed.

Lemma trimEnd_length (s : string) :
  String.length (JS.trimEnd s) <= String.length s.
Proof.
  induction s as [|a s IH]; simpl; [lia|].
  destruct (JS.isWhiteSpace a && JS.isEmpty (JS.trimEnd s)); simpl; lia.
Qed.

Lemma trimEnd_fixed (s : string) :
  JS.trimEnd s = s -> s <> EmptyString -> TextParser.lastNonWs s = true.
Proof.
  induction s as [|a s IH]; intros Hfix Hne; [congruence|].
  simpl in Hfix.
  destruct (JS.isWhiteSpace a && JS.isEmpty (JS.trimEnd s)) eqn:Hc;
    [discriminate|].
  injection Hfix as Hfix. simpl. destruct s as [|b s].
  - simpl in Hc. rewrite andb_true_r in Hc. now rewrite Hc.
  - apply IH; [exact Hfix | discriminate].
Qed.

(** A non-empty text that [trim] leaves unchanged starts and ends with
    a character that is not white space. *)
Lemma trim_fixed (s : string) :
  JS.trim s = s -> s <> EmptyString ->
  JS.headIn JS.isWhiteSpace s = false /\ TextParser.lastNonWs s = true.
Proof.
  intros Hfix Hne. unfold JS.trim in Hfix.
  assert (Hhead : JS.headIn JS.isWhiteSpace s = false).
  { destruct s as [|a s]; [reflexivity|]. simpl.
    destruct (JS.isWhiteSpace a) eqn:Hw; [|reflexivity]. exfalso.
    apply (f_equal String.length) in Hfix. simpl in Hfix. rewrite Hw in Hfix.
    pose proof (trimEnd_length (JS.trimStart s)).
    pose proof (trimStart_length s). lia. }
  split; [exact Hhead|].
  assert (Hstart : JS.trimStart s = s).
  { destruct s as [|a s]; [reflexivity|]. simpl in *. now rewrite Hhead. }
  rewrite Hstart in Hfix. apply trimEnd_fixed; assumption.
Qed.

Lemma trimEnd_nonblank (a : ascii) (s : string) :
  JS.isWhiteSpace a = false -> JS.isEmpty (JS.trimEnd (String a s)) = false.
Proof. intros Hw. simpl. rewrite Hw. reflexivity. Qed.

(** [trim] gives the empty string exactly on white space. *)
Lemma trim_blank (s : string) :
  JS.isEmpty (JS.trim s) = JS.every JS.isWhiteSpace s.
Proof.
  unfold JS.trim. induction s as [|a s IH]; [reflexivity|].
  simpl JS.trimStart. simpl JS.every.
  destruct (JS.isWhiteSpace a) eqn:Hw; [exact IH|].
  now rewrite trimEnd_nonblank.
Qed.

Lemma lastNonWs_suffix (a : ascii) (s : string) :
  TextParser.lastNonWs (String a s) = true -> s <> EmptyString ->
  TextParser.lastNonWs s = true.
Proof. destruct s; [congruence | intros H _; exact H]. Qed.

Lemma lastNonWs_after_whitespace (a : ascii) (s : string) :
  TextParser.lastNonWs (String a s) = true -> JS.isWhiteSpace a = true ->
  s <> EmptyString /\ TextParser.lastNonWs s = true.
Proof.
  intros H Hw. destruct s as [|b s].
  - simpl in H. rewrite Hw in H. discriminate.
  - split; [discriminate | exact H].
Qed.

End Trim.

(** ** The rule group cannot start inside a well-bracketed message *)

Section RuleGroup.
Import Regex TextParser.
#[local] Open Scope regex_scope.

Variable kf : cont.

(** The continuation of the optional group: [$]. *)
Let atEnd : cont := fun s c => run Eol s c kf.

(** After the white space of the group: [\[([^\]]+)\]] and [$]. *)
Let bracket : cont :=
  fun s c =>
    run (chr "[" &> Cap 6 (Plus (notIn ["]"%char])) &> chr "]") s c atEnd.

Lemma star_rule_open (k : cont) (r tail : string) (c : captures) :
  closing k -> closesBeforeEnd r = true ->
  starGreedy (notIn ["]"%char]) (r +:+ tail) c k = None.
Proof.
  intros [Hother Hmore]. induction r as [|x r IH]; intros Hr; [discriminate|].
  rewrite append_cons. simpl in Hr. simpl starGreedy.
  unfold notIn at 1. simpl existsb. rewrite orb_false_r.
  destruct (JS.eqc x "]") eqn:Hx; simpl negb; cbv iota.
  - apply eqc_eq in Hx. subst x.
    destruct r as [|y r]; [discriminate|]. rewrite append_cons. apply Hmore.
  - rewrite (IH Hr). apply Hother. simpl.
    destruct (JS.eqc "]" x) eqn:Hx'; [|reflexivity].
    apply eqc_eq in Hx'. subst x. discriminate.
Qed.

Lemma closing_bracket (rest0 : string) :
  closing (fun s' c' =>
             run (chr "]") s' ((6, consumed rest0 s') :: c') atEnd).
Proof.
  split.
  - intros s c Hs. destruct s as [|x s]; [reflexivity|].
    simpl in *. now rewrite Hs.
  - intros y t c. rewrite run_chr. reflexivity.
Qed.

Lemma bracket_open (r tail : string) (c : captures) :
  closesBeforeEnd r = true -> bracket (String "[" (r +:+ tail)) c = None.
Proof.
  intros Hr. unfold bracket. rewrite run_Seq, run_chr, run_Seq, run_Cap.
  destruct r as [|x r]; [discriminate|].
  rewrite append_cons. simpl run at 1. simpl in Hr.
  unfold notIn at 1. simpl existsb. rewrite orb_false_r.
  destruct (JS.eqc x "]") eqn:Hx; simpl negb; cbv iota; [reflexivity|].
  apply star_rule_open; [apply closing_bracket | exact Hr].
Qed.

Lemma bracket_other (b : ascii) (s : string) (c : captures) :
  JS.eqc b "[" = false -> bracket (String b s) c = None.
Proof.
  intros Hb. unfold bracket. simpl.
  destruct (JS.eqc "[" b) eqn:Hb'; [|reflexivity].
  apply eqc_eq in Hb'. subst b. discriminate.
Qed.

Lemma bracketsClosed_cons (a b : ascii) (rest : string) :
  bracketsClosed (String a (String b rest))
  = (if JS.isWhiteSpace a && JS.eqc b "[" then closesBeforeEnd rest
     else true)
    && bracketsClosed (String b rest).
Proof. reflexivity. Qed.

(** From inside a run of white space of a well-bracketed text that
    does not end in white space, no continuation position opens a
    rule group. *)
Lemma star_whitespace_blocked (s tail : string) (c : captures) :
  forall a,
    JS.isWhiteSpace a = true ->
    lastNonWs (String a s) = true ->
    bracketsClosed (String a s) = true ->
    starGreedy JS.isWhiteSpace (s +:+ tail) c bracket = None.
Proof.
  induction s as [|b s IH]; intros a Ha Hlast Hclosed.
  - simpl in Hlast. rewrite Ha in Hlast. discriminate.
  - rewrite append_cons. simpl starGreedy.
    rewrite bracketsClosed_cons, Ha in Hclosed.
    apply andb_prop in Hclosed. destruct Hclosed as [Hopen Hclosed].
    destruct (JS.isWhiteSpace b) eqn:Hb.
    + rewrite (IH b Hb Hlast Hclosed).
      apply bracket_other. apply whitespace_cases in Hb. tauto.
    + destruct (JS.eqc b "[") eqn:Hbr.
      * apply eqc_eq in Hbr. subst b. simpl in Hopen.
        apply bracket_open. exact Hopen.
      * apply bracket_other. exact Hbr.
Qed.

(** At a non-empty tail of such a message, followed by anything, the
    optional group and [$] both fail. *)
Lemma tail_blocked (m tail : string) (c : captures) :
  m <> EmptyString -> lastNonWs m = true -> bracketsClosed m = true ->
  run (Opt ruleGroup &> Eol) (m +:+ tail) c kf = None.
Proof.
  intros Hne Hlast Hclosed. destruct m as [|a m]; [congruence|].
  rewrite append_cons, run_Seq, run_Opt. cbv beta. rewrite run_Eol_cons.
  unfold ruleGroup. rewrite run_Seq.
  change (fun s' c' => run (chr "[" &> Cap 6 (Plus (notIn ["]"%char]))
                            &> chr "]") s' c'
                           (fun s'0 c'0 => run Eol s'0 c'0 kf))
    with bracket.
  rewrite run_Plus_cons. destruct (JS.isWhiteSpace a) eqn:Ha; [|reflexivity].
  now rewrite (star_whitespace_blocked m tail c a Ha Hlast Hclosed).
Qed.

Lemma tail_rule (rule : string) (c res : captures) :
  isRule rule = true ->
  kf EmptyString ((6, rule) :: c) = Some res ->
  run (Opt ruleGroup &> Eol) (" [" +:+ rule +:+ "]") c kf = Some res.
Proof.
  intros Hrule Hk. unfold isRule in Hrule. apply andb_prop in Hrule.
  destruct Hrule as [Hne Hall].
  assert (Hne' : rule <> EmptyString)
    by (destruct rule; [discriminate|congruence]).
  assert (Hall' : JS.every (notIn ["]"%char]) rule = true).
  { clear Hne Hne' Hk. induction rule as [|x r IH]; [reflexivity|].
    simpl in *. apply andb_prop in Hall. destruct Hall as [Hx Hr].
    rewrite (IH Hr), andb_true_r. unfold notIn in *. simpl in *.
    destruct (JS.eqc x "]"); [discriminate | reflexivity]. }
  rewrite run_Seq, run_Opt. unfold ruleGroup.
  assert (Hgo : run (Plus JS.isWhiteSpace &> chr "["
                      &> Cap 6 (Plus (notIn ["]"%char])) &> chr "]")
                    (" [" +:+ rule +:+ "]") c
                    (fun s' c' => run Eol s' c' kf) = Some res).
  { rewrite run_Seq.
    apply (run_Plus_append JS.isWhiteSpace " " ("[" +:+ rule +:+ "]"));
      [discriminate | reflexivity | reflexivity |].
    cbv beta. rewrite !append_cons, append_nil_l, run_Seq, run_chr.
    cbv beta. rewrite run_Seq.
    apply run_Cap_Plus_append; [exact Hne' | exact Hall' | reflexivity|].
    cbv beta. rewrite run_chr. exact Hk. }
  rewrite Hgo. reflexivity.
Qed.

Lemma tail_empty (c : captures) :
  run (Opt ruleGroup &> Eol) EmptyString c kf = kf EmptyString c.
Proof. reflexivity. Qed.

End RuleGroup.

(** ** The header pattern on a header line *)

Section HeaderMatch.
Import Regex TextParser.
#[local] Open Scope regex_scope.

Lemma isPathBody_spec (s : string) :
  isPathBody s = true -> s <> EmptyString /\ JS.every pathChar s = true.
Proof.
  unfold isPathBody. intros H. apply andb_prop in H. destruct H as [Hne H].
  split; [destruct s; [discriminate | congruence] | exact H].
Qed.

Lemma isNumber_spec (s : string) :
  isNumber s = true -> s <> EmptyString /\ JS.every JS.isDigit s = true.
Proof.
  unfold isNumber. intros H. apply andb_prop in H. destruct H as [Hne H].
  split; [destruct s; [discriminate | congruence] | exact H].
Qed.

Lemma isMessage_spec (s : string) :
  isMessage s = true ->
  s <> EmptyString /\ JS.every (notIn [LF]) s = true /\ JS.trim s = s.
Proof.
  unfold isMessage. intros H. apply andb_prop in H. destruct H as [H Htrim].
  apply andb_prop in H. destruct H as [Hne H].
  split; [destruct s; [discriminate | congruence]|].
  split; [exact H | apply String.eqb_eq; exact Htrim].
Qed.

(** Group 1 on a path followed by a colon. *)
Lemma run_path (path rest : string) (c : captures) (k : cont)
      (res : captures) :
  isAbsolutePath path = true -> JS.headIn pathChar rest = false ->
  k rest ((1, path) :: c) = Some res ->
  run (Cap 1 (Opt (Cls JS.isAlpha &> chr ":") &> Cls isSeparator
              &> Plus pathChar))
      (path +:+ rest) c k = Some res.
Proof.
  intros Hpath Hrest Hk. rewrite run_Cap, run_Seq, run_Opt.
  set (k1 := fun (s' : string) (c' : captures) =>
               k s' ((1, consumed (path +:+ rest) s') :: c')).
  assert (Hk1 : k1 rest c = Some res).
  { subst k1. cbv beta. rewrite consumed_append. exact Hk. }
  clearbody k1.
  assert (Hbody : forall a body,
             isSeparator a = true -> isPathBody body = true ->
             run (Cls isSeparator &> Plus pathChar)
                 (String a (body +:+ rest)) c k1 = Some res).
  { intros a body Ha Hb. apply isPathBody_spec in Hb.
    destruct Hb as [Hne Hall].
    rewrite run_Seq, run_Cls_cons, Ha.
    apply run_Plus_append; assumption. }
  destruct path as [|a p1]; [discriminate|].
  simpl isAbsolutePath in Hpath. destruct (isSeparator a) eqn:Hs.
  - rewrite append_cons, run_Seq, run_Cls_cons, (separator_not_alpha a Hs).
    apply (Hbody a p1 Hs Hpath).
  - destruct p1 as [|b [|c0 body]]; try discriminate.
    apply andb_prop in Hpath. destruct Hpath as [Hpath Hb].
    apply andb_prop in Hpath. destruct Hpath as [Hpath Hc0].
    apply andb_prop in Hpath. destruct Hpath as [Ha Hcolon].
    apply eqc_eq in Hcolon. subst b.
    rewrite !append_cons, run_Seq, run_Cls_cons, Ha, run_chr.
    rewrite (Hbody c0 body Hc0 Hb). reflexivity.
Qed.

Lemma lastNonWs_append (m1 m2 : string) :
  lastNonWs (m1 +:+ m2) = true -> m2 <> EmptyString -> lastNonWs m2 = true.
Proof.
  intros H Hne. induction m1 as [|a m1 IH]; [exact H|].
  rewrite append_cons in H. apply IH.
  apply (lastNonWs_suffix a); [exact H|].
  destruct m1; [exact Hne | discriminate].
Qed.

Lemma bracketsClosed_append (m1 m2 : string) :
  bracketsClosed (m1 +:+ m2) = true -> bracketsClosed m2 = true.
Proof.
  intros H. induction m1 as [|a m1 IH]; [exact H|].
  rewrite append_cons in H. apply IH.
  destruct (m1 +:+ m2) as [|b rest]; [reflexivity|].
  rewrite bracketsClosed_cons in H. apply andb_prop in H. tauto.
Qed.

(** Group 5, the optional rule group and [$] on a message followed by
    its rule suffix, or by nothing. *)
Lemma run_message (msg : string) (rule : option string) (c : captures) :
  isMessage msg = true -> bracketsClosed msg = true ->
  match rule with Some r => isRule r = true | None => True end ->
  run (Cap 5 (PlusLazy (notIn [LF])) &> Opt ruleGroup &> Eol)
      (msg +:+ match rule with
               | Some r => " [" +:+ r +:+ "]"
               | None => EmptyString
               end)
      c (fun _ c' => Some c')
  = Some (match rule with Some r => [(6, r)] | None => [] end
          ++ (5, msg) :: c).
Proof.
  intros Hmsg Hclosed Hrule. apply isMessage_spec in Hmsg.
  destruct Hmsg as (Hne & Hall & Htrim).
  destruct (trim_fixed msg Htrim Hne) as [_ Hlast].
  set (suffix := match rule with
                 | Some r => " [" +:+ r +:+ "]"
                 | None => EmptyString
                 end).
  rewrite run_Seq, run_Cap.
  set (k5 := fun (s' : string) (c' : captures) =>
               run (Opt ruleGroup &> Eol) s'
                   ((5, consumed (msg +:+ suffix) s') :: c')
                   (fun _ c'0 => Some c'0)).
  assert (Hend : k5 suffix c
                 = Some (match rule with Some r => [(6, r)] | None => [] end
                         ++ (5, msg) :: c)).
  { subst k5. cbv beta. rewrite consumed_append. subst suffix.
    destruct rule as [r|]; [apply tail_rule; [exact Hrule | reflexivity]|].
    reflexivity. }
  assert (Hblocked : forall m1 m2 c0,
             msg = m1 +:+ m2 -> m2 <> EmptyString ->
             k5 (m2 +:+ suffix) c0 = None).
  { intros m1 m2 c0 Hsplit Hm2. subst k5. cbv beta.
    apply tail_blocked; [exact Hm2| |].
    - apply (lastNonWs_append m1); [rewrite <- Hsplit; exact Hlast | exact Hm2].
    - apply (bracketsClosed_append m1). rewrite <- Hsplit. exact Hclosed. }
  clearbody k5. destruct msg as [|x m]; [congruence|].
  rewrite append_cons, run_PlusLazy_cons. simpl in Hall.
  apply andb_prop in Hall. destruct Hall as [Hx Hall]. rewrite Hx.
  apply starLazy_append; [exact Hall | | exact Hend].
  intros m1 m2 -> Hm2.
  apply (Hblocked (String x m1) m2); [reflexivity|exact Hm2].
Qed.

(** The header pattern matches a header line and captures its parts. *)
Lemma exec_headerLine (path lineStr columnStr sev msg : string)
      (rule : option string) :
  isAbsolutePath path = true ->
  isNumber lineStr = true -> isNumber columnStr = true ->
  sev <> EmptyString -> JS.every JS.isAlpha sev = true ->
  isMessage msg = true -> bracketsClosed msg = true ->
  match rule with Some r => isRule r = true | None => True end ->
  exec warningRegex (headerLine path lineStr columnStr sev msg rule)
  = Some (match rule with Some r => [(6, r)] | None => [] end
          ++ [(5, msg); (4, sev); (3, columnStr); (2, lineStr); (1, path)]).
Proof.
  intros Hpath Hline Hcol Hsev Hsev' Hmsg Hclosed Hrule.
  apply isNumber_spec in Hline. destruct Hline as [Hl Hl'].
  apply isNumber_spec in Hcol. destruct Hcol as [Hc Hc'].
  assert (Hhead : JS.headIn JS.isWhiteSpace msg = false).
  { pose proof (isMessage_spec msg Hmsg) as (Hne & _ & Htrim).
    apply (trim_fixed msg Htrim Hne). }
  assert (Hmne : msg <> EmptyString) by apply (isMessage_spec msg Hmsg).
  assert (Hsevhead : JS.headIn JS.isWhiteSpace sev = false).
  { destruct sev as [|a sev']; [congruence|]. simpl in *.
    apply andb_prop in Hsev'. apply alpha_not_whitespace. tauto. }
  unfold exec, warningRegex, headerLine. rewrite run_Seq.
  apply run_path; [exact Hpath | reflexivity|]. cbv beta.
  rewrite ?append_cons, ?append_nil_l, run_Seq, run_chr. cbv beta.
  rewrite run_Seq.
  apply run_Cap_Plus_append; [exact Hl | exact Hl' | reflexivity|]. cbv beta.
  rewrite ?append_cons, ?append_nil_l, run_Seq, run_chr. cbv beta.
  rewrite run_Seq.
  apply run_Cap_Plus_append; [exact Hc | exact Hc' | reflexivity|]. cbv beta.
  rewrite ?append_cons, ?append_nil_l, run_Seq, run_chr. cbv beta.
  rewrite run_Seq.
  apply (run_Plus_append JS.isWhiteSpace " ");
    [discriminate | reflexivity | |].
  { rewrite headIn_append by exact Hsev. exact Hsevhead. }
  cbv beta. rewrite run_Seq.
  apply run_Cap_Plus_append; [exact Hsev | exact Hsev' | reflexivity|].
  cbv beta.
  rewrite ?append_cons, ?append_nil_l, run_Seq, run_chr. cbv beta.
  rewrite run_Seq.
  apply (run_Plus_append JS.isWhiteSpace " ");
    [discriminate | reflexivity | |].
  { rewrite headIn_append by exact Hmne. exact Hhead. }
  cbv beta. apply run_message; assumption.
Qed.

End HeaderMatch.

(** ** The line loop *)

Section LineLoop.
Import Regex TextParser.
#[local] Open Scope regex_scope.

Lemma sameHeader_refl (d : Diagnostic) : sameHeader d d.
Proof. repeat split. Qed.

Lemma sameHeader_trans (d1 d2 d3 : Diagnostic) :
  sameHeader d1 d2 -> sameHeader d2 d3 -> sameHeader d1 d3.
Proof.
  unfold sameHeader. intros (A1 & A2 & A3 & A4 & A5 & A6)
                            (B1 & B2 & B3 & B4 & B5 & B6).
  repeat split; congruence.
Qed.

(** A line that the header pattern matches is not blank. *)
Lemma exec_header_nonblank (ln : string) (caps : captures) :
  exec warningRegex ln = Some caps -> JS.isEmpty (JS.trim ln) = false.
Proof.
  intros Hexec. destruct ln as [|a ln]; [discriminate|].
  destruct (JS.isWhiteSpace a) eqn:Ha.
  - exfalso. apply whitespace_cases in Ha.
    destruct Ha as (Halpha & Hsep & _).
    unfold exec, warningRegex in Hexec.
    rewrite run_Seq, run_Cap, run_Seq, run_Opt, run_Seq, run_Cls_cons,
      Halpha, run_Seq, run_Cls_cons, Hsep in Hexec.
    discriminate.
  - unfold JS.trim. simpl JS.trimStart. rewrite Ha.
    apply trimEnd_nonblank. exact Ha.
Qed.

Lemma header_whitespace_first (a : ascii) (ln : string) :
  JS.isWhiteSpace a = true -> exec warningRegex (String a ln) = None.
Proof.
  intros Ha. apply whitespace_cases in Ha.
  destruct Ha as (Halpha & Hsep & _). unfold exec, warningRegex.
  rewrite run_Seq, run_Cap, run_Seq, run_Opt, run_Seq, run_Cls_cons,
    Halpha, run_Seq, run_Cls_cons, Hsep.
  reflexivity.
Qed.

(** What the loop does on a line that the header pattern matches. *)
Lemma processLine_header (st : LoopState) (ln : string) (caps : captures) :
  exec warningRegex ln = Some caps ->
  processLine st ln
  = match validateSeverity (JS.toLowerCase (capture 4 caps)) with
    | None =>
        mkLoopState (diagnostics st) None
                    (S (matchedWarnings st)) (S (invalidSeverities st))
    | Some severity =>
        mkLoopState
          (diagnostics st
           ++ [mkDiagnostic (capture 1 caps) (JS.parseInt (capture 2 caps))
                            (JS.parseInt (capture 3 caps)) severity
                            (JS.trim (capture 5 caps)) (capture 6 caps)
                            None None None])
          (Some (List.length (diagnostics st)))
          (S (matchedWarnings st)) (invalidSeverities st)
    end.
Proof.
  intros Hexec. unfold processLine.
  rewrite (exec_header_nonblank ln caps Hexec), Hexec. reflexivity.
Qed.

(** One line leaves the array as it is, pushes a record, or updates
    the current one. *)
Lemma processLine_cases (st : LoopState) (ln : string) :
  diagnostics (processLine st ln) = diagnostics st
  \/ (exists d, diagnostics (processLine st ln) = diagnostics st ++ [d]
                /\ codeLineFull d = None /\ caretLine d = None
                /\ fixSuggestion d = None)
  \/ (exists f cur, detailUpdate f
                    /\ diagnostics (processLine st ln)
                       = alter f cur (diagnostics st)).
Proof.
  unfold processLine. destruct (JS.isEmpty (JS.trim ln)) eqn:Hblank.
  { left. reflexivity. }
  assert (Hln : ln <> EmptyString).
  { intros ->. discriminate. }
  destruct (exec warningRegex ln) as [caps|].
  { destruct (validateSeverity _); [right; left | left; reflexivity].
    eexists. simpl. repeat split. }
  destruct (currentDiagnostic st) as [cur|]; [|left; reflexivity].
  destruct (test codeLineRegex ln) eqn:Hcode; simpl.
  - right. right. eexists _, cur. split; [|reflexivity].
    constructor. unfold codePart.
    destruct (JS.pop (JS.split "|" ln)) as [p0|]; [|exact Hln].
    destruct (JS.isEmpty (JS.trim p0)) eqn:Hp; [exact Hln|].
    intros Hnil. rewrite Hnil in Hp. discriminate.
  - destruct (test detailLineRegex ln); [|left; reflexivity].
    right. right. destruct (JS.includes "^" (JS.trim ln)).
    + eexists _, cur. split; [|reflexivity]. constructor. exact Hln.
    + eexists _, cur. split; [|reflexivity]. constructor. exact Hln.
Qed.

Lemma detailUpdate_header (f : Diagnostic -> Diagnostic) (d : Diagnostic) :
  detailUpdate f -> sameHeader d (f d).
Proof.
  intros Hf. destruct Hf; [repeat split | repeat split |].
  destruct (fixSuggestion d) as [f0|]; [|repeat split].
  destruct (JS.isEmpty f0); repeat split.
Qed.

Lemma append_nonempty_r (a b : string) :
  b <> EmptyString -> a +:+ b <> EmptyString.
Proof.
  intros Hb H. apply (f_equal String.length) in H.
  rewrite length_append in H. destruct b; [congruence|]. simpl in H. lia.
Qed.

Lemma detailUpdate_nonEmpty (f : Diagnostic -> Diagnostic) (d : Diagnostic) :
  detailUpdate f -> fieldsNonEmpty d -> fieldsNonEmpty (f d).
Proof.
  intros Hf (Hc & Hk & Hx). destruct Hf as [v Hv|v Hv|ln Hln].
  - repeat split; simpl; try assumption. intros s [= <-]. exact Hv.
  - repeat split; simpl; try assumption. intros s [= <-]. exact Hv.
  - destruct (fixSuggestion d) as [f0|] eqn:Hfix;
      [destruct (JS.isEmpty f0)|];
      repeat split; simpl; try assumption; intros s [= <-]; try exact Hln.
    apply append_nonempty_r, append_nonempty_r. exact Hln.
Qed.

(** A record keeps its position and its header fields through every
    later line. *)
Lemma processLine_keeps (st : LoopState) (ln : string) (i : nat)
      (d : Diagnostic) :
  diagnostics st !! i = Some d ->
  exists d', diagnostics (processLine st ln) !! i = Some d'
             /\ sameHeader d d'.
Proof.
  intros Hi.
  destruct (processLine_cases st ln)
    as [-> | [(d0 & -> & _) | (f & cur & Hf & ->)]].
  - exists d. split; [exact Hi | apply sameHeader_refl].
  - exists d. split; [|apply sameHeader_refl].
    rewrite lookup_app_l; [exact Hi | eapply lookup_lt_Some; exact Hi].
  - destruct (decide (cur = i)) as [->|Hne].
    + exists (f d). rewrite list_lookup_alter_eq, Hi.
      split; [reflexivity | apply detailUpdate_header; exact Hf].
    + exists d. rewrite list_lookup_alter_ne by exact Hne.
      split; [exact Hi | apply sameHeader_refl].
Qed.

Lemma parse_keeps (lines : list string) :
  forall (st : LoopState) (i : nat) (d : Diagnostic),
    diagnostics st !! i = Some d ->
    exists d', diagnostics (fold_left processLine lines st) !! i = Some d'
               /\ sameHeader d d'.
Proof.
  induction lines as [|ln lines IH]; intros st i d Hi; simpl.
  - exists d. split; [exact Hi | apply sameHeader_refl].
  - destruct (processLine_keeps st ln i d Hi) as (d1 & H1 & Hs1).
    destruct (IH _ i d1 H1) as (d2 & H2 & Hs2).
    exists d2. split; [exact H2 | eapply sameHeader_trans; eassumption].
Qed.

(** The loop never stores an empty string in an optional field. *)
Lemma processLine_nonEmpty (st : LoopState) (ln : string) :
  Forall fieldsNonEmpty (diagnostics st) ->
  Forall fieldsNonEmpty (diagnostics (processLine st ln)).
Proof.
  intros Hall.
  destruct (processLine_cases st ln)
    as [-> | [(d0 & -> & Hc & Hk & Hx) | (f & cur & Hf & ->)]].
  - exact Hall.
  - apply Forall_app. split; [exact Hall|]. constructor; [|constructor].
    repeat split; intros s Hs; congruence.
  - apply Forall_alter; [exact Hall|].
    intros d _ Hd. apply detailUpdate_nonEmpty; assumption.
Qed.

Lemma parseLines_nonEmpty (lines : list string) :
  Forall fieldsNonEmpty (diagnostics (parseLines lines)).
Proof.
  unfold parseLines.
  assert (H : forall st, Forall fieldsNonEmpty (diagnostics st) ->
              Forall fieldsNonEmpty
                     (diagnostics (fold_left processLine lines st))).
  { induction lines as [|ln lines IH]; intros st Hst; simpl; [exact Hst|].
    apply IH, processLine_nonEmpty, Hst. }
  apply H. constructor.
Qed.

End LineLoop.

(** ** Numbers *)

Section Numbers.

Lemma nearest_exact (m : Z) :
  (m < JS.exactBelow)%Z -> JS.nearest m = Some m.
Proof.
  intros H. unfold JS.nearest.
  destruct (m <? JS.exactBelow)%Z eqn:E; [reflexivity|].
  apply Z.ltb_ge in E. lia.
Qed.

Lemma nearest_nonneg (m v : Z) :
  (0 <= m)%Z -> JS.nearest m = Some v -> (0 <= v)%Z.
Proof.
  intros Hm. unfold JS.nearest.
  destruct (m <? JS.exactBelow)%Z; [intros [= <-]; exact Hm|].
  cbv zeta. destruct (Z.log2 _ <? 1024)%Z; [|discriminate].
  intros [= <-]. apply Z.shiftl_nonneg.
  assert (Hq : (0 <= Z.shiftr m (Z.log2 m - 52))%Z)
    by (apply Z.shiftr_nonneg; exact Hm).
  destruct (_ || _)%bool; lia.
Qed.

(** Integers of magnitude below 2^53 are doubles. *)
Lemma round_exact (z : Z) :
  (- JS.exactBelow < z < JS.exactBelow)%Z -> JS.round z = JS.Num z.
Proof.
  intros H. unfold JS.round. rewrite nearest_exact by lia.
  f_equal. destruct z; reflexivity.
Qed.

Lemma round_nonNegative (z : Z) :
  (0 <= z)%Z -> JS.nonNegative (JS.round z).
Proof.
  intros Hz. unfold JS.round.
  destruct (JS.nearest (Z.abs z)) as [v|] eqn:Hv.
  - simpl. apply nearest_nonneg in Hv; [|lia].
    assert (0 <= Z.sgn z)%Z by lia. nia.
  - destruct (0 <? z)%Z eqn:E; [exact I|]. apply Z.ltb_ge in E.
    assert (z = 0%Z) by lia. subst z. discriminate Hv.
Qed.

Lemma decimal_nonneg (s : string) : (0 <= JS.decimal s)%Z.
Proof.
  unfold JS.decimal.
  assert (H : forall acc, (0 <= acc)%Z -> (0 <= JS.parseDigits acc s)%Z).
  { induction s as [|c s IH]; intros acc Hacc; simpl; [exact Hacc|].
    destruct (JS.isDigit c); [|exact Hacc].
    apply IH. unfold JS.digitValue. lia. }
  apply H. lia.
Qed.

(** Below 2^53 [parseInt] gives the decimal value itself. *)
Lemma parseInt_exact (s : string) :
  (JS.decimal s < JS.exactBelow)%Z -> JS.parseInt s = JS.Num (JS.decimal s).
Proof.
  intros H. unfold JS.parseInt. apply round_exact.
  pose proof (decimal_nonneg s). unfold JS.exactBelow in *. lia.
Qed.

Lemma parseInt_nonNegative (s : string) : JS.nonNegative (JS.parseInt s).
Proof. apply round_nonNegative, decimal_nonneg. Qed.

End Numbers.

(** ** enrichDiagnosticsWithSourceCode *)

Section EnrichOne.
Import TextParser.

Lemma filledFrom_refl (d : Diagnostic) : filledFrom d d.
Proof. repeat split. Qed.

Lemma filledFrom_trans (d1 d2 d3 : Diagnostic) :
  filledFrom d1 d2 -> filledFrom d2 d3 -> filledFrom d1 d3.
Proof.
  intros (Hh1 & Hf1 & Hc1 & Hk1) (Hh2 & Hf2 & Hc2 & Hk2).
  unfold filledFrom. split; [eapply sameHeader_trans; eassumption|].
  split; [congruence|]. split; intros Ht.
  - rewrite <- (Hc1 Ht). apply Hc2. rewrite (Hc1 Ht). exact Ht.
  - rewrite <- (Hk1 Ht). apply Hk2. rewrite (Hk1 Ht). exact Ht.
Qed.

Lemma fillCodeLine_filled (c : string) (d : Diagnostic) :
  filledFrom d (fillCodeLine c d).
Proof.
  unfold fillCodeLine. destruct (truthy (codeLineFull d)) eqn:Hc.
  - apply filledFrom_refl.
  - repeat split. intros H. simpl in *. congruence.
Qed.

Lemma fillCodeLine_idempotent (c : string) (d : Diagnostic) :
  fillCodeLine c (fillCodeLine c d) = fillCodeLine c d.
Proof.
  unfold fillCodeLine. destruct (truthy (codeLineFull d)) eqn:Hc.
  - now rewrite Hc.
  - simpl. destruct (negb (JS.isEmpty c)); reflexivity.
Qed.

Lemma fillCodeLine_setCaretLine (c v : string) (d : Diagnostic) :
  fillCodeLine c (setCaretLine v (fillCodeLine c d))
  = setCaretLine v (fillCodeLine c d).
Proof.
  unfold fillCodeLine. destruct (truthy (codeLineFull d)) eqn:Hc; simpl.
  - now rewrite Hc.
  - destruct (negb (JS.isEmpty c)); reflexivity.
Qed.

Variable host : Host.

(** A caret line that could be built is not empty. *)
Lemma buildCaretLine_nonempty (d : Diagnostic) (caret : string) :
  buildCaretLine host d = Exn.Returned caret -> JS.isEmpty caret = false.
Proof.
  unfold buildCaretLine.
  destruct (JS.repeatCount _ _ _) as [w|]; [|discriminate].
  unfold JS.concat. destruct (_ <? _)%Z; [discriminate|].
  intros [= <-]. destruct w; reflexivity.
Qed.

Lemma buildCaretLine_column (d d' : Diagnostic) :
  column d' = column d -> buildCaretLine host d' = buildCaretLine host d.
Proof. intros H. unfold buildCaretLine. now rewrite H. Qed.

Lemma fillCaretLine_filled (d d' : Diagnostic) :
  fillCaretLine host d = Exn.Returned d' -> filledFrom d d'.
Proof.
  unfold fillCaretLine. destruct (truthy (caretLine d)) eqn:Hc.
  - intros [= <-]. apply filledFrom_refl.
  - destruct (buildCaretLine host d); [|discriminate].
    intros [= <-]. repeat split. intros H. simpl in *. congruence.
Qed.

Lemma enrichOne_filled (l : list string) (d : Diagnostic) :
  filledFrom d (fst (enrichOne host l d)).
Proof.
  unfold enrichOne.
  destruct (JS.isIndex _ _); [|apply filledFrom_refl].
  destruct (JS.element _ _) as [c|]; [|apply filledFrom_refl].
  destruct (fillCaretLine host (fillCodeLine c d)) as [d2|] eqn:Hk; simpl.
  - eapply filledFrom_trans;
      [apply fillCodeLine_filled | apply fillCaretLine_filled, Hk].
  - apply fillCodeLine_filled.
Qed.

Lemma enrichOne_filePath (l : list string) (d : Diagnostic) :
  filePath (fst (enrichOne host l d)) = filePath d.
Proof. apply (enrichOne_filled l d). Qed.

(** The body of the inner loop does the same to a record that went
    through it: the same record, and the same error. *)
Lemma enrichOne_again (l : list string) (d : Diagnostic) :
  enrichOne host l (fst (enrichOne host l d)) = enrichOne host l d.
Proof.
  assert (Hline : line (fst (enrichOne host l d)) = line d)
    by apply (enrichOne_filled l d).
  unfold enrichOne at 1. rewrite Hline. unfold enrichOne.
  destruct (JS.isIndex _ _); [|reflexivity].
  destruct (JS.element _ _) as [c|]; [|reflexivity].
  destruct (fillCaretLine host (fillCodeLine c d)) as [d2|error] eqn:Hk;
    cbn [fst].
  - unfold fillCaretLine in Hk.
    destruct (truthy (caretLine (fillCodeLine c d))) eqn:Ht.
    + injection Hk as <-. rewrite fillCodeLine_idempotent.
      unfold fillCaretLine. rewrite Ht. reflexivity.
    + destruct (buildCaretLine host (fillCodeLine c d)) as [caret|] eqn:Hb;
        [|discriminate].
      injection Hk as <-. rewrite fillCodeLine_setCaretLine.
      unfold fillCaretLine. cbn [caretLine setCaretLine truthy].
      rewrite (buildCaretLine_nonempty _ _ Hb). reflexivity.
  - rewrite fillCodeLine_idempotent, Hk. reflexivity.
Qed.

Lemma enrichOne_fixed (l : list string) (d : Diagnostic) :
  truthy (codeLineFull d) = true -> truthy (caretLine d) = true ->
  enrichOne host l d = (d, None).
Proof.
  intros Hc Hk. unfold enrichOne.
  destruct (JS.isIndex _ _); [|reflexivity].
  destruct (JS.element _ _); [|reflexivity].
  unfold fillCodeLine. rewrite Hc. unfold fillCaretLine. rewrite Hk.
  reflexivity.
Qed.

Lemma enrichDiag_filled (d : Diagnostic) : filledFrom d (enrichDiag host d).
Proof.
  unfold enrichDiag. destruct (readFileSync host (filePath d));
    [apply enrichOne_filled | apply filledFrom_refl].
Qed.

Lemma enrichDiag_idempotent (d : Diagnostic) :
  enrichDiag host (enrichDiag host d) = enrichDiag host d.
Proof.
  assert (Hpath : filePath (enrichDiag host d) = filePath d)
    by apply enrichDiag_filled.
  unfold enrichDiag at 1. rewrite Hpath. unfold enrichDiag.
  destruct (readFileSync host (filePath d)); [|reflexivity].
  now rewrite enrichOne_again.
Qed.

Lemma enrichDiag_fixed (d : Diagnostic) :
  truthy (codeLineFull d) = true -> truthy (caretLine d) = true ->
  enrichDiag host d = d.
Proof.
  intros Hc Hk. unfold enrichDiag.
  destruct (readFileSync host (filePath d)); [|reflexivity].
  now rewrite enrichOne_fixed.
Qed.

Lemma enriched_filled (d d' : Diagnostic) :
  enriched host d d' -> filledFrom d d'.
Proof.
  intros [-> | ->]; [apply filledFrom_refl | apply enrichDiag_filled].
Qed.

End EnrichOne.

Section Grouping.
Import TextParser.

Lemma mapPush_in (key : string) (i : nat) (m : FileMap)
      (k' : string) (l' : list nat) :
  In (k', l') (mapPush key i m)
  <-> exists l0, In (k', l0) m
                 /\ l' = if String.eqb k' key then l0 ++ [i] else l0.
Proof.
  unfold mapPush. rewrite in_map_iff. split.
  - intros ([k l] & Heq & Hin). simpl in Heq.
    destruct (String.eqb k key) eqn:Hk; injection Heq as <- <-;
      exists l; rewrite Hk; auto.
  - intros (l0 & Hin & ->). exists (k', l0). split; [|exact Hin]. simpl.
    destruct (String.eqb k' key); reflexivity.
Qed.

Lemma mapHas_mapPush (k key : string) (i : nat) (m : FileMap) :
  mapHas k (mapPush key i m) = mapHas k m.
Proof.
  unfold mapHas, mapPush. induction m as [|[k0 l0] m IH]; [reflexivity|].
  simpl. rewrite IH. destruct (String.eqb k0 key); reflexivity.
Qed.

Lemma mapHas_keys (key : string) (m : FileMap) :
  mapHas key m = existsb (String.eqb key) (map fst m).
Proof.
  unfold mapHas. induction m as [|[k0 l0] m IH]; [reflexivity|].
  simpl. rewrite IH, (String.eqb_sym k0 key). reflexivity.
Qed.

Lemma positionsFrom_app (key : string) (a b : list Diagnostic) :
  forall k,
    positionsFrom k key (a ++ b)
    = positionsFrom k key a ++ positionsFrom (k + List.length a) key b.
Proof.
  induction a as [|d a IH]; intros k; simpl.
  - now rewrite Nat.add_0_r.
  - rewrite IH, <- app_assoc. do 3 f_equal. lia.
Qed.

Lemma positionsFrom_none (key : string) (ds : list Diagnostic) :
  (forall d, In d ds -> filePath d <> key) ->
  forall k, positionsFrom k key ds = [].
Proof.
  induction ds as [|d ds IH]; intros Hno k; [reflexivity|]. simpl.
  destruct (String.eqb (filePath d) key) eqn:E.
  - apply String.eqb_eq in E. exfalso. apply (Hno d); [left; reflexivity|].
    exact E.
  - apply IH. intros e He. apply Hno. right. exact He.
Qed.

Lemma positionsFrom_paths (key : string) (a : list Diagnostic) :
  forall b k,
    map filePath a = map filePath b ->
    positionsFrom k key a = positionsFrom k key b.
Proof.
  induction a as [|x a IH]; intros [|y b] k Heq; try discriminate;
    [reflexivity|].
  simpl in *. injection Heq as Hxy Heq. rewrite Hxy, (IH b (S k) Heq).
  reflexivity.
Qed.

(** What holds of the map while it is built over the records [pre]:
    the array of a path holds the positions of the records of this
    file, in order, and every path met has its array. *)
Let groupInv (m : FileMap) (pre : list Diagnostic) : Prop :=
  (forall key idxs, In (key, idxs) m -> idxs = positionsFrom 0 key pre)
  /\ (forall d, In d pre -> mapHas (filePath d) m = true).

Lemma groupStep_inv (m : FileMap) (pre : list Diagnostic) (d : Diagnostic) :
  groupInv m pre ->
  groupInv (groupStep m (List.length pre, d)) (pre ++ [d]).
Proof.
  intros [Hpos Hhas]. unfold groupStep.
  set (m' := if mapHas (filePath d) m then m
             else mapSetEmpty (filePath d) m).
  assert (Hpos' : forall key idxs,
             In (key, idxs) m' -> idxs = positionsFrom 0 key pre).
  { intros key idxs Hin. subst m'.
    destruct (mapHas (filePath d) m) eqn:Hm; [apply Hpos, Hin|].
    unfold mapSetEmpty in Hin. apply in_app_or in Hin.
    destruct Hin as [Hin | [Heq | []]]; [apply Hpos, Hin|].
    injection Heq as <- <-. symmetry. apply positionsFrom_none.
    intros e He Hpath. specialize (Hhas e He). rewrite Hpath in Hhas.
    congruence. }
  assert (Hhas' : mapHas (filePath d) m' = true).
  { subst m'. destruct (mapHas (filePath d) m) eqn:Hm; [exact Hm|].
    unfold mapHas, mapSetEmpty. rewrite existsb_app. simpl.
    rewrite String.eqb_refl. apply orb_true_r. }
  split.
  - intros key idxs Hin. apply mapPush_in in Hin.
    destruct Hin as (l0 & Hin & ->). rewrite (Hpos' key l0 Hin).
    rewrite positionsFrom_app. simpl. rewrite app_nil_r.
    rewrite (String.eqb_sym (filePath d) key).
    destruct (String.eqb key (filePath d)); [reflexivity|].
    now rewrite app_nil_r.
  - intros e He. rewrite mapHas_mapPush. apply in_app_or in He.
    destruct He as [He | [<- | []]]; [|exact Hhas'].
    subst m'. destruct (mapHas (filePath d) m); [apply Hhas, He|].
    unfold mapHas, mapSetEmpty. rewrite existsb_app.
    apply orb_true_intro. left. apply (Hhas e He).
Qed.

Lemma fold_groupStep_inv (l : list Diagnostic) :
  forall m pre,
    groupInv m pre ->
    groupInv (fold_left groupStep
                (List.combine (seq (List.length pre) (List.length l)) l) m)
             (pre ++ l).
Proof.
  induction l as [|d l IH]; intros m pre Hinv; simpl.
  - now rewrite app_nil_r.
  - replace (pre ++ d :: l) with ((pre ++ [d]) ++ l)
      by (rewrite <- app_assoc; reflexivity).
    replace (S (List.length pre)) with (List.length (pre ++ [d]))
      by (rewrite length_app; simpl; lia).
    apply IH, groupStep_inv, Hinv.
Qed.

(** The map holds, for every path of the list, the positions of the
    records of this file, in order. *)
Lemma groupByFile_positions (ds : list Diagnostic) :
  (forall key idxs,
      In (key, idxs) (groupByFile ds) -> idxs = positionsFrom 0 key ds)
  /\ (forall d, In d ds -> mapHas (filePath d) (groupByFile ds) = true).
Proof.
  apply (fold_groupStep_inv ds [] []). split; [intros key idxs []|].
  intros d [].
Qed.

(** The map depends on the paths of the records only. *)
Lemma groupByFile_paths (a b : list Diagnostic) :
  map filePath a = map filePath b -> groupByFile a = groupByFile b.
Proof.
  intros Heq.
  assert (Hgen : forall a b k m,
             map filePath a = map filePath b ->
             fold_left groupStep (List.combine (seq k (List.length a)) a) m
             = fold_left groupStep (List.combine (seq k (List.length b)) b) m).
  { clear. induction a as [|x a IH]; intros [|y b] k m Heq;
      try discriminate; [reflexivity|].
    cbn [fold_left List.combine seq List.length map] in *.
    injection Heq as Hxy Heq.
    replace (groupStep m (k, y)) with (groupStep m (k, x))
      by (unfold groupStep; rewrite Hxy; reflexivity).
    apply IH, Heq. }
  apply Hgen, Heq.
Qed.

End Grouping.

Section EnrichRecords.
Import TextParser.
Variable host : Host.

Lemma insert_middle (pre : list Diagnostic) (d x : Diagnostic)
      (ds : list Diagnostic) :
  <[List.length pre := x]> (pre ++ d :: ds) = pre ++ x :: ds.
Proof.
  rewrite insert_app_r_alt by reflexivity. now rewrite Nat.sub_diag.
Qed.

(** The inner loop over the positions of a file is the pass over the
    records of this file. *)
Lemma enrichLoop_records (fileLines : list string) (key : string)
      (ds : list Diagnostic) :
  forall pre,
    fst (enrichLoop host fileLines
           (positionsFrom (List.length pre) key ds) (pre ++ ds))
    = pre ++ enrichRecords host fileLines key ds.
Proof.
  induction ds as [|d ds IH]; intros pre; simpl; [reflexivity|].
  assert (Hnext : forall x,
             fst (enrichLoop host fileLines
                    (positionsFrom (S (List.length pre)) key ds)
                    (pre ++ x :: ds))
             = pre ++ x :: enrichRecords host fileLines key ds).
  { intros x. specialize (IH (pre ++ [x])).
    rewrite length_app in IH. simpl in IH.
    rewrite Nat.add_1_r, <- !app_assoc in IH. exact IH. }
  destruct (String.eqb (filePath d) key); simpl; [|apply Hnext].
  rewrite list_lookup_middle by reflexivity.
  destruct (enrichOne host fileLines d) as [d' [error|]].
  - simpl. now rewrite insert_middle.
  - rewrite insert_middle. apply Hnext.
Qed.

Lemma enrichFile_path (store : list Diagnostic) (key : string) :
  enrichFile host store (key, positionsFrom 0 key store)
  = enrichPath host key store.
Proof.
  unfold enrichFile, tryFile, enrichPath. cbn [fst snd].
  destruct (readFileSync host key) as [content|]; [|reflexivity].
  pose proof (enrichLoop_records (JS.split LF content) key store []) as H.
  simpl in H. destruct (enrichLoop _ _ _ _) as [store' [error|]];
    exact H.
Qed.

Lemma enrichRecords_paths (fileLines : list string) (key : string)
      (ds : list Diagnostic) :
  map filePath (enrichRecords host fileLines key ds) = map filePath ds.
Proof.
  induction ds as [|d ds IH]; simpl; [reflexivity|].
  destruct (String.eqb (filePath d) key); simpl; [|now rewrite IH].
  pose proof (enrichOne_filePath host fileLines d) as Hp.
  destruct (enrichOne host fileLines d) as [d' [error|]]; simpl in *;
    rewrite Hp, ?IH; reflexivity.
Qed.

Lemma enrichPath_paths (key : string) (ds : list Diagnostic) :
  map filePath (enrichPath host key ds) = map filePath ds.
Proof.
  unfold enrichPath. destruct (readFileSync host key); [|reflexivity].
  apply enrichRecords_paths.
Qed.

Lemma fold_enrichPath_paths (keys : list string) :
  forall ds,
    map filePath (fold_left (fun st key => enrichPath host key st) keys ds)
    = map filePath ds.
Proof.
  induction keys as [|key keys IH]; intros ds; simpl; [reflexivity|].
  now rewrite IH, enrichPath_paths.
Qed.

(** The pass is one round per path of the list, each on the whole
    list. *)
Lemma enrich_fold (ds : list Diagnostic) :
  enrichDiagnosticsWithSourceCode host ds
  = fold_left (fun st key => enrichPath host key st)
              (map fst (groupByFile ds)) ds.
Proof.
  unfold enrichDiagnosticsWithSourceCode.
  destruct (groupByFile_positions ds) as [Hpos _].
  revert Hpos. generalize (groupByFile ds) as groups.
  assert (Hgen : forall groups store,
             map filePath store = map filePath ds ->
             (forall key idxs,
                 In (key, idxs) groups -> idxs = positionsFrom 0 key ds) ->
             fold_left (enrichFile host) groups store
             = fold_left (fun st key => enrichPath host key st)
                         (map fst groups) store).
  { induction groups as [|[key idxs] groups IH]; intros store Hpaths Hpos;
      simpl; [reflexivity|].
    rewrite (Hpos key idxs (or_introl eq_refl)).
    rewrite (positionsFrom_paths key ds store 0) by (symmetry; exact Hpaths).
    rewrite enrichFile_path. apply IH.
    - now rewrite enrichPath_paths.
    - intros k l Hin. apply Hpos. right. exact Hin. }
  intros groups Hpos. apply Hgen; [reflexivity | exact Hpos].
Qed.

Lemma enrichRecords_commute (lines1 lines2 : list string)
      (key1 key2 : string) (ds : list Diagnostic) :
  key1 <> key2 ->
  enrichRecords host lines1 key1 (enrichRecords host lines2 key2 ds)
  = enrichRecords host lines2 key2 (enrichRecords host lines1 key1 ds).
Proof.
  intros Hne. induction ds as [|d ds IH]; simpl; [reflexivity|].
  destruct (String.eqb (filePath d) key1) eqn:E1;
    destruct (String.eqb (filePath d) key2) eqn:E2.
  - apply String.eqb_eq in E1, E2. congruence.
  - simpl. rewrite E1.
    pose proof (enrichOne_filePath host lines1 d) as Hp.
    destruct (enrichOne host lines1 d) as [d' [error|]]; simpl in *;
      rewrite Hp, E2, ?IH; reflexivity.
  - simpl. rewrite E2.
    pose proof (enrichOne_filePath host lines2 d) as Hp.
    destruct (enrichOne host lines2 d) as [d' [error|]]; simpl in *;
      rewrite Hp, E1, ?IH; reflexivity.
  - simpl. rewrite E1, E2, IH. reflexivity.
Qed.

Lemma enrichRecords_idempotent (fileLines : list string) (key : string)
      (ds : list Diagnostic) :
  enrichRecords host fileLines key (enrichRecords host fileLines key ds)
  = enrichRecords host fileLines key ds.
Proof.
  induction ds as [|d ds IH]; simpl; [reflexivity|].
  destruct (String.eqb (filePath d) key) eqn:E; simpl;
    [|now rewrite E, IH].
  pose proof (enrichOne_filePath host fileLines d) as Hp.
  pose proof (enrichOne_again host fileLines d) as Hagain.
  destruct (enrichOne host fileLines d) as [d' [error|]]; simpl in *;
    rewrite Hp, E, Hagain, ?IH; reflexivity.
Qed.

Lemma enrichPath_commute (key1 key2 : string) (ds : list Diagnostic) :
  enrichPath host key1 (enrichPath host key2 ds)
  = enrichPath host key2 (enrichPath host key1 ds).
Proof.
  destruct (String.eqb key1 key2) eqn:E.
  - apply String.eqb_eq in E. now subst key2.
  - apply String.eqb_neq in E. unfold enrichPath.
    destruct (readFileSync host key1), (readFileSync host key2);
      try reflexivity.
    apply enrichRecords_commute, E.
Qed.

Lemma enrichPath_idempotent (key : string) (ds : list Diagnostic) :
  enrichPath host key (enrichPath host key ds) = enrichPath host key ds.
Proof.
  unfold enrichPath. destruct (readFileSync host key) eqn:E; [|reflexivity].
  apply enrichRecords_idempotent.
Qed.

Lemma fold_enrichPath_commute (key : string) (keys : list string) :
  forall ds,
    enrichPath host key
      (fold_left (fun st k => enrichPath host k st) keys ds)
    = fold_left (fun st k => enrichPath host k st) keys
        (enrichPath host key ds).
Proof.
  induction keys as [|k keys IH]; intros ds; simpl; [reflexivity|].
  now rewrite IH, enrichPath_commute.
Qed.

Lemma fold_enrichPath_idempotent (keys : list string) :
  forall ds,
    fold_left (fun st k => enrichPath host k st) keys
      (fold_left (fun st k => enrichPath host k st) keys ds)
    = fold_left (fun st k => enrichPath host k st) keys ds.
Proof.
  induction keys as [|k keys IH]; intros ds; simpl; [reflexivity|].
  rewrite fold_enrichPath_commute, enrichPath_idempotent. apply IH.
Qed.

(** The records of the other files stay as they are. *)
Lemma enrichRecords_other (fileLines : list string) (key : string)
      (ds : list Diagnostic) :
  forall i d,
    ds !! i = Some d -> filePath d <> key ->
    enrichRecords host fileLines key ds !! i = Some d.
Proof.
  induction ds as [|x ds IH]; intros i d Hi Hne; [discriminate|]. simpl.
  destruct i as [|i]; simpl in Hi.
  - injection Hi as ->. apply String.eqb_neq in Hne. now rewrite Hne.
  - destruct (String.eqb (filePath x) key); [|simpl; apply IH; assumption].
    destruct (enrichOne host fileLines x) as [x' [error|]]; simpl;
      [exact Hi | apply IH; assumption].
Qed.

Lemma enrichPath_other (key : string) (ds : list Diagnostic)
      (i : nat) (d : Diagnostic) :
  ds !! i = Some d -> filePath d <> key ->
  enrichPath host key ds !! i = Some d.
Proof.
  intros Hi Hne. unfold enrichPath.
  destruct (readFileSync host key); [|exact Hi].
  apply enrichRecords_other; assumption.
Qed.

(** A record of the file goes through the body of the inner loop,
    unless the body threw on a record of the file in front of it. *)
Lemma enrichRecords_lookup (fileLines : list string) (key : string)
      (ds : list Diagnostic) :
  forall i d,
    ds !! i = Some d -> filePath d = key ->
    enrichRecords host fileLines key ds !! i
    = Some (if existsb (fun e => String.eqb (filePath e) key
                                 && throwsOn host fileLines e)
                       (take i ds)
            then d else fst (enrichOne host fileLines d)).
Proof.
  induction ds as [|x ds IH]; intros i d Hi Hkey; [discriminate|]. simpl.
  destruct i as [|i]; simpl in Hi.
  - injection Hi as ->. apply String.eqb_eq in Hkey. rewrite Hkey. simpl.
    destruct (enrichOne host fileLines d) as [d' [error|]]; reflexivity.
  - cbn [take existsb]. unfold throwsOn at 1.
    destruct (String.eqb (filePath x) key); simpl.
    + destruct (enrichOne host fileLines x) as [x' [error|]]; simpl;
        [exact Hi | apply IH; assumption].
    + apply IH; assumption.
Qed.

Lemma fold_enrichPath_lookup (keys : list string) :
  forall ds i d,
    ds !! i = Some d ->
    fold_left (fun st k => enrichPath host k st) keys ds !! i
    = if existsb (String.eqb (filePath d)) keys
      then enrichPath host (filePath d) ds !! i else Some d.
Proof.
  induction keys as [|k keys IH]; intros ds i d Hi; simpl; [exact Hi|].
  destruct (String.eqb (filePath d) k) eqn:E; simpl.
  - apply String.eqb_eq in E. subst k.
    assert (Hsome : exists d', enrichPath host (filePath d) ds !! i = Some d'
                               /\ filePath d' = filePath d).
    { assert (Hlen : i < List.length (enrichPath host (filePath d) ds)).
      { rewrite <- (length_map filePath), enrichPath_paths, length_map.
        apply lookup_lt_Some in Hi. exact Hi. }
      apply lookup_lt_is_Some_2 in Hlen. destruct Hlen as [d' Hd'].
      exists d'. split; [exact Hd'|].
      assert (Hp : map filePath (enrichPath host (filePath d) ds) !! i
                   = map filePath ds !! i) by now rewrite enrichPath_paths.
      change (map ?f ?l) with (f <$> l) in Hp.
      rewrite !list_lookup_fmap, Hd', Hi in Hp. simpl in Hp. congruence. }
    destruct Hsome as (d' & Hd' & Hp').
    rewrite (IH _ i d' Hd'), Hp', enrichPath_idempotent, Hd'.
    destruct (existsb _ keys); reflexivity.
  - apply String.eqb_neq in E.
    assert (Hd' : enrichPath host k ds !! i = Some d)
      by (apply enrichPath_other; assumption).
    rewrite (IH _ i d Hd').
    destruct (existsb _ keys); [|reflexivity].
    rewrite enrichPath_commute.
    destruct (enrichPath host (filePath d) ds !! i) as [e|] eqn:He.
    + apply enrichPath_other; [exact He|].
      assert (Hp : map filePath (enrichPath host (filePath d) ds) !! i
                   = map filePath ds !! i) by now rewrite enrichPath_paths.
      change (map ?f ?l) with (f <$> l) in Hp.
      rewrite !list_lookup_fmap, He, Hi in Hp. simpl in Hp.
      injection Hp as Hp. congruence.
    + exfalso. apply lookup_ge_None in He. apply lookup_lt_Some in Hi.
      rewrite <- (length_map filePath), enrichPath_paths, length_map in He.
      lia.
Qed.

End EnrichRecords.

(** After the pass, a record is what the round of its own file makes
    of it on the list as it was parsed. *)
Lemma enrich_lookup (host : TextParser.Host)
      (ds : list TextParser.Diagnostic) (i : nat) (d : TextParser.Diagnostic) :
  ds !! i = Some d ->
  TextParser.enrichDiagnosticsWithSourceCode host ds !! i
  = TextParser.enrichPath host (TextParser.filePath d) ds !! i.
Proof.
  intros Hi. rewrite enrich_fold, (fold_enrichPath_lookup host _ ds i d Hi).
  destruct (groupByFile_positions ds) as [_ Hhas].
  rewrite <- mapHas_keys, Hhas; [reflexivity|].
  apply list_elem_of_In, list_elem_of_lookup. exists i. exact Hi.
Qed.

Lemma enrich_length (host : TextParser.Host)
      (ds : list TextParser.Diagnostic) :
  List.length (TextParser.enrichDiagnosticsWithSourceCode host ds)
  = List.length ds.
Proof.
  rewrite enrich_fold.
  rewrite <- (length_map TextParser.filePath), fold_enrichPath_paths.
  apply length_map.
Qed.

(** After the pass every record is as it was, or as the body of the
    inner loop leaves it. *)
Lemma enrich_cells (host : TextParser.Host)
      (ds : list TextParser.Diagnostic) (i : nat) (d : TextParser.Diagnostic) :
  ds !! i = Some d ->
  exists d',
    TextParser.enrichDiagnosticsWithSourceCode host ds !! i = Some d'
    /\ TextParser.enriched host d d'.
Proof.
  intros Hi. rewrite (enrich_lookup host ds i d Hi).
  unfold TextParser.enrichPath, TextParser.enriched, TextParser.enrichDiag.
  destruct (TextParser.readFileSync host (TextParser.filePath d))
    as [content|]; [|eauto].
  rewrite (enrichRecords_lookup host _ _ ds i d Hi eq_refl).
  destruct (existsb _ _); eauto.
Qed.

Lemma enrich_Forall2 (host : TextParser.Host)
      (ds : list TextParser.Diagnostic) :
  Forall2 (TextParser.enriched host) ds
          (TextParser.enrichDiagnosticsWithSourceCode host ds).
Proof.
  apply Forall2_same_length_lookup_2; [symmetry; apply enrich_length|].
  intros i d d' Hi Hd'.
  destruct (enrich_cells host ds i d Hi) as (e & He & Hcell). congruence.
Qed.

Lemma enrich_fixed (host : TextParser.Host)
      (ds : list TextParser.Diagnostic) :
  Forall (fun d => TextParser.truthy (TextParser.codeLineFull d) = true
                   /\ TextParser.truthy (TextParser.caretLine d) = true) ds ->
  TextParser.enrichDiagnosticsWithSourceCode host ds = ds.
Proof.
  intros Hall. apply list_eq. intros i.
  destruct (ds !! i) as [d|] eqn:Hi.
  - destruct (enrich_cells host ds i d Hi) as (d' & Hd' & Hcell).
    rewrite Hd'. f_equal. destruct Hcell as [-> | ->]; [reflexivity|].
    rewrite Forall_forall in Hall.
    destruct (Hall d) as [Hc Hk].
    { apply list_elem_of_lookup. exists i. exact Hi. }
    apply enrichDiag_fixed; assumption.
  - apply lookup_ge_None. rewrite enrich_length. apply lookup_ge_None, Hi.
Qed.

Lemma enrich_idempotent (host : TextParser.Host)
      (ds : list TextParser.Diagnostic) :
  TextParser.enrichDiagnosticsWithSourceCode host
    (TextParser.enrichDiagnosticsWithSourceCode host ds)
  = TextParser.enrichDiagnosticsWithSourceCode host ds.
Proof.
  rewrite (enrich_fold host (TextParser.enrichDiagnosticsWithSourceCode _ _)).
  rewrite (groupByFile_paths _ ds).
  - rewrite enrich_fold. apply fold_enrichPath_idempotent.
  - rewrite enrich_fold. apply fold_enrichPath_paths.
Qed.

(** ** split and join *)

Section Split.
Import Regex.

Lemma every_append (p : ascii -> bool) (a b : string) :
  JS.every p (a +:+ b) = JS.every p a && JS.every p b.
Proof.
  induction a as [|x a IH]; [reflexivity|].
  rewrite append_cons. simpl. rewrite IH. apply andb_assoc.
Qed.

Lemma every_weaken (p q : ascii -> bool) (s : string) :
  (forall x, p x = true -> q x = true) ->
  JS.every p s = true -> JS.every q s = true.
Proof.
  intros Hpq. induction s as [|x s IH]; [reflexivity|]. simpl.
  intros H. apply andb_prop in H. destruct H as [Hx Hs].
  rewrite (Hpq x Hx), (IH Hs). reflexivity.
Qed.

Lemma every_notIn_includes (sep : ascii) (s : string) :
  JS.every (notIn [sep]) s = negb (JS.includes sep s).
Proof.
  induction s as [|x s IH]; [reflexivity|]. simpl. rewrite IH.
  unfold notIn. simpl. rewrite orb_false_r. apply eq_sym, negb_orb.
Qed.

Lemma split_nonempty (sep : ascii) (s : string) : JS.split sep s <> [].
Proof.
  destruct s as [|c s]; simpl; [discriminate|].
  destruct (JS.eqc c sep); [discriminate|].
  destruct (JS.split sep s); discriminate.
Qed.

Lemma split_single (sep : ascii) (s : string) :
  JS.includes sep s = false -> JS.split sep s = [s].
Proof.
  induction s as [|c s IH]; [reflexivity|]. simpl. intros H.
  apply orb_false_elim in H. destruct H as [Hc Hs].
  rewrite Hc, (IH Hs). reflexivity.
Qed.

(** A separator cuts the pieces of what is before it from the pieces
    of what is after it. *)
Lemma split_append (sep : ascii) (pre rest : string) :
  JS.split sep (pre +:+ String sep rest)
  = JS.split sep pre ++ JS.split sep rest.
Proof.
  induction pre as [|c pre IH].
  - rewrite append_nil_l. simpl. unfold JS.eqc. rewrite Ascii.eqb_refl.
    reflexivity.
  - rewrite append_cons. simpl. rewrite IH.
    destruct (JS.eqc c sep); [reflexivity|].
    pose proof (split_nonempty sep pre) as Hne.
    destruct (JS.split sep pre) as [|p0 ps]; [congruence|]. reflexivity.
Qed.

Lemma split_joinLines (lines : list string) :
  lines <> [] ->
  Forall (fun l => TextParser.noLineFeed l = true) lines ->
  JS.split TextParser.LF (TextParser.joinLines lines) = lines.
Proof.
  unfold TextParser.joinLines, TextParser.noLineFeed.
  induction lines as [|x lines IH]; intros Hne Hall; [congruence|].
  inversion Hall as [|? ? Hx Hrest]; subst.
  assert (Hsingle : JS.split TextParser.LF x = [x]).
  { apply split_single. rewrite every_notIn_includes in Hx.
    destruct (JS.includes TextParser.LF x); [discriminate | reflexivity]. }
  destruct lines as [|y lines]; [exact Hsingle|].
  change (JS.join (String TextParser.LF EmptyString) (x :: y :: lines))
    with (x +:+ String TextParser.LF EmptyString
            +:+ JS.join (String TextParser.LF EmptyString) (y :: lines)).
  rewrite append_cons, append_nil_l, split_append, Hsingle, IH;
    [reflexivity | discriminate | exact Hrest].
Qed.

End Split.

(** ** Header lines through the whole parser *)

Section HeaderParse.
Import Regex TextParser.

Lemma no_linefeed_class (p : ascii -> bool) (s : string) :
  p LF = false -> JS.every p s = true -> noLineFeed s = true.
Proof.
  intros Hp. apply every_weaken. intros x Hx. unfold notIn. simpl.
  rewrite orb_false_r. destruct (JS.eqc x LF) eqn:E; [|reflexivity].
  apply eqc_eq in E. subst x. congruence.
Qed.

Lemma path_no_linefeed (path : string) :
  isAbsolutePath path = true -> noLineFeed path = true.
Proof.
  assert (Hbody : forall b, isPathBody b = true -> noLineFeed b = true).
  { intros b Hb. apply isPathBody_spec in Hb.
    apply (no_linefeed_class pathChar); [reflexivity | tauto]. }
  assert (Hsep : forall a, isSeparator a = true -> notIn [LF] a = true).
  { intros a Ha. unfold isSeparator in Ha. apply orb_prop in Ha.
    destruct Ha as [Ha|Ha]; apply eqc_eq in Ha; subst a; reflexivity. }
  destruct path as [|a rest]; [discriminate|]. simpl isAbsolutePath.
  destruct (isSeparator a) eqn:Ha.
  - intros Hb. unfold noLineFeed. simpl.
    rewrite (Hsep a Ha). apply Hbody, Hb.
  - destruct rest as [|b [|c0 body]]; try discriminate. intros H.
    apply andb_prop in H. destruct H as [H Hb].
    apply andb_prop in H. destruct H as [H Hc0].
    apply andb_prop in H. destruct H as [Halpha Hcolon].
    apply eqc_eq in Hcolon. subst b. unfold noLineFeed. simpl.
    rewrite (Hsep c0 Hc0).
    assert (Hal : notIn [LF] a = true).
    { unfold notIn. simpl. rewrite orb_false_r.
      destruct (JS.eqc a LF) eqn:E; [|reflexivity].
      apply eqc_eq in E. subst a. discriminate. }
    rewrite Hal. apply Hbody, Hb.
Qed.

Lemma severity_known (sev : string) :
  In sev validSeverities ->
  sev <> EmptyString /\ JS.every JS.isAlpha sev = true
  /\ validateSeverity (JS.toLowerCase sev) = Some sev.
Proof.
  intros [<- | [<- | [<- | [<- | []]]]]; repeat split; discriminate.
Qed.

Lemma headerLine_no_linefeed (path lineStr columnStr sev msg : string)
      (rule : option string) :
  isAbsolutePath path = true ->
  isNumber lineStr = true -> isNumber columnStr = true ->
  JS.every JS.isAlpha sev = true -> isMessage msg = true ->
  match rule with Some r => isRule r = true | None => True end ->
  noLineFeed (headerLine path lineStr columnStr sev msg rule) = true.
Proof.
  intros Hpath Hl Hc Hsev Hmsg Hrule.
  apply path_no_linefeed in Hpath.
  apply isNumber_spec in Hl. destruct Hl as [_ Hl].
  apply (no_linefeed_class JS.isDigit) in Hl; [|reflexivity].
  apply isNumber_spec in Hc. destruct Hc as [_ Hc].
  apply (no_linefeed_class JS.isDigit) in Hc; [|reflexivity].
  apply (no_linefeed_class JS.isAlpha) in Hsev; [|reflexivity].
  apply isMessage_spec in Hmsg. destruct Hmsg as (_ & Hmsg & _).
  unfold noLineFeed, headerLine in *.
  rewrite !every_append, Hpath, Hl, Hc, Hsev, Hmsg. simpl.
  destruct rule as [r|]; [|reflexivity].
  unfold isRule in Hrule. apply andb_prop in Hrule. destruct Hrule as [_ Hr].
  apply (no_linefeed_class (notIn ["]"%char; LF])) in Hr; [|reflexivity].
  unfold noLineFeed in Hr. rewrite !every_append, Hr. reflexivity.
Qed.

(** A header line, anywhere in the text, gives a diagnostic with the
    parts of the line as its header fields. *)
Lemma header_parsed (host : Host) (before after : list string)
      (path lineStr columnStr sev msg : string) (rule : option string) :
  Forall (fun l => noLineFeed l = true) before ->
  Forall (fun l => noLineFeed l = true) after ->
  isAbsolutePath path = true ->
  isNumber lineStr = true -> isNumber columnStr = true ->
  In sev validSeverities ->
  isMessage msg = true -> bracketsClosed msg = true ->
  match rule with Some r => isRule r = true | None => True end ->
  headerParsed host
    (joinLines
       (before ++ headerLine path lineStr columnStr sev msg rule :: after))
    path (JS.parseInt lineStr) (JS.parseInt columnStr) sev msg
    (match rule with Some r => r | None => EmptyString end).
Proof.
  intros Hbefore Hafter Hpath Hl Hc Hsev Hmsg Hclosed Hrule.
  destruct (severity_known sev Hsev) as (Hsne & Halpha & Hvalid).
  set (hdr := headerLine path lineStr columnStr sev msg rule).
  assert (Hexec := exec_headerLine path lineStr columnStr sev msg rule
                     Hpath Hl Hc Hsne Halpha Hmsg Hclosed Hrule).
  fold hdr in Hexec.
  assert (Hsplit : JS.split LF (joinLines (before ++ hdr :: after))
                   = before ++ hdr :: after).
  { apply split_joinLines; [destruct before; discriminate|].
    apply Forall_app. split; [exact Hbefore|]. constructor; [|exact Hafter].
    apply headerLine_no_linefeed; assumption. }
  unfold headerParsed, parseClangTidyText, parseWith,
    transformTextToDiagnostics, parseLoop, parseLines.
  rewrite Hsplit, fold_left_app. cbn [fold_left Exn.try_catch].
  set (st0 := fold_left processLine before initialState).
  rewrite (processLine_header st0 hdr _ Hexec).
  assert (Hcap4 : capture 4 (match rule with
                             | Some r => [(6, r)] | None => [] end
                             ++ [(5, msg); (4, sev); (3, columnStr);
                                 (2, lineStr); (1, path)]) = sev)
    by (destruct rule; reflexivity).
  rewrite Hcap4, Hvalid.
  set (d0 := mkDiagnostic _ _ _ _ _ _ None None None).
  set (st1 := mkLoopState (diagnostics st0 ++ [d0]) _ _ _).
  assert (H0 : diagnostics st1 !! List.length (diagnostics st0) = Some d0).
  { subst st1. simpl. apply list_lookup_middle. reflexivity. }
  destruct (parse_keeps after st1 _ d0 H0) as (d1 & H1 & Hs1).
  destruct (enrich_cells host _ _ d1 H1) as (d2 & H2 & Hcell).
  eexists _, d2. split; [reflexivity|]. split.
  { apply list_elem_of_In, list_elem_of_lookup.
    exists (List.length (diagnostics st0)). exact H2. }
  pose proof (enriched_filled host d1 d2 Hcell) as (Hs2 & _).
  destruct (sameHeader_trans _ _ _ Hs1 Hs2) as (E1 & E2 & E3 & E4 & E5 & E6).
  rewrite E1, E2, E3, E4, E5, E6. subst d0. simpl.
  apply isMessage_spec in Hmsg. destruct Hmsg as (_ & _ & Htrim).
  destruct rule; cbv [capture group Nat.eqb app]; rewrite Htrim;
    repeat split.
Qed.

End HeaderParse.

(** ** Source lines *)

Section CodeLine.
Import Regex TextParser.

Lemma codeLine_test (w num w2 rest : string) :
  String.length w = 3 -> JS.every JS.isWhiteSpace w = true ->
  isNumber num = true ->
  w2 <> EmptyString -> JS.every JS.isWhiteSpace w2 = true ->
  test codeLineRegex (w +:+ num +:+ w2 +:+ "|" +:+ rest) = true.
Proof.
  intros Hlen Hw Hnum Hne Hw2. apply isNumber_spec in Hnum.
  destruct Hnum as [Hnne Hdigits].
  assert (Hhead : JS.headIn JS.isDigit w2 = false).
  { destruct w2 as [|a w2]; [congruence|]. simpl in *.
    apply andb_prop in Hw2. destruct Hw2 as [Ha _].
    apply whitespace_cases in Ha. tauto. }
  unfold test, exec, codeLineRegex.
  assert (Hrun : run (Rep 3 JS.isWhiteSpace &> Plus JS.isDigit
                      &> Plus JS.isWhiteSpace &> chr "|")%regex
                     (w +:+ num +:+ w2 +:+ "|" +:+ rest) []
                     (fun _ c => Some c) = Some []).
  { rewrite run_Seq. change (run (Rep 3 ?p)) with (repeatN 3 p).
    rewrite <- Hlen, repeatN_append by exact Hw. rewrite run_Seq.
    apply run_Plus_append; [exact Hnne | exact Hdigits | |].
    { rewrite headIn_append by exact Hne. exact Hhead. }
    cbv beta. rewrite run_Seq.
    apply run_Plus_append; [exact Hne | exact Hw2 | reflexivity|].
    cbv beta. rewrite append_cons, append_nil_l, run_chr. reflexivity. }
  rewrite Hrun. reflexivity.
Qed.

Lemma codePart_value (pre rest : string) :
  JS.includes "|" rest = false -> JS.isEmpty (JS.trim rest) = false ->
  codePart (pre +:+ "|" +:+ rest) = JS.trim rest.
Proof.
  intros Hpipe Hblank. unfold codePart, JS.pop.
  rewrite append_cons, append_nil_l, split_append, (split_single _ _ Hpipe).
  rewrite last_snoc, Hblank. reflexivity.
Qed.

End CodeLine.

(** ** Decimal values and the scenario of the specification *)

(** [parseInt] reads positional decimal notation. *)
Lemma parseDigits_snoc (s : string) (c : ascii) :
  JS.every JS.isDigit s = true -> JS.isDigit c = true ->
  forall acc,
    JS.parseDigits acc (s +:+ String c EmptyString)
    = (10 * JS.parseDigits acc s + JS.digitValue c)%Z.
Proof.
  intros Hs Hc. induction s as [|x s IH]; intros acc.
  - rewrite append_nil_l. simpl. rewrite Hc. reflexivity.
  - rewrite append_cons. simpl in *. apply andb_prop in Hs.
    destruct Hs as [Hx Hs]. rewrite Hx. apply IH, Hs.
Qed.

Lemma decimal_snoc (s : string) (c : ascii) :
  JS.every JS.isDigit s = true -> JS.isDigit c = true ->
  JS.decimal (s +:+ String c EmptyString)
  = (10 * JS.decimal s + JS.digitValue c)%Z.
Proof. intros Hs Hc. apply parseDigits_snoc; assumption. Qed.

(** From 2^53 on the number stored is the nearest double, not the
    number written; a number of 310 digits is stored as Infinity. *)
Example parseInt_rounds :
  JS.parseInt "9007199254740992" = JS.Num 9007199254740992
  /\ JS.parseInt "9007199254740993" = JS.Num 9007199254740992
  /\ JS.parseInt "9007199254740995" = JS.Num 9007199254740996
  /\ JS.parseInt (JS.repeat "9" 310) = JS.Infinity.
Proof. repeat split; vm_compute; reflexivity. Qed.

(** The scenario of the specification: a header line, its source line
    and its caret line give one diagnostic with all its parts. *)
Example scenario_header_with_context :
  TextParser.parseClangTidyText Examples.noFiles
    (TextParser.joinLines
       [Examples.headerText; Examples.sourceText; Examples.caretText])
  = Exn.Returned
      [TextParser.mkDiagnostic "/p/f.cpp" (JS.Num 5) (JS.Num 9) "warning"
         "use of a signed integer operand" "bugprone-signed-char-bitwise"
         (Some "char c = 'a';") (Some Examples.caretText) None].
Proof. reflexivity. Qed.

(** Without a source line in the tool's output, the source line comes
    from the file and the caret is put under the column. *)
Example scenario_enriched_from_file :
  TextParser.parseClangTidyText Examples.fiveLines Examples.headerText
  = Exn.Returned
      [TextParser.mkDiagnostic "/p/f.cpp" (JS.Num 5) (JS.Num 9) "warning"
         "use of a signed integer operand" "bugprone-signed-char-bitwise"
         (Some "char other;") (Some "        ^") None].
Proof. reflexivity. Qed.

(** ** Searching and replacing *)

Section Replace.
Import JSString.


Lemma after_Some (p s r : string) : after p s = Some r -> s = p +:+ r.
Proof.
  revert s. induction p as [|a p IH]; intros s H; simpl in H.
  - injection H as ->. reflexivity.
  - destruct s as [|b s]; [discriminate|].
    destruct (JS.eqc a b) eqn:Hab; [|discriminate].
    apply eqc_eq in Hab. subst b. rewrite append_cons. f_equal.
    apply IH, H.
Qed.



(** A replacement without dollar sign is inserted as it is. *)
Lemma getSubstitution_plain (matched before rest replacement : string) :
  JS.includes "$" replacement = false ->
  getSubstitution matched before rest replacement = replacement.
Proof.
  induction replacement as [|a tl IH]; [reflexivity|]. simpl.
  destruct (JS.eqc a "$"); [discriminate|]. simpl. intros H.
  now rewrite IH.
Qed.

(** What [replace] does when the needle occurs: the text around the
    first occurrence is kept and the replacement is put in between. *)
Lemma replaceFrom_found (needle replacement : string) (s : string) :
  JS.includes "$" replacement = false ->
  forall before,
    includes needle s = true ->
    exists a b,
      s = a +:+ needle +:+ b
      /\ replaceFrom before needle replacement s
         = (before +:+ a) +:+ replacement +:+ b.
Proof.
  intros Hplain. induction s as [|c s IH]; intros before Hin.
  - simpl in Hin. rewrite orb_false_r in Hin. unfold startsWith in Hin.
    simpl. destruct (after needle EmptyString) as [r|] eqn:Hr;
      [|discriminate].
    exists EmptyString, r. split; [exact (after_Some _ _ _ Hr)|].
    now rewrite getSubstitution_plain, append_nil_r.
  - simpl in Hin. unfold startsWith in Hin. simpl.
    destruct (after needle (String c s)) as [r|] eqn:Hr.
    + exists EmptyString, r. split; [exact (after_Some _ _ _ Hr)|].
      now rewrite getSubstitution_plain, append_nil_r.
    + simpl in Hin. destruct (IH (before +:+ String c EmptyString) Hin)
        as (a & b & -> & Hrep).
      exists (String c a), b. split; [now rewrite append_cons|].
      rewrite Hrep, !append_assoc, append_cons, append_nil_l.
      reflexivity.
Qed.

Lemma count_append (c : ascii) (a b : string) :
  count c (a +:+ b) = count c a + count c b.
Proof.
  induction a as [|x a IH]; [reflexivity|]. rewrite append_cons. simpl.
  rewrite IH. lia.
Qed.

Lemma count_none (c : ascii) (s : string) :
  JS.includes c s = false -> count c s = 0.
Proof.
  induction s as [|x s IH]; [reflexivity|]. simpl.
  destruct (JS.eqc x c); [discriminate|]. exact IH.
Qed.

End Replace.

(** ** I18nService.t *)

Section Translate.
Import JSString I18nService.

Lemma placeholder_brace (index : nat) : 1 <= count "{" (placeholder index).
Proof. unfold placeholder. rewrite append_cons. simpl. lia. Qed.

Lemma replaceWhile_ends (ph param : string) :
  1 <= count "{" ph ->
  JS.includes "{" param = false -> JS.includes "$" param = false ->
  forall n translation,
    count "{" translation <= n ->
    exists result,
      count "{" result <= count "{" translation
      /\ forall fuel, n <= fuel ->
                      replaceWhile fuel ph param translation = Some result.
Proof.
  intros Hph Hbrace Hdollar. induction n as [|n IH]; intros t Hn.
  - exists t. split; [lia|]. intros fuel _.
    destruct (includes ph t) eqn:Hin.
    + exfalso.
      destruct (replaceFrom_found ph param t Hdollar EmptyString Hin)
        as (a & b & -> & _).
      rewrite !count_append in Hn. lia.
    + destruct fuel; simpl; now rewrite Hin.
  - destruct (includes ph t) eqn:Hin.
    + destruct (replaceFrom_found ph param t Hdollar EmptyString Hin)
        as (a & b & Ht & Hrep).
      rewrite append_nil_l in Hrep.
      assert (Hless : count "{" (replace ph param t) < count "{" t).
      { unfold replace. rewrite Hrep, Ht, !count_append.
        rewrite (count_none _ _ Hbrace). lia. }
      destruct (IH (replace ph param t)) as (r & Hr & Hrun); [lia|].
      exists r. split; [lia|]. intros fuel Hfuel.
      destruct fuel as [|fuel]; [lia|]. simpl. rewrite Hin.
      apply Hrun. lia.
    + exists t. split; [lia|]. intros fuel _.
      destruct fuel; simpl; now rewrite Hin.
Qed.

Lemma forEachParam_ends (params : list string) :
  Forall (fun p => JS.includes "{" p = false
                   /\ JS.includes "$" p = false) params ->
  forall index n translation,
    count "{" translation <= n ->
    exists result,
      forall fuel, n <= fuel ->
                   forEachParam fuel params index translation = Some result.
Proof.
  induction 1 as [|param params [Hb Hd] _ IH]; intros index n t Hn.
  - exists t. reflexivity.
  - destruct (replaceWhile_ends (placeholder index) param
                (placeholder_brace index) Hb Hd n t Hn)
      as (t' & Hcount & Hrun).
    destruct (IH (S index) n t') as (r & Hr); [lia|].
    exists r. intros fuel Hfuel. simpl. rewrite (Hrun fuel Hfuel).
    apply Hr, Hfuel.
Qed.


Lemma includes_append (c : ascii) (a b : string) :
  JS.includes c (a +:+ b) = JS.includes c a || JS.includes c b.
Proof.
  induction a as [|x a IH]; [reflexivity|]. rewrite append_cons. simpl.
  rewrite IH. apply orb_assoc.
Qed.

Lemma includes_needs_head (c : ascii) (needle s : string) :
  JS.includes c s = false -> includes (String c needle) s = false.
Proof.
  induction s as [|x s IH]; [reflexivity|]. simpl.
  destruct (JS.eqc x c) eqn:E; [discriminate|]. simpl. intros Hs.
  rewrite (IH Hs), orb_false_r. unfold startsWith. simpl.
  assert (Hsym : JS.eqc c x = false).
  { unfold JS.eqc in *. now rewrite Ascii.eqb_sym. }
  now rewrite Hsym.
Qed.

(** The failure message of the analysis, for an error output without
    brace and dollar sign: [t] returns, and without a translation of
    the key it returns the default text. *)
Lemma failure_message_ends (translations : string -> option string)
      (errorOutput : string) :
  JS.includes "{" errorOutput = false ->
  JS.includes "$" errorOutput = false ->
  exists shown,
    (translations "error.analysisFailed" = None ->
     shown = "Clang-Tidy analysis failed: " +:+ errorOutput)
    /\ forall fuel,
        count "{" (lookupTranslation translations "error.analysisFailed"
                     (Some ("Clang-Tidy analysis failed: " +:+ errorOutput)))
        <= fuel ->
        t fuel translations "error.analysisFailed"
          (Some ("Clang-Tidy analysis failed: " +:+ errorOutput))
          [errorOutput]
        = Some shown.
Proof.
  intros Hbrace Hdollar.
  destruct (translations "error.analysisFailed") as [text|] eqn:Hkey.
  - destruct (forEachParam_ends [errorOutput]
                ltac:(repeat constructor; assumption) 0 _ _
                (Nat.le_refl
                   (count "{"
                      (lookupTranslation translations "error.analysisFailed"
                         (Some ("Clang-Tidy analysis failed: "
                                +:+ errorOutput))))))
      as (shown & Hshown).
    exists shown. split; [discriminate|]. exact Hshown.
  - exists ("Clang-Tidy analysis failed: " +:+ errorOutput).
    split; [reflexivity|]. intros fuel _. unfold t, lookupTranslation.
    rewrite Hkey. cbn [orElse]. rewrite append_cons. cbn [JS.isEmpty].
    rewrite <- append_cons. cbn [forEachParam].
    assert (Hnone : includes (placeholder 0)
                      ("Clang-Tidy analysis failed: " +:+ errorOutput)
                    = false).
    { apply includes_needs_head. rewrite includes_append, Hbrace.
      reflexivity. }
    destruct fuel; cbn [replaceWhile]; rewrite Hnone; reflexivity.
Qed.

End Translate.

(** ** Header lines, severities and source lines *)

(** C4 (as amended). For a header line made of an absolute path, decimal
    line and column with values below 2^53, one of the four severities,
    a message without surrounding white space in which every bracket
    opened after white space is closed before the message ends, and a
    rule, anywhere in the text, the parser gives a diagnostic with
    exactly these parts, the line and the column being the decimal
    values written; for the same line without the rule suffix it gives
    the same diagnostic with an empty checkName. *)
Theorem header_round_trip
  (host : TextParser.Host) (before after : list string)
  (path lineStr columnStr sev msg rule : string) :
  Forall (fun l => TextParser.noLineFeed l = true) before ->
  Forall (fun l => TextParser.noLineFeed l = true) after ->
  TextParser.isAbsolutePath path = true ->
  TextParser.isNumber lineStr = true ->
  TextParser.isNumber columnStr = true ->
  (JS.decimal lineStr < JS.exactBelow)%Z ->
  (JS.decimal columnStr < JS.exactBelow)%Z ->
  In sev TextParser.validSeverities ->
  TextParser.isMessage msg = true ->
  TextParser.bracketsClosed msg = true ->
  TextParser.isRule rule = true ->
  TextParser.headerParsed host
    (TextParser.joinLines
       (before ++ TextParser.headerLine path lineStr columnStr sev msg
                                        (Some rule) :: after))
    path (JS.Num (JS.decimal lineStr)) (JS.Num (JS.decimal columnStr))
    sev msg rule
  /\ TextParser.headerParsed host
       (TextParser.joinLines
          (before ++ TextParser.headerLine path lineStr columnStr sev msg
                                           None :: after))
       path (JS.Num (JS.decimal lineStr)) (JS.Num (JS.decimal columnStr))
       sev msg EmptyString.
Proof.
  intros Hb Ha Hpath Hl Hc Hlv Hcv Hsev Hmsg Hclosed Hrule.
  rewrite <- (parseInt_exact lineStr Hlv), <- (parseInt_exact columnStr Hcv).
  split.
  - apply (header_parsed host before after path lineStr columnStr sev msg
                         (Some rule)); assumption.
  - apply (header_parsed host before after path lineStr columnStr sev msg None);
      try assumption. exact I.
Qed.

Lemma header_round_trip_witness :
  TextParser.headerParsed Examples.noFiles
    (TextParser.joinLines
       ([] ++ TextParser.headerLine "/p/f.cpp" "5" "9" "warning"
                "use of a signed integer operand"
                (Some "bugprone-signed-char-bitwise")
           :: [Examples.sourceText; Examples.caretText]))
    "/p/f.cpp" (JS.Num (JS.decimal "5")) (JS.Num (JS.decimal "9")) "warning"
    "use of a signed integer operand" "bugprone-signed-char-bitwise"
  /\ TextParser.headerParsed Examples.noFiles
       (TextParser.joinLines
          ([] ++ TextParser.headerLine "/p/f.cpp" "5" "9" "warning"
                   "use of a signed integer operand" None
              :: [Examples.sourceText; Examples.caretText]))
       "/p/f.cpp" (JS.Num (JS.decimal "5")) (JS.Num (JS.decimal "9"))
       "warning" "use of a signed integer operand" EmptyString.
Proof.
  apply (header_round_trip Examples.noFiles []
           [Examples.sourceText; Examples.caretText]
           "/p/f.cpp" "5" "9" "warning" "use of a signed integer operand"
           "bugprone-signed-char-bitwise").
  - constructor.
  - repeat constructor.
  - reflexivity.
  - reflexivity.
  - reflexivity.
  - reflexivity.
  - reflexivity.
  - simpl. auto.
  - reflexivity.
  - reflexivity.
  - reflexivity.
Defined.

(** C4 fails as stated: the header line whose message is [a [b]] and
    which has no rule suffix is parsed with message [a] and checkName
    [b], while the same line followed by the rule suffix [[c]] is parsed
    with message [a [b]] and checkName [c]. *)
Lemma header_without_rule_counterexample :
  TextParser.isMessage "a [b]" = true
  /\ TextParser.parseClangTidyText Examples.noFiles
       (TextParser.headerLine "/p/f.cpp" "5" "9" "warning" "a [b]" (Some "c"))
     = Exn.Returned [TextParser.mkDiagnostic "/p/f.cpp" (JS.Num 5) (JS.Num 9) "warning"
                                             "a [b]" "c" None None None]
  /\ TextParser.parseClangTidyText Examples.noFiles
       (TextParser.headerLine "/p/f.cpp" "5" "9" "warning" "a [b]" None)
     = Exn.Returned [TextParser.mkDiagnostic "/p/f.cpp" (JS.Num 5) (JS.Num 9) "warning"
                                             "a" "b" None None None]
  /\ ~ TextParser.headerParsed Examples.noFiles
         (TextParser.headerLine "/p/f.cpp" "5" "9" "warning" "a [b]" None)
         "/p/f.cpp" (JS.Num 5) (JS.Num 9) "warning" "a [b]" EmptyString.
Proof.
  split; [reflexivity|]. split; [reflexivity|]. split; [reflexivity|].
  intros (ds & d & Hparse & Hin & _ & _ & _ & _ & _ & Hcheck).
  vm_compute in Hparse. injection Hparse as <-.
  destruct Hin as [<- | []]. discriminate Hcheck.
Qed.

Lemma validateSeverity_unknown (v : string) :
  ~ In v TextParser.validSeverities -> TextParser.validateSeverity v = None.
Proof.
  intros Hv. unfold TextParser.validateSeverity.
  destruct (existsb _ _) eqn:He; [|reflexivity]. exfalso. apply Hv.
  apply existsb_exists in He. destruct He as (x & Hin & Heq).
  apply String.eqb_eq in Heq. subst x. exact Hin.
Qed.

(** C5 (as amended). A line that the header pattern matches and whose
    severity token, lower-cased, is not one of error, warning, note and
    fatal adds no diagnostic, counts as matched and as dropped, leaves no
    diagnostic in progress, and the loop goes on with the next line; the
    text made of one header line with severity oddity gives an empty
    list and a drop count of 1. *)
Theorem unknown_severity_dropped
  (st : TextParser.LoopState) (ln : string) (caps : Regex.captures) :
  Regex.exec TextParser.warningRegex ln = Some caps ->
  ~ In (JS.toLowerCase (TextParser.capture 4 caps))
       TextParser.validSeverities ->
  let dropped :=
    TextParser.mkLoopState (TextParser.diagnostics st) None
                           (S (TextParser.matchedWarnings st))
                           (S (TextParser.invalidSeverities st)) in
  TextParser.processLine st ln = dropped
  /\ (forall rest, fold_left TextParser.processLine (ln :: rest) st
                   = fold_left TextParser.processLine rest dropped)
  /\ TextParser.parseLoop Examples.oddityText
     = TextParser.mkLoopState [] None 1 1
  /\ forall host, TextParser.parseClangTidyText host Examples.oddityText
                = Exn.Returned [].
Proof.
  intros Hexec Hunknown dropped.
  assert (Hstep : TextParser.processLine st ln = dropped).
  { rewrite (processLine_header st ln caps Hexec).
    rewrite (validateSeverity_unknown _ Hunknown). reflexivity. }
  split; [exact Hstep|]. split; [intros rest; simpl; now rewrite Hstep|].
  split; [reflexivity | intros host; reflexivity].
Qed.

Lemma unknown_severity_dropped_witness :
  TextParser.processLine Examples.afterHeader Examples.oddityText
  = TextParser.mkLoopState [Examples.headerDiagnostic] None 2 1.
Proof.
  refine (proj1 (unknown_severity_dropped Examples.afterHeader
                   Examples.oddityText
                   [(6, "bugprone-signed-char-bitwise");
                    (5, "use of a signed integer operand"); (4, "oddity");
                    (3, "9"); (2, "5"); (1, "/p/f.cpp")] _ _)).
  - reflexivity.
  - simpl. intros [H | [H | [H | [H | []]]]]; discriminate H.
Defined.

(** C5 fails as stated: the token [Warning] is none of the four
    severities, yet its line gives a diagnostic (of severity warning)
    and is not counted as dropped. *)
Lemma capital_severity_counterexample :
  Regex.exec TextParser.warningRegex Examples.capitalText
  = Some [(6, "bugprone-signed-char-bitwise");
          (5, "use of a signed integer operand"); (4, "Warning");
          (3, "9"); (2, "5"); (1, "/p/f.cpp")]
  /\ ~ In "Warning" TextParser.validSeverities
  /\ TextParser.parseLoop Examples.capitalText
     = TextParser.mkLoopState [Examples.headerDiagnostic] (Some 0) 1 0.
Proof.
  split; [reflexivity|]. split; [|reflexivity].
  simpl. intros [H | [H | [H | [H | []]]]]; discriminate H.
Qed.

(** C6 (as amended). While a diagnostic is in progress, a line made of
    exactly three white space characters, a line number, white space and
    a pipe, followed by text that holds no further pipe and is not
    blank, sets the current diagnostic's codeLineFull to that text with
    the white space around it removed, and the diagnostic stays in
    progress. *)
Theorem source_line_sets_codeLineFull
  (st : TextParser.LoopState) (cur : nat) (d : TextParser.Diagnostic)
  (w num w2 rest : string) :
  TextParser.currentDiagnostic st = Some cur ->
  TextParser.diagnostics st !! cur = Some d ->
  String.length w = 3 -> JS.every JS.isWhiteSpace w = true ->
  TextParser.isNumber num = true ->
  w2 <> EmptyString -> JS.every JS.isWhiteSpace w2 = true ->
  JS.includes "|" rest = false -> JS.isEmpty (JS.trim rest) = false ->
  let st' := TextParser.processLine st (w +:+ num +:+ w2 +:+ "|" +:+ rest) in
  TextParser.diagnostics st' !! cur
  = Some (TextParser.setCodeLineFull (JS.trim rest) d)
  /\ TextParser.currentDiagnostic st' = Some cur
  /\ List.length (TextParser.diagnostics st')
     = List.length (TextParser.diagnostics st).
Proof.
  intros Hcur Hd Hlen Hw Hnum Hne Hw2 Hpipe Hblank st'.
  set (ln := w +:+ num +:+ w2 +:+ "|" +:+ rest) in *.
  assert (Hnonblank : JS.isEmpty (JS.trim ln) = false).
  { rewrite trim_blank. subst ln. rewrite !every_append, Hw.
    destruct (isNumber_spec num Hnum) as [Hnne Hdigits].
    destruct num as [|a num]; [congruence|]. simpl in *.
    apply andb_prop in Hdigits. destruct Hdigits as [Ha _].
    rewrite (digit_not_whitespace a Ha). reflexivity. }
  assert (Hnohdr : Regex.exec TextParser.warningRegex ln = None).
  { subst ln. destruct w as [|a w]; [discriminate|].
    rewrite append_cons. apply header_whitespace_first.
    simpl in Hw. apply andb_prop in Hw. tauto. }
  assert (Hcode : Regex.test TextParser.codeLineRegex ln = true)
    by (apply codeLine_test; assumption).
  assert (Hpart : TextParser.codePart ln = JS.trim rest).
  { subst ln.
    replace (w +:+ num +:+ w2 +:+ "|" +:+ rest)
      with ((w +:+ num +:+ w2) +:+ "|" +:+ rest)
      by (rewrite !append_assoc; reflexivity).
    apply codePart_value; assumption. }
  subst st'. unfold TextParser.processLine.
  rewrite Hnonblank, Hnohdr, Hcur, Hcode, Hpart. simpl.
  rewrite list_lookup_alter_eq, Hd, length_alter. auto.
Qed.

Lemma source_line_sets_codeLineFull_witness :
  let st' := TextParser.processLine Examples.afterHeader
               ("   " +:+ "5" +:+ " " +:+ "|" +:+ " char c = 'a';") in
  TextParser.diagnostics st' !! 0
  = Some (TextParser.setCodeLineFull (JS.trim " char c = 'a';")
                                     Examples.headerDiagnostic)
  /\ TextParser.currentDiagnostic st' = Some 0
  /\ List.length (TextParser.diagnostics st')
     = List.length (TextParser.diagnostics Examples.afterHeader).
Proof.
  apply (source_line_sets_codeLineFull Examples.afterHeader 0
           Examples.headerDiagnostic "   " "5" " " " char c = 'a';");
    try reflexivity.
  discriminate.
Defined.

(** C6 fails as stated: with four leading blanks the line is not taken
    as a source line, codeLineFull stays unset and the diagnostic is no
    longer in progress; and with a pipe in the source text only the text
    after the last pipe is stored. *)
Lemma source_line_counterexample :
  TextParser.processLine Examples.afterHeader "    5 | char c = 'a';"
  = TextParser.mkLoopState [Examples.headerDiagnostic] None 1 0
  /\ TextParser.codeLineFull Examples.headerDiagnostic = None
  /\ TextParser.processLine Examples.afterHeader "   5 | flags = a | b;"
     = TextParser.mkLoopState
         [TextParser.setCodeLineFull "b;" Examples.headerDiagnostic]
         (Some 0) 1 0.
Proof. repeat split; reflexivity. Qed.

(** C7. After the pass every record keeps the codeLineFull and the
    caretLine it had, when they were set to some text, and the fields
    the parser sets are never empty; records that have both fields are
    left as they are; and a second run of the pass changes nothing.
    This holds also when a file cannot be read and when a caret line
    cannot be built. *)
Theorem enrichment_keeps_captured_text (host : TextParser.Host) :
  (forall text i d,
      TextParser.diagnostics (TextParser.parseLoop text) !! i = Some d ->
      exists d',
        TextParser.enrichDiagnosticsWithSourceCode host
          (TextParser.diagnostics (TextParser.parseLoop text)) !! i = Some d'
        /\ (forall s, TextParser.codeLineFull d = Some s ->
                      TextParser.codeLineFull d' = Some s)
        /\ (forall s, TextParser.caretLine d = Some s ->
                      TextParser.caretLine d' = Some s))
  /\ (forall ds i d,
         ds !! i = Some d ->
         exists d',
           TextParser.enrichDiagnosticsWithSourceCode host ds !! i = Some d'
           /\ TextParser.filledFrom d d')
  /\ (forall ds,
         Forall (fun d =>
                   TextParser.truthy (TextParser.codeLineFull d) = true
                   /\ TextParser.truthy (TextParser.caretLine d) = true) ds ->
         TextParser.enrichDiagnosticsWithSourceCode host ds = ds)
  /\ (forall ds,
         TextParser.enrichDiagnosticsWithSourceCode host
           (TextParser.enrichDiagnosticsWithSourceCode host ds)
         = TextParser.enrichDiagnosticsWithSourceCode host ds).
Proof.
  split; [|split; [|split]].
  - intros text i d Hi.
    destruct (enrich_cells host _ i d Hi) as (d' & Hd' & Hcell).
    exists d'. split; [exact Hd'|].
    pose proof (parseLines_nonEmpty (JS.split TextParser.LF text)) as Hne.
    rewrite Forall_forall in Hne.
    destruct (Hne d) as (Hc & Hk & _).
    { apply list_elem_of_lookup. exists i. exact Hi. }
    destruct (enriched_filled host d d' Hcell) as (_ & _ & Hcode & Hcaret).
    split; intros s Hs.
    + rewrite Hcode, Hs; [reflexivity|]. rewrite Hs. simpl.
      specialize (Hc s Hs). destruct s; [congruence | reflexivity].
    + rewrite Hcaret, Hs; [reflexivity|]. rewrite Hs. simpl.
      specialize (Hk s Hs). destruct s; [congruence | reflexivity].
  - intros ds i d Hi.
    destruct (enrich_cells host ds i d Hi) as (d' & Hd' & Hcell).
    exists d'. split; [exact Hd' | exact (enriched_filled host d d' Hcell)].
  - apply enrich_fixed.
  - apply enrich_idempotent.
Qed.

Lemma enrichment_keeps_captured_text_witness :
  exists d',
    TextParser.enrichDiagnosticsWithSourceCode
      Examples.fiveLines
      (TextParser.diagnostics
         (TextParser.parseLoop
            (TextParser.joinLines
               [Examples.headerText; Examples.sourceText]))) !! 0
    = Some d'
    /\ (forall s,
           TextParser.codeLineFull
             (TextParser.setCodeLineFull "char c = 'a';"
                                         Examples.headerDiagnostic) = Some s ->
           TextParser.codeLineFull d' = Some s)
    /\ (forall s,
           TextParser.caretLine
             (TextParser.setCodeLineFull "char c = 'a';"
                                         Examples.headerDiagnostic) = Some s ->
           TextParser.caretLine d' = Some s).
Proof.
  apply (proj1 (enrichment_keeps_captured_text
                  Examples.fiveLines)
               (TextParser.joinLines
                  [Examples.headerText; Examples.sourceText]) 0).
  reflexivity.
Defined.

(** The raw output of a merged result is empty only for a single batch:
    two batches without output are joined into a line feed, so that the
    check below does not see them as a run without output. *)
Example combine_two_failed_batches :
  Extension.combine
    [ClangTidyRunner.mkParallelResult "" "spawn ENOENT" 1 0 (Some ["a.cpp"]);
     ClangTidyRunner.mkParallelResult "" "spawn ENOENT" 1 0 (Some ["b.cpp"])]
  = Extension.mkRunResult (String TextParser.LF EmptyString)
      ("spawn ENOENT" +:+ String TextParser.LF EmptyString +:+ "spawn ENOENT")
      1.
Proof. reflexivity. Qed.

(** C8 (as amended). With empty raw output and exit code 0 the run
    ends as a run without findings.  With empty raw output and
    another exit code it ends as a failure when the error output holds
    neither a brace nor a dollar sign: [i18n.t] then returns the
    message that is shown, which is the default text with the error
    output when the key has no translation. *)
Theorem failure_check
  (translations : string -> option string) (host : TextParser.Host)
  (errorOutput : string) (exitCode : Z) :
  let result := Extension.mkRunResult EmptyString errorOutput exitCode in
  (exitCode = 0%Z ->
   forall fuel,
     Extension.runClangTidyAnalysis fuel translations host result
     = Some (Extension.NoIssuesFound
               (I18nService.lookupTranslation translations
                  "info.noIssuesFound" None)))
  /\ (exitCode <> 0%Z ->
      JS.includes "{" errorOutput = false ->
      JS.includes "$" errorOutput = false ->
      exists shown,
        (translations "error.analysisFailed" = None ->
         shown = "Clang-Tidy analysis failed: " +:+ errorOutput)
        /\ forall fuel,
            JSString.count "{"
              (I18nService.lookupTranslation translations
                 "error.analysisFailed"
                 (Some ("Clang-Tidy analysis failed: " +:+ errorOutput)))
            <= fuel ->
            Extension.runClangTidyAnalysis fuel translations host result
            = Some (Extension.AnalysisFailed shown)).
Proof.
  intros result. split.
  - intros -> fuel. reflexivity.
  - intros Hcode Hbrace Hdollar.
    destruct (failure_message_ends translations errorOutput Hbrace Hdollar)
      as (shown & Hdefault & Hrun).
    exists shown. split; [exact Hdefault|]. intros fuel Hfuel.
    unfold Extension.runClangTidyAnalysis. subst result.
    cbn [Extension.exitCode Extension.rawOutput Extension.errorOutput].
    apply Z.eqb_neq in Hcode. rewrite Hcode. cbn [negb JS.isEmpty andb].
    now rewrite (Hrun fuel Hfuel).
Qed.

Lemma failure_check_witness :
  Extension.runClangTidyAnalysis 0 (fun _ => None) Examples.noFiles
    (Extension.mkRunResult EmptyString "spawn clang-tidy ENOENT" 1)
  = Some (Extension.AnalysisFailed
            "Clang-Tidy analysis failed: spawn clang-tidy ENOENT").
Proof.
  destruct (proj2 (failure_check (fun _ => None) Examples.noFiles
                     "spawn clang-tidy ENOENT" 1)
              ltac:(discriminate) eq_refl eq_refl)
    as (shown & Hdefault & Hrun).
  rewrite (Hrun 0 (Nat.le_refl 0)), (Hdefault eq_refl). reflexivity.
Defined.

(** C8 fails as stated: exit code 0 with empty raw output is not
    treated as a failed run. *)
Lemma empty_success_counterexample :
  Extension.runClangTidyAnalysis 0 (fun _ => None) Examples.noFiles
    (Extension.mkRunResult EmptyString "clang-tidy: no input" 0)
  = Some (Extension.NoIssuesFound "info.noIssuesFound")
  /\ forall e,
      Extension.runClangTidyAnalysis 0 (fun _ => None) Examples.noFiles
        (Extension.mkRunResult EmptyString "clang-tidy: no input" 0)
      <> Some (Extension.AnalysisFailed e).
Proof. split; [reflexivity | intros e; discriminate]. Qed.

(** C10 (as amended). parseClangTidyText returns a list for every
    text and never throws.  An error raised during the enrichment, by
    the read of a file or by the construction of a caret line, is
    caught for that file: the diagnostics of the text are all
    returned, each as it was parsed or as the enrichment leaves it;
    those of a file that cannot be read, and those behind the
    diagnostic on which the enrichment of their file stopped, are
    returned as they were parsed.  The empty list stands for an error
    that reaches the handler of parseClangTidyText itself. *)
Theorem parseClangTidyText_never_throws
  (host : TextParser.Host) (text : string) :
  let parsed := TextParser.diagnostics (TextParser.parseLoop text) in
  (exists ds,
      TextParser.parseClangTidyText host text = Exn.Returned ds
      /\ Forall2 (TextParser.enriched host) parsed ds
      /\ (forall i d message,
             parsed !! i = Some d ->
             TextParser.readFileSync host (TextParser.filePath d)
             = Exn.Thrown message ->
             ds !! i = Some d)
      /\ (forall i d content,
             parsed !! i = Some d ->
             TextParser.readFileSync host (TextParser.filePath d)
             = Exn.Returned content ->
             TextParser.abortedBefore host (JS.split TextParser.LF content)
               i parsed (TextParser.filePath d) = true ->
             ds !! i = Some d))
  /\ forall transform,
      TextParser.parseWith transform text
      = match transform text with
        | Exn.Returned ds => Exn.Returned ds
        | Exn.Thrown _ => Exn.Returned []
        end.
Proof.
  intros parsed. split.
  - exists (TextParser.enrichDiagnosticsWithSourceCode host parsed).
    split; [reflexivity|]. split; [apply enrich_Forall2|]. split.
    + intros i d message Hi Hread.
      rewrite (enrich_lookup host parsed i d Hi).
      unfold TextParser.enrichPath. rewrite Hread. exact Hi.
    + intros i d content Hi Hread Hab.
      rewrite (enrich_lookup host parsed i d Hi).
      unfold TextParser.enrichPath. rewrite Hread.
      rewrite (enrichRecords_lookup host _ _ parsed i d Hi eq_refl).
      unfold TextParser.abortedBefore in Hab. now rewrite Hab.
  - intros transform. unfold TextParser.parseWith, Exn.try_catch.
    destruct (transform text); reflexivity.
Qed.

(** C10 fails as stated: the error raised by the read of the source
    file during the enrichment is caught, and the list returned is the
    diagnostic of the text, not the empty list. *)
Lemma enrichment_error_counterexample :
  TextParser.readFileSync Examples.noFiles "/p/f.cpp" = Exn.Thrown "ENOENT"
  /\ TextParser.parseClangTidyText Examples.noFiles Examples.headerText
     = Exn.Returned [Examples.headerDiagnostic]
  /\ TextParser.parseClangTidyText Examples.noFiles Examples.headerText
     <> Exn.Returned [].
Proof. split; [reflexivity|]. split; [reflexivity | discriminate]. Qed.

(* ===================================================================== *)
(** * Further properties *)
(* ===================================================================== *)

(** ** executeCommand and commandExists *)

Section Listening.
Import ProcessUtils ProcessLookup.

Lemma listen_collects (t0 : Z) (events : list ChildEvent) :
  forall out err,
    listen t0 events out err
    = match firstSettling events with
      | Some (CloseEvent code now) =>
          Resolved (mkProcessResult
                      (out +:+ collected (stdoutChunks events))
                      (err +:+ collected (stderrChunks events))
                      (orZero code) (now - t0))
      | Some (ErrorEvent message) => Rejected message
      | _ => Pending
      end.
Proof.
  induction events as [|e events IH]; intros out err; [reflexivity|].
  destruct e as [data|data|code now|message]; simpl.
  - rewrite IH. destruct (firstSettling events) as [[| |code now|m]|];
      try reflexivity.
    rewrite append_assoc. reflexivity.
  - rewrite IH. destruct (firstSettling events) as [[| |code now|m]|];
      try reflexivity.
    rewrite append_assoc. reflexivity.
  - rewrite !append_nil_r. reflexivity.
  - reflexivity.
Qed.

End Listening.

(** X1. executeCommand settles with the first close or error event and
    ignores what the child emits afterwards; a resolved result holds
    the stdout chunks received until then, in order, and the stderr
    chunks likewise, however the two streams interleave. *)
Theorem executeCommand_collects_output
  (t0 : Z) (events : list ProcessUtils.ChildEvent) :
  ProcessUtils.executeCommand t0 events
  = match ProcessLookup.firstSettling events with
    | Some (ProcessUtils.CloseEvent code now) =>
        ProcessUtils.Resolved
          (ProcessUtils.mkProcessResult
             (ProcessLookup.collected (ProcessLookup.stdoutChunks events))
             (ProcessLookup.collected (ProcessLookup.stderrChunks events))
             (ProcessUtils.orZero code) (now - t0))
    | Some (ProcessUtils.ErrorEvent message) => ProcessUtils.Rejected message
    | _ => ProcessUtils.Pending
    end.
Proof.
  unfold ProcessUtils.executeCommand. rewrite listen_collects.
  destruct (ProcessLookup.firstSettling events) as [[| |code now|m]|];
    reflexivity.
Qed.

(** X2. commandExists answers true as soon as the lookup child closes,
    whatever its exit code: also when the lookup exits with code 1
    because the command is not found.  It answers false only when the
    lookup child itself cannot be started. *)
Theorem commandExists_ignores_exit_code
  (t0 : Z) (events : list ProcessUtils.ChildEvent) :
  ProcessLookup.commandExists t0 events
  = match ProcessLookup.firstSettling events with
    | Some (ProcessUtils.CloseEvent _ _) => Some true
    | Some (ProcessUtils.ErrorEvent _) => Some false
    | _ => None
    end.
Proof.
  unfold ProcessLookup.commandExists, ProcessUtils.executeCommand.
  rewrite listen_collects.
  destruct (ProcessLookup.firstSettling events) as [[| |code now|m]|];
    reflexivity.
Qed.

(** ** The worker pool, whatever the children do *)

Section PoolRuns.
Import ProcessUtils ProcessLookup.
Variable sp : Spawner.
Variable tasks : list Task.

(** A pool that has settled went through settled invocations only. *)
Lemma eventLoop_sound (fuel : nat) :
  forall (schedule : list nat) (p p' : Pool),
    eventLoop fuel sp (List.length tasks) schedule p = Some p' ->
    poolInv sp tasks p ->
    (inflight p = [] -> queue p = []) ->
    poolInv sp tasks p' /\ inflight p' = [] /\ queue p' = [].
Proof.
  induction fuel as [|fuel IH]; intros schedule p p' Hrun Hinv Hbusy.
  - simpl in Hrun. destruct (inflight p) eqn:Hfl; [|discriminate].
    injection Hrun as <-. auto.
  - simpl in Hrun. destruct (inflight p) as [|w0 ws] eqn:Hfl.
    + injection Hrun as <-. auto.
    + destruct (readyWorkers sp p !! _) as [j|]; [|discriminate].
      destruct ((w0 :: ws) !! j) as [w|] eqn:Hw; [|discriminate].
      destruct (pushed (invoke sp w)) as [r|] eqn:Hr; [|discriminate].
      apply (IH _ _ _ Hrun).
      * apply (resume_inv sp tasks p j w r Hinv); [rewrite Hfl; exact Hw|].
        exact Hr.
      * apply executeNext_busy.
Qed.

Lemma executeNext_progress (p : Pool) :
  progressInv tasks p -> progressInv tasks (executeNext (List.length tasks) p).
Proof.
  unfold executeNext, progressInv. destruct (queue p); auto.
Qed.

Lemma startWorkers_progress (n : nat) :
  forall p, progressInv tasks p ->
            progressInv tasks (startWorkers n (List.length tasks) p).
Proof.
  induction n as [|n IH]; intros p Hp; simpl; [exact Hp|].
  apply IH, executeNext_progress, Hp.
Qed.

Lemma resume_progress (p : Pool) (j : nat) (r : ProcessResult) :
  progressInv tasks p -> progressInv tasks (resume (List.length tasks) j r p).
Proof.
  intros Hp. unfold resume. apply executeNext_progress.
  unfold progressInv in *. simpl. rewrite Hp. unfold progressCalls.
  rewrite seq_S, map_app. reflexivity.
Qed.

Lemma eventLoop_progress (fuel : nat) :
  forall (schedule : list nat) (p p' : Pool),
    eventLoop fuel sp (List.length tasks) schedule p = Some p' ->
    progressInv tasks p -> progressInv tasks p'.
Proof.
  induction fuel as [|fuel IH]; intros schedule p p' Hrun Hp.
  - simpl in Hrun. destruct (inflight p); [|discriminate].
    injection Hrun as <-. exact Hp.
  - simpl in Hrun. destruct (inflight p) as [|w0 ws] eqn:Hfl.
    + injection Hrun as <-. exact Hp.
    + destruct (readyWorkers sp p !! _) as [j|]; [|discriminate].
      destruct ((w0 :: ws) !! j) as [w|]; [|discriminate].
      destruct (pushed (invoke sp w)) as [r|]; [|discriminate].
      apply (IH _ _ _ Hrun). apply resume_progress, Hp.
Qed.

(** The pool's start: the invariant holds and a worker is suspended
    unless there is no task. *)
Lemma startWorkers_ready (maxWorkers : Z) :
  (1 <= maxWorkers)%Z ->
  let n := Z.to_nat (Z.min maxWorkers (Z.of_nat (List.length tasks))) in
  let p := startWorkers n (List.length tasks) (mkPool tasks [] [] 0 [] []) in
  poolInv sp tasks p /\ (inflight p = [] -> queue p = []).
Proof.
  intros Hw n p. split.
  - apply startWorkers_inv, poolInv_initial.
  - intros Hnil. destruct (Nat.eq_dec (List.length tasks) 0) as [Hz|Hnz].
    + subst p. replace n with 0 by (subst n; lia). simpl.
      apply nil_length_inv. exact Hz.
    + exfalso. revert Hnil. apply (startWorkers_busy tasks n).
      subst n. simpl queue. lia.
Qed.

End PoolRuns.

(** X3. With at least one worker and children that all settle,
    onProgress is called once per task, with the counts 1, 2, ... up to
    the number of tasks, in this order whatever the order in which the
    children complete. *)
Theorem executeParallel_reports_progress
  (sp : ProcessUtils.Spawner) (tasks : list ProcessUtils.Task)
  (maxWorkers : Z) (schedule : list nat) :
  ProcessUtils.allSettle sp tasks -> (1 <= maxWorkers)%Z ->
  exists p,
    ProcessUtils.runPool sp tasks maxWorkers schedule = Some p
    /\ ProcessUtils.progress p
       = map (fun k => (k, List.length tasks)) (seq 1 (List.length tasks)).
Proof.
  intros Hsettle Hw.
  destruct (runPool_complete sp tasks Hsettle maxWorkers schedule Hw)
    as (p & Hrun & _ & _ & Hc).
  exists p. split; [exact Hrun|].
  unfold ProcessUtils.runPool in Hrun.
  apply eventLoop_progress in Hrun.
  - unfold ProcessLookup.progressInv in Hrun. rewrite Hrun, Hc. reflexivity.
  - apply startWorkers_progress. reflexivity.
Qed.

Lemma executeParallel_reports_progress_witness :
  exists p,
    ProcessUtils.runPool Examples.echo
      [Examples.taskA; Examples.taskMissing; Examples.taskB] 2 [1; 0; 0]
    = Some p
    /\ ProcessUtils.progress p = [(1, 3); (2, 3); (3, 3)].
Proof.
  apply (executeParallel_reports_progress Examples.echo
           [Examples.taskA; Examples.taskMissing; Examples.taskB]
           2 [1; 0; 0]).
  - intros i t Hi.
    destruct i as [|[|[|i]]]; simpl in Hi; try discriminate;
      injection Hi as <-; reflexivity.
  - lia.
Defined.

(** X4. The pool has no timeout: with at least one worker, when the
    child of one task never closes and never fails, the promise of
    executeParallel never settles, whatever the other children do and
    in whatever order they complete. *)
Theorem executeParallel_waits_for_every_child
  (sp : ProcessUtils.Spawner) (tasks : list ProcessUtils.Task)
  (maxWorkers : Z) (schedule : list nat) (i : nat) (t : ProcessUtils.Task) :
  (1 <= maxWorkers)%Z ->
  tasks !! i = Some t ->
  ProcessUtils.invoke sp (i, t) = ProcessUtils.Pending ->
  ProcessUtils.executeParallel sp tasks maxWorkers schedule = None.
Proof.
  intros Hw Hi Hpending. unfold ProcessUtils.executeParallel.
  destruct (ProcessUtils.runPool sp tasks maxWorkers schedule) as [p|] eqn:Hrun;
    [exfalso | reflexivity].
  unfold ProcessUtils.runPool in Hrun.
  destruct (startWorkers_ready sp tasks maxWorkers Hw) as [Hinv Hbusy].
  destruct (eventLoop_sound sp tasks _ _ _ _ Hrun Hinv Hbusy)
    as ([_ _ Hperm _ _ _] & Hfl & Hq).
  rewrite Hfl, Hq in Hperm. simpl in Hperm. rewrite app_nil_r in Hperm.
  assert (Hin : In (ProcessUtils.pushed (ProcessUtils.invoke sp (i, t)))
                   (map Some (ProcessUtils.results p))).
  { eapply Permutation_in; [symmetry; exact Hperm|].
    apply list_elem_of_In, list_elem_of_lookup. exists i.
    apply outcomes_lookup, Hi. }
  rewrite Hpending in Hin. simpl in Hin.
  apply in_map_iff in Hin. destruct Hin as (r & Hr & _). discriminate.
Qed.

Lemma executeParallel_waits_for_every_child_witness :
  ProcessUtils.executeParallel Samples.hanging
    [Examples.taskA; Examples.taskB; Examples.taskMissing] 2 [0; 0; 0]
  = None.
Proof.
  apply (executeParallel_waits_for_every_child Samples.hanging
           [Examples.taskA; Examples.taskB; Examples.taskMissing]
           2 [0; 0; 0] 1 Examples.taskB).
  - lia.
  - reflexivity.
  - reflexivity.
Defined.

(** ** A single worker *)

Section SingleWorker.
Import ProcessUtils ProcessLookup.
Variable sp : Spawner.
Variable tasks : list Task.
Hypothesis settle : allSettle sp tasks.

Lemma executeNext_ordered (p : Pool) :
  poolInv sp tasks p -> inflight p = [] -> orderedInv sp tasks p ->
  orderedInv sp tasks (executeNext (List.length tasks) p).
Proof.
  intros Hinv Hnil [Hlen Heq]. unfold executeNext.
  destruct (queue p) as [|t q] eqn:Hq.
  - split; [exact Hlen|]. rewrite Hq. exact Heq.
  - pose proof (inv_len _ _ p Hinv) as Hle. rewrite Hq in Hle.
    simpl in Hle. rewrite Hnil in *.
    split; [simpl; lia|]. simpl. simpl in Heq. rewrite <- Heq.
    unfold indexedFrom. simpl. f_equal. f_equal. f_equal. f_equal.
    f_equal. lia.
Qed.

Lemma resume_ordered (p : Pool) (w : nat * Task) (r : ProcessResult) :
  poolInv sp tasks p -> orderedInv sp tasks p ->
  inflight p = [w] -> pushed (invoke sp w) = Some r ->
  orderedInv sp tasks (resume (List.length tasks) 0 r p).
Proof.
  intros Hinv [Hlen Heq] Hfl Hr. unfold resume.
  destruct Hinv as [Hl Hqueue Hperm Hin Hst Hc].
  apply executeNext_ordered.
  - constructor; simpl; try assumption.
    + rewrite Hfl. simpl. rewrite Hfl in Hperm. simpl in Hperm.
      rewrite Hr in Hperm. rewrite map_app, <- app_assoc. exact Hperm.
    + rewrite Hfl. constructor.
    + rewrite length_app. simpl. lia.
  - simpl. rewrite Hfl. reflexivity.
  - split; simpl; rewrite Hfl; simpl; [lia|].
    rewrite Hfl in Heq. simpl in Heq. rewrite Hr in Heq.
    rewrite map_app, <- app_assoc. exact Heq.
Qed.

Lemma eventLoop_ordered (fuel : nat) :
  forall (schedule : list nat) (p p' : Pool),
    eventLoop fuel sp (List.length tasks) schedule p = Some p' ->
    poolInv sp tasks p -> orderedInv sp tasks p ->
    orderedInv sp tasks p'.
Proof.
  induction fuel as [|fuel IH]; intros schedule p p' Hrun Hinv Hord.
  - simpl in Hrun. destruct (inflight p); [|discriminate].
    injection Hrun as <-. exact Hord.
  - simpl in Hrun. destruct (inflight p) as [|w0 ws] eqn:Hfl.
    + injection Hrun as <-. exact Hord.
    + assert (Hws : ws = []).
      { destruct Hord as [Hlen _]. rewrite Hfl in Hlen.
        destruct ws; [reflexivity | simpl in Hlen; lia]. }
      subst ws.
      rewrite (readyWorkers_all sp tasks settle p Hinv), Hfl in Hrun.
      change (List.length [w0]) with 1 in Hrun.
      change (seq 0 1) with [0] in Hrun.
      change (List.length [0]) with 1 in Hrun.
      rewrite Nat.mod_1_r in Hrun.
      change ([0] !! 0) with (Some 0) in Hrun. cbv beta iota in Hrun.
      change ([w0] !! 0) with (Some w0) in Hrun. cbv beta iota in Hrun.
      destruct (pushed (invoke sp w0)) as [r|] eqn:Hr; [|discriminate].
      apply (IH _ _ _ Hrun).
      * apply (resume_inv sp tasks p 0 w0 r Hinv); [rewrite Hfl|];
          [reflexivity | exact Hr].
      * apply (resume_ordered p w0 r Hinv Hord Hfl Hr).
Qed.

End SingleWorker.

(** X5. With a single worker and children that all settle, the result
    array is aligned with the task list: its i-th element is the result
    of the i-th task. *)
Theorem executeParallel_single_worker_in_order
  (sp : ProcessUtils.Spawner) (tasks : list ProcessUtils.Task)
  (schedule : list nat) :
  ProcessUtils.allSettle sp tasks ->
  exists results,
    ProcessUtils.executeParallel sp tasks 1 schedule = Some results
    /\ map Some results = ProcessUtils.outcomes sp tasks.
Proof.
  intros Hsettle.
  destruct (runPool_complete sp tasks Hsettle 1 schedule ltac:(lia))
    as (p & Hrun & _).
  exists (ProcessUtils.results p). unfold ProcessUtils.executeParallel.
  rewrite Hrun. split; [reflexivity|].
  unfold ProcessUtils.runPool in Hrun.
  destruct (startWorkers_ready sp tasks 1 ltac:(lia)) as [Hinv Hbusy].
  destruct (eventLoop_sound sp tasks _ _ _ _ Hrun Hinv Hbusy)
    as (_ & Hfl & Hq).
  apply (eventLoop_ordered sp tasks Hsettle) in Hrun; [|exact Hinv|].
  - destruct Hrun as [_ Heq]. rewrite Hfl, Hq in Heq. simpl in Heq.
    rewrite app_nil_r in Heq. exact Heq.
  - set (p0 := ProcessUtils.mkPool tasks [] [] 0 [] []).
    assert (H0 : ProcessLookup.orderedInv sp tasks p0).
    { split; [simpl; lia|]. simpl. rewrite Nat.sub_diag. reflexivity. }
    destruct (Z.to_nat (Z.min 1 (Z.of_nat (List.length tasks))))
      as [|[|k]] eqn:Hn; try lia; simpl.
    + exact H0.
    + apply executeNext_ordered; [apply poolInv_initial | reflexivity|].
      exact H0.
Qed.

Lemma executeParallel_single_worker_in_order_witness :
  exists results,
    ProcessUtils.executeParallel Examples.echo
      [Examples.taskA; Examples.taskMissing; Examples.taskB] 1 [1; 0; 0]
    = Some results
    /\ map Some results
       = ProcessUtils.outcomes Examples.echo
           [Examples.taskA; Examples.taskMissing; Examples.taskB].
Proof.
  apply (executeParallel_single_worker_in_order Examples.echo
           [Examples.taskA; Examples.taskMissing; Examples.taskB] [1; 0; 0]).
  intros i t Hi.
  destruct i as [|[|[|i]]]; simpl in Hi; try discriminate;
    injection Hi as <-; reflexivity.
Defined.

(** X6. Without a worker (maxWorkers at most 0) executeParallel
    resolves at once with an empty array: no task is started and
    onProgress is never called, however many tasks were given. *)
Theorem executeParallel_without_worker
  (sp : ProcessUtils.Spawner) (tasks : list ProcessUtils.Task)
  (maxWorkers : Z) (schedule : list nat) :
  (maxWorkers <= 0)%Z ->
  ProcessUtils.executeParallel sp tasks maxWorkers schedule = Some []
  /\ exists p,
      ProcessUtils.runPool sp tasks maxWorkers schedule = Some p
      /\ ProcessUtils.started p = [] /\ ProcessUtils.progress p = []
      /\ ProcessUtils.queue p = tasks.
Proof.
  intros Hw. unfold ProcessUtils.executeParallel.
  rewrite runPool_no_worker by exact Hw.
  split; [reflexivity|]. eexists. split; [reflexivity|]. auto.
Qed.

Lemma executeParallel_without_worker_witness :
  ProcessUtils.executeParallel Examples.echo
    [Examples.taskA; Examples.taskB] 0 []
  = Some [].
Proof.
  apply (executeParallel_without_worker Examples.echo
           [Examples.taskA; Examples.taskB] 0 []).
  lia.
Defined.

(** ** splitArray at its bounds *)

(** X7. splitArray with batch size 0 never returns on a non-empty
    array: the index does not advance, so the loop goes on for ever. *)
Theorem splitArray_zero_batch_size_never_ends
  {T : Type} (array : list T) :
  array <> [] ->
  forall fuel batches,
    ProcessUtils.splitLoop fuel array 0 0 batches = None.
Proof.
  intros Hne fuel.
  assert (Hlt : (0 <? List.length array) = true).
  { destruct array; [congruence | reflexivity]. }
  induction fuel as [|fuel IH]; intros batches; simpl; rewrite Hlt;
    [reflexivity | apply IH].
Qed.

Lemma splitArray_zero_batch_size_never_ends_witness :
  ProcessUtils.splitLoop 100 ["a.cpp"; "b.cpp"] 0 0 [] = None.
Proof.
  apply (splitArray_zero_batch_size_never_ends ["a.cpp"; "b.cpp"]).
  discriminate.
Defined.

Section BatchCount.
Context {T : Type}.

(** Batches that are full except for the last one hold more elements
    than one batch less could, and at most what they can. *)
Lemma batches_total (size : nat) (batches : list (list T)) :
  (forall k b, S k < List.length batches -> batches !! k = Some b ->
               List.length b = size) ->
  Forall (fun b => b <> [] /\ List.length b <= size) batches ->
  batches <> [] ->
  (List.length batches - 1) * size < List.length (concat batches)
  /\ List.length (concat batches) <= List.length batches * size.
Proof.
  induction batches as [|b rest IH]; intros Hfull Hall Hne; [congruence|].
  inversion Hall as [|? ? [Hb Hle] Hrest]; subst.
  simpl concat. rewrite length_app. simpl List.length.
  destruct rest as [|b' rest'].
  - simpl. destruct b; [congruence|]. simpl in *. lia.
  - assert (Hsize : List.length b = size).
    { apply (Hfull 0 b); [simpl; lia | reflexivity]. }
    destruct IH as [IH1 IH2]; [| exact Hrest | discriminate |].
    { intros k b0 Hk Hb0. apply (Hfull (S k) b0); [simpl in *; lia|].
      exact Hb0. }
    simpl List.length in *. split; nia.
Qed.

End BatchCount.

(** The batches of runParallel, with their number. *)
Lemma makeBatches_count (files : list string) (maxJobs : Z) :
  (1 <= maxJobs)%Z ->
  exists batches,
    ClangTidyRunner.makeBatches files maxJobs = Some batches
    /\ concat batches = files
    /\ (Z.of_nat (List.length batches) <= maxJobs)%Z
    /\ (files <> [] -> 1 <= List.length batches)
    /\ (2 <= List.length files -> (2 <= maxJobs)%Z ->
        2 <= List.length batches).
Proof.
  intros Hj.
  pose proof (batchSize_ceiling (List.length files) maxJobs Hj) as Hceil.
  set (size := ClangTidyRunner.batchSize (List.length files) maxJobs) in *.
  destruct (splitArray_spec files size)
    as (batches & Hrun & Hcat & Hall & Hfull).
  { destruct files as [|f files]; [right; reflexivity | left].
    simpl List.length in Hceil. nia. }
  exists batches. split; [exact Hrun|]. split; [exact Hcat|].
  destruct batches as [|b0 batches0] eqn:Hb.
  - simpl in Hcat. subst files. simpl.
    split; [lia|]. split; [congruence | lia].
  - rewrite <- Hb in *.
    destruct (batches_total size batches Hfull Hall) as [Hlo Hhi];
      [rewrite Hb; discriminate|].
    rewrite Hcat in Hlo, Hhi.
    assert (Hlen : 1 <= List.length batches)
      by (rewrite Hb; simpl; lia).
    split; [nia|]. split; [intros _; exact Hlen|].
    intros Hn Hj2.
    assert (Hsmall : size < List.length files) by nia.
    nia.
Qed.

(** X8. getParallelJobs returns a number between 1 and 8 for every
    setting, a fractional one as it is.  For the setting auto and for
    an integer setting it is an integer, and runParallel then builds
    its batches, never more of them than the job count: every batch
    has a worker of its own.  With at least two files and two jobs
    there are at least two batches. *)
Theorem runParallel_batch_count
  (files : list string) (cpus : Z) (setting : ClangTidyRunner.ParallelJobs) :
  (1 <= ClangTidyRunner.getParallelJobs cpus setting <= 8)%Q
  /\ (setting = ClangTidyRunner.Auto
      \/ (exists n, setting = ClangTidyRunner.Jobs (inject_Z n)) ->
      exists maxJobs batches,
        ClangTidyRunner.getParallelJobs cpus setting == inject_Z maxJobs
        /\ ClangTidyRunner.makeBatches files maxJobs = Some batches
        /\ (Z.of_nat (List.length batches) <= maxJobs <= 8)%Z
        /\ (files <> [] -> 1 <= List.length batches)
        /\ (2 <= List.length files -> (2 <= maxJobs)%Z ->
            2 <= List.length batches)).
Proof.
  split; [apply getParallelJobs_range|]. intros Hint.
  destruct (getParallelJobs_integer cpus setting Hint)
    as (maxJobs & Heq & Hrange).
  destruct (makeBatches_count files maxJobs ltac:(lia))
    as (batches & Hrun & _ & Hcount & Hone & Htwo).
  exists maxJobs, batches. repeat split; try assumption; lia.
Qed.

Lemma runParallel_batch_count_witness :
  exists maxJobs batches,
    ClangTidyRunner.getParallelJobs 16 (ClangTidyRunner.Jobs 3)
    == inject_Z maxJobs
    /\ ClangTidyRunner.makeBatches ["a.cpp"; "b.cpp"; "c.cpp"; "d.cpp"]
         maxJobs = Some batches
    /\ (Z.of_nat (List.length batches) <= maxJobs <= 8)%Z.
Proof.
  destruct (proj2 (runParallel_batch_count
                     ["a.cpp"; "b.cpp"; "c.cpp"; "d.cpp"] 16
                     (ClangTidyRunner.Jobs 3))
              (or_intror (ex_intro _ 3%Z eq_refl)))
    as (maxJobs & batches & Heq & Hrun & Hcount & _).
  exists maxJobs, batches. auto.
Defined.

(** A fractional setting is the job count as it is. *)
Example getParallelJobs_fraction :
  ClangTidyRunner.getParallelJobs 16 (ClangTidyRunner.Jobs 2.5) == 2.5.
Proof. reflexivity. Qed.

(** ** More on trim and split *)

Section TrimMore.

Lemma trimStart_head (s : string) :
  JS.headIn JS.isWhiteSpace (JS.trimStart s) = false.
Proof.
  induction s as [|a s IH]; [reflexivity|]. simpl.
  destruct (JS.isWhiteSpace a) eqn:Hw; [exact IH | simpl; exact Hw].
Qed.

Lemma trimStart_id (s : string) :
  JS.headIn JS.isWhiteSpace s = false -> JS.trimStart s = s.
Proof. destruct s as [|a s]; [reflexivity|]. simpl. now intros ->. Qed.

Lemma trimEnd_idem (s : string) : JS.trimEnd (JS.trimEnd s) = JS.trimEnd s.
Proof.
  induction s as [|a s IH]; [reflexivity|]. simpl.
  destruct (JS.isWhiteSpace a && JS.isEmpty (JS.trimEnd s)) eqn:Hc;
    [reflexivity|].
  simpl. rewrite IH, Hc. reflexivity.
Qed.

Lemma trimEnd_head (s : string) :
  JS.headIn JS.isWhiteSpace s = false ->
  JS.headIn JS.isWhiteSpace (JS.trimEnd s) = false.
Proof.
  destruct s as [|a s]; [reflexivity|]. simpl. intros Hw. rewrite Hw.
  simpl. exact Hw.
Qed.

Lemma trim_idem (s : string) : JS.trim (JS.trim s) = JS.trim s.
Proof.
  unfold JS.trim.
  rewrite (trimStart_id (JS.trimEnd (JS.trimStart s))).
  - apply trimEnd_idem.
  - apply trimEnd_head, trimStart_head.
Qed.

Lemma every_trimStart (p : ascii -> bool) (s : string) :
  JS.every p s = true -> JS.every p (JS.trimStart s) = true.
Proof.
  induction s as [|a s IH]; intros H; [reflexivity|]. simpl in *.
  apply andb_prop in H. destruct H as [Ha Hs].
  destruct (JS.isWhiteSpace a); [apply IH, Hs|]. simpl. now rewrite Ha, Hs.
Qed.

Lemma every_trimEnd (p : ascii -> bool) (s : string) :
  JS.every p s = true -> JS.every p (JS.trimEnd s) = true.
Proof.
  induction s as [|a s IH]; intros H; [reflexivity|]. simpl in *.
  apply andb_prop in H. destruct H as [Ha Hs].
  destruct (JS.isWhiteSpace a && JS.isEmpty (JS.trimEnd s));
    [reflexivity|].
  simpl. now rewrite Ha, IH.
Qed.

Lemma every_trim (p : ascii -> bool) (s : string) :
  JS.every p s = true -> JS.every p (JS.trim s) = true.
Proof. intros H. apply every_trimEnd, every_trimStart, H. Qed.

(** The pieces of a split hold no separator. *)
Lemma split_pieces (sep : ascii) (s : string) :
  Forall (fun piece => JS.every (Regex.notIn [sep]) piece = true)
         (JS.split sep s).
Proof.
  induction s as [|c s IH]; [repeat constructor|]. simpl.
  destruct (JS.eqc c sep) eqn:Hc.
  - constructor; [reflexivity | exact IH].
  - destruct (JS.split sep s) as [|piece pieces];
      [repeat constructor; simpl; unfold Regex.notIn; simpl;
       now rewrite Hc|].
    inversion IH as [|? ? Hpiece Hrest]; subst.
    constructor; [|exact Hrest]. simpl. rewrite Hpiece.
    unfold Regex.notIn. simpl. now rewrite Hc.
Qed.

End TrimMore.

(** ** parseChecksList *)

Section ChecksList.
Import ClangTidyCommand.

Lemma parseChecksList_fold (lines : list string) :
  forall checks,
    fold_left
      (fun checks ln =>
         let trimmedLine := JS.trim ln in
         if isCheck trimmedLine then checks ++ [trimmedLine] else checks)
      lines checks
    = checks ++ List.filter isCheck (map JS.trim lines).
Proof.
  induction lines as [|ln lines IH]; intros checks; simpl;
    [now rewrite app_nil_r|].
  rewrite IH. destruct (isCheck (JS.trim ln)); [|reflexivity].
  now rewrite <- app_assoc.
Qed.

Lemma parseChecksList_lines (lines : list string) :
  lines <> [] ->
  Forall (fun l => TextParser.noLineFeed l = true) lines ->
  parseChecksList (TextParser.joinLines lines)
  = List.filter isCheck (map JS.trim lines).
Proof.
  intros Hne Hall. unfold parseChecksList.
  rewrite (split_joinLines lines Hne Hall). apply parseChecksList_fold.
Qed.

Lemma parseChecksList_names (output : string) :
  Forall (fun c => isCheckName c = true) (parseChecksList output).
Proof.
  unfold parseChecksList. rewrite parseChecksList_fold. simpl.
  pose proof (split_pieces TextParser.LF output) as Hpieces.
  induction Hpieces as [|piece pieces Hpiece _ IH]; [constructor|].
  simpl. destruct (isCheck (JS.trim piece)) eqn:Hc; [|exact IH].
  constructor; [|exact IH]. unfold isCheckName.
  rewrite Hc, trim_idem, String.eqb_refl. simpl.
  apply every_trim, Hpiece.
Qed.

Lemma filter_check_names (names : list string) :
  Forall (fun c => isCheckName c = true) names ->
  List.filter isCheck (map JS.trim names) = names.
Proof.
  induction 1 as [|c names Hc _ IH]; [reflexivity|]. simpl.
  unfold isCheckName in Hc. apply andb_prop in Hc. destruct Hc as [Hc _].
  apply andb_prop in Hc. destruct Hc as [Hc Ht].
  apply String.eqb_eq in Ht. rewrite Ht, Hc, IH. reflexivity.
Qed.

Lemma check_names_no_linefeed (names : list string) :
  Forall (fun c => isCheckName c = true) names ->
  Forall (fun l => TextParser.noLineFeed l = true) names.
Proof.
  intros Hall. eapply Forall_impl; [exact Hall|].
  intros c Hc. unfold isCheckName in Hc.
  apply andb_prop in Hc. tauto.
Qed.

End ChecksList.

(** X9. Every name returned by parseChecksList is a line of the output
    without the white space around it, is not empty and starts neither
    with a dash nor with [Checks]; and parsing the returned names,
    printed one per line, gives them back. *)
Theorem parseChecksList_reparse (output : string) :
  Forall (fun c => ClangTidyCommand.isCheckName c = true)
         (ClangTidyCommand.parseChecksList output)
  /\ ClangTidyCommand.parseChecksList
       (TextParser.joinLines (ClangTidyCommand.parseChecksList output))
     = ClangTidyCommand.parseChecksList output.
Proof.
  pose proof (parseChecksList_names output) as Hnames.
  split; [exact Hnames|].
  destruct (ClangTidyCommand.parseChecksList output) as [|c cs] eqn:Hcs;
    [reflexivity|].
  rewrite parseChecksList_lines;
    [apply filter_check_names, Hnames | discriminate|].
  apply check_names_no_linefeed, Hnames.
Qed.

(** X10. On a listing as clang-tidy prints it, a heading line followed
    by the indented check names and an empty line, parseChecksList
    returns the names in order, and the heading [Enabled checks:] in
    front of them: only lines starting with a dash or with [Checks] are
    left out. *)
Theorem parseChecksList_keeps_heading (names : list string) :
  Forall (fun c => ClangTidyCommand.isCheckName c = true) names ->
  ClangTidyCommand.parseChecksList
    (TextParser.joinLines
       ("Enabled checks:" :: map (String.append "    ") names ++ [""]))
  = "Enabled checks:" :: names.
Proof.
  intros Hnames.
  rewrite parseChecksList_lines; [|discriminate|].
  - simpl. f_equal. rewrite map_app, List.filter_app. simpl.
    rewrite app_nil_r, map_map.
    rewrite <- (filter_check_names names Hnames) at 2.
    reflexivity.
  - constructor; [reflexivity|]. apply Forall_app. split.
    + apply check_names_no_linefeed in Hnames.
      induction Hnames as [|c cs Hc _ IH]; [constructor|].
      simpl. constructor; [|exact IH].
      unfold TextParser.noLineFeed in *. rewrite every_append, Hc.
      reflexivity.
    + repeat constructor.
Qed.

Lemma parseChecksList_keeps_heading_witness :
  ClangTidyCommand.parseChecksList
    (TextParser.joinLines
       ("Enabled checks:"
          :: map (String.append "    ")
                 ["bugprone-argument-comment"; "modernize-use-nullptr"]
          ++ [""]))
  = ["Enabled checks:"; "bugprone-argument-comment"; "modernize-use-nullptr"].
Proof.
  apply (parseChecksList_keeps_heading
           ["bugprone-argument-comment"; "modernize-use-nullptr"]).
  repeat constructor.
Defined.

(** ** The arguments of the tasks *)

Lemma filter_concat {A : Type} (f : A -> bool) (ls : list (list A)) :
  List.filter f (concat ls) = concat (map (List.filter f) ls).
Proof.
  induction ls as [|l ls IH]; [reflexivity|]. simpl.
  now rewrite List.filter_app, IH.
Qed.

(** X11. In runParallel every task gets the same option arguments
    followed by the C/C++ files of its batch; over all tasks these file
    arguments are the C/C++ files of the input, each once and in order.
    A file with another extension is passed to no task, and a batch
    without C/C++ file still gives a task, without file argument. *)
Theorem runParallel_passes_each_cpp_file_once
  (pf : ClangTidyCommand.Platform) (cfg : ClangTidyCommand.Configuration)
  (options : ClangTidyCommand.RunOptions) (clangTidyPath cwd : string)
  (files : list string) (maxJobs : Z) :
  (1 <= maxJobs)%Z ->
  let r := ClangTidyCommand.runner pf cfg options clangTidyPath cwd in
  let opts := ClangTidyCommand.optionArguments pf cfg options in
  exists batches,
    ClangTidyRunner.makeBatches files maxJobs = Some batches
    /\ (forall batch,
          ProcessUtils.args (ClangTidyRunner.makeTask r batch)
          = opts ++ List.filter (ClangTidyCommand.isCppFile pf) batch)
    /\ concat (map (fun batch =>
                      skipn (List.length opts)
                            (ProcessUtils.args
                               (ClangTidyRunner.makeTask r batch)))
                   batches)
       = List.filter (ClangTidyCommand.isCppFile pf) files.
Proof.
  intros Hj r opts.
  destruct (makeBatches_count files maxJobs Hj)
    as (batches & Hrun & Hcat & _).
  exists batches. split; [exact Hrun|]. split; [reflexivity|].
  rewrite <- Hcat, filter_concat. f_equal. apply map_ext. intros batch.
  simpl. unfold ClangTidyCommand.buildArguments. fold opts.
  rewrite skipn_app, skipn_all, Nat.sub_diag. reflexivity.
Qed.

Lemma runParallel_passes_each_cpp_file_once_witness :
  let r := ClangTidyCommand.runner Samples.flatPlatform
             Samples.plainConfiguration Samples.plainOptions
             "clang-tidy" "/w" in
  exists batches,
    ClangTidyRunner.makeBatches ["a.cpp"; "notes.txt"; "b.H"] 2 = Some batches
    /\ (forall batch,
          ProcessUtils.args (ClangTidyRunner.makeTask r batch)
          = ["-checks=*"; "-header-filter=/w"; "-p=/w/build"]
            ++ List.filter (ClangTidyCommand.isCppFile Samples.flatPlatform)
                           batch)
    /\ concat (map (fun batch =>
                      skipn 3 (ProcessUtils.args
                                 (ClangTidyRunner.makeTask r batch)))
                   batches)
       = ["a.cpp"; "b.H"].
Proof.
  apply (runParallel_passes_each_cpp_file_once Samples.flatPlatform
           Samples.plainConfiguration Samples.plainOptions
           "clang-tidy" "/w" ["a.cpp"; "notes.txt"; "b.H"] 2).
  lia.
Defined.

(** ** Runs without output *)

Section BlankOutput.
Import TextParser.

Lemma every_split (p : ascii -> bool) (sep : ascii) (s : string) :
  JS.every p s = true ->
  Forall (fun piece => JS.every p piece = true) (JS.split sep s).
Proof.
  induction s as [|c s IH]; intros H; [repeat constructor|].
  simpl in H. apply andb_prop in H. destruct H as [Hc Hs].
  specialize (IH Hs). simpl. destruct (JS.eqc c sep).
  - constructor; [reflexivity | exact IH].
  - destruct (JS.split sep s) as [|piece pieces].
    + repeat constructor. simpl. now rewrite Hc.
    + inversion IH as [|? ? Hpiece Hrest]; subst.
      constructor; [|exact Hrest]. simpl. now rewrite Hc, Hpiece.
Qed.

(** Blank lines leave the list of diagnostics as it is. *)
Lemma processLine_blank (st : LoopState) (ln : string) :
  JS.every JS.isWhiteSpace ln = true ->
  diagnostics (processLine st ln) = diagnostics st.
Proof.
  intros Hb. unfold processLine. rewrite trim_blank, Hb. reflexivity.
Qed.

Lemma parseLines_blank (lines : list string) :
  Forall (fun l => JS.every JS.isWhiteSpace l = true) lines ->
  forall st, diagnostics (fold_left processLine lines st) = diagnostics st.
Proof.
  induction 1 as [|l lines Hl _ IH]; intros st; [reflexivity|].
  simpl. rewrite IH. apply processLine_blank, Hl.
Qed.

(** A text of white space only holds no diagnostic. *)
Lemma parse_blank (host : Host) (text : string) :
  JS.every JS.isWhiteSpace text = true ->
  parseClangTidyText host text = Exn.Returned [].
Proof.
  intros Hb. unfold parseClangTidyText, parseWith, transformTextToDiagnostics.
  unfold parseLoop, parseLines.
  rewrite (parseLines_blank _ (every_split _ LF text Hb)). reflexivity.
Qed.

Lemma every_cons (p : ascii -> bool) (c : ascii) (s : string) :
  JS.every p (String c s) = p c && JS.every p s.
Proof. reflexivity. Qed.

Lemma join_empty_pieces (n : nat) :
  JS.every JS.isWhiteSpace
    (JS.join (String LF EmptyString) (List.repeat EmptyString n)) = true
  /\ (2 <= n ->
      JS.isEmpty (JS.join (String LF EmptyString)
                          (List.repeat EmptyString n)) = false).
Proof.
  induction n as [|n [IH _]]; [split; [reflexivity | lia]|].
  destruct n as [|n]; [split; [reflexivity | lia]|].
  change (List.repeat EmptyString (S (S n)))
    with (EmptyString :: EmptyString :: List.repeat EmptyString n).
  change (JS.join (String LF EmptyString)
                  (EmptyString :: EmptyString :: List.repeat EmptyString n))
    with (String LF (JS.join (String LF EmptyString)
                             (List.repeat EmptyString (S n)))).
  split; [|reflexivity]. rewrite every_cons, IH. reflexivity.
Qed.

Lemma all_empty_repeat (l : list string) :
  Forall (fun s => s = EmptyString) l ->
  l = List.repeat EmptyString (List.length l).
Proof.
  induction 1 as [|s l -> _ IH]; [reflexivity|]. simpl. now rewrite <- IH.
Qed.

Lemma map_imap {A B C : Type} (g : B -> C) (h : A -> C) (l : list A) :
  forall f : nat -> A -> B,
    (forall i x, g (f i x) = h x) -> map g (imap f l) = map h l.
Proof.
  induction l as [|x l IH]; intros f Hf; [reflexivity|]. simpl.
  rewrite Hf. f_equal. apply IH. intros i y. apply Hf.
Qed.

End BlankOutput.

(** The merged result of batches that printed nothing on stdout: it
    holds one line feed per batch after the first. *)
Lemma combine_without_output
      (parallelResults : list ClangTidyRunner.ParallelResult) :
  Forall (fun pr => ClangTidyRunner.rawOutput pr = EmptyString)
         parallelResults ->
  JS.every JS.isWhiteSpace
    (Extension.rawOutput (Extension.combine parallelResults)) = true
  /\ (2 <= List.length parallelResults ->
      JS.isEmpty (Extension.rawOutput (Extension.combine parallelResults))
      = false).
Proof.
  intros Hall. unfold Extension.combine. simpl.
  assert (Hmap : Forall (fun s => s = EmptyString)
                        (map ClangTidyRunner.rawOutput parallelResults)).
  { induction Hall; simpl; constructor; assumption. }
  rewrite (all_empty_repeat _ Hmap), length_map.
  apply join_empty_pieces.
Qed.

(** What runParallel returns when every child settles without any
    output on stdout. *)
Lemma runParallel_without_output
      (r : ClangTidyRunner.Runner) (sp : ProcessUtils.Spawner)
      (maxJobs : Z) (schedule : list nat) (files : list string) :
  (1 <= maxJobs)%Z ->
  (forall i t, exists res,
      ProcessUtils.pushed (ProcessUtils.invoke sp (i, t)) = Some res
      /\ ProcessUtils.stdout res = EmptyString) ->
  exists batches parallelResults,
    ClangTidyRunner.makeBatches files maxJobs = Some batches
    /\ ClangTidyRunner.runParallel r sp maxJobs schedule files
       = Some parallelResults
    /\ List.length parallelResults = List.length batches
    /\ Forall (fun pr => ClangTidyRunner.rawOutput pr = EmptyString)
              parallelResults.
Proof.
  intros Hj Hout.
  destruct (makeBatches_count files maxJobs Hj) as (batches & Hrun & _).
  set (tasks := map (ClangTidyRunner.makeTask r) batches).
  assert (Hsettle : ProcessUtils.allSettle sp tasks).
  { intros i t _. unfold ProcessUtils.settled.
    destruct (Hout i t) as (res & -> & _). reflexivity. }
  destruct (runPool_complete sp tasks Hsettle maxJobs schedule Hj)
    as (p & Hpool & Hperm & _ & _).
  exists batches, (imap (ClangTidyRunner.toParallelResult batches)
                        (ProcessUtils.results p)).
  split; [exact Hrun|]. split; [|split].
  - unfold ClangTidyRunner.runParallel. rewrite Hrun. fold tasks.
    unfold ProcessUtils.executeParallel. rewrite Hpool. reflexivity.
  - rewrite length_imap. apply Permutation_length in Hperm.
    rewrite length_map in Hperm. rewrite Hperm.
    unfold ProcessUtils.outcomes, ProcessUtils.indexedFrom.
    rewrite length_map, length_combine, length_seq. subst tasks.
    rewrite length_map. lia.
  - assert (Hres : Forall (fun res => ProcessUtils.stdout res = EmptyString)
                          (ProcessUtils.results p)).
    { apply List.Forall_forall. intros res Hin.
      assert (Hin' : In (Some res) (ProcessUtils.outcomes sp tasks)).
      { eapply Permutation_in; [exact Hperm|]. apply in_map, Hin. }
      unfold ProcessUtils.outcomes in Hin'. apply in_map_iff in Hin'.
      destruct Hin' as ([i t] & Hpush & _).
      destruct (Hout i t) as (res' & Hpush' & Hempty).
      rewrite Hpush' in Hpush. injection Hpush as <-. exact Hempty. }
    apply List.Forall_forall. intros pr Hin.
    assert (Hmap : In (ClangTidyRunner.rawOutput pr)
                      (map ProcessUtils.stdout (ProcessUtils.results p))).
    { rewrite <- (map_imap ClangTidyRunner.rawOutput ProcessUtils.stdout
                           (ProcessUtils.results p)
                           (ClangTidyRunner.toParallelResult batches))
        by reflexivity.
      apply in_map, Hin. }
    apply in_map_iff in Hmap. destruct Hmap as (res & <- & Hres').
    rewrite List.Forall_forall in Hres. apply Hres, Hres'.
Qed.

(** X12. A run whose children cannot be started, or print nothing on
    stdout, is reported as failed only on the single-run path.  With
    one file and an error message without brace and dollar sign, the
    analysis ends as failed, with the message that [i18n.t] returns;
    with at least two files and two jobs the batches are merged with
    line feeds, the merged output is not empty, the failure check does
    not fire, and the analysis ends as a run without findings. *)
Theorem failure_reported_for_single_run_only
  (translations : string -> option string)
  (host : TextParser.Host) (r : ClangTidyRunner.Runner)
  (sp : ProcessUtils.Spawner) (maxJobs : Z) (schedule : list nat)
  (startTime now : Z) (files : list string) :
  (List.length files <= 1 ->
   forall message,
     ProcessUtils.invoke sp (0, ClangTidyRunner.makeTask r files)
     = ProcessUtils.Rejected message ->
     JS.includes "{" message = false ->
     JS.includes "$" message = false ->
     exists shown,
       (translations "error.analysisFailed" = None ->
        shown = "Clang-Tidy analysis failed: " +:+ message)
       /\ forall fuel,
           JSString.count "{"
             (I18nService.lookupTranslation translations
                "error.analysisFailed"
                (Some ("Clang-Tidy analysis failed: " +:+ message)))
           <= fuel ->
           Analysis.run fuel translations host r sp maxJobs schedule
                        startTime now files
           = Some (Extension.AnalysisFailed shown))
  /\ (2 <= List.length files -> (2 <= maxJobs)%Z ->
      (forall i t, exists res,
          ProcessUtils.pushed (ProcessUtils.invoke sp (i, t)) = Some res
          /\ ProcessUtils.stdout res = EmptyString) ->
      forall fuel,
        Analysis.run fuel translations host r sp maxJobs schedule
                     startTime now files
        = Some (Extension.NoIssuesFound
                  (I18nService.lookupTranslation translations
                     "info.noIssuesFound" None))).
Proof.
  split.
  - intros Hlen message Hrej Hbrace Hdollar.
    destruct (failure_message_ends translations message Hbrace Hdollar)
      as (shown & Hdefault & Hrun).
    exists shown. split; [exact Hdefault|]. intros fuel Hfuel.
    unfold Analysis.run, Analysis.result.
    destruct (Nat.ltb_spec 1 (List.length files)) as [Hlt|_]; [lia|].
    rewrite Hrej. cbn [ClangTidyCommand.runAnalysis].
    unfold Extension.runClangTidyAnalysis.
    cbn [Extension.exitCode Extension.rawOutput Extension.errorOutput
         ClangTidyCommand.exitCode ClangTidyCommand.rawOutput
         ClangTidyCommand.errorOutput].
    cbn [Z.eqb negb JS.isEmpty andb].
    now rewrite (Hrun fuel Hfuel).
  - intros Hlen Hj Hout fuel. unfold Analysis.run, Analysis.result.
    destruct (Nat.ltb_spec 1 (List.length files)) as [_|Hle]; [|lia].
    destruct (runParallel_without_output r sp maxJobs schedule files
                ltac:(lia) Hout)
      as (batches & prs & Hb & Hrun & Hcount & Hempty).
    rewrite Hrun.
    destruct (makeBatches_count files maxJobs ltac:(lia))
      as (batches' & Hb' & _ & _ & _ & Htwo).
    rewrite Hb in Hb'. injection Hb' as <-.
    destruct (combine_without_output prs Hempty) as [Hblank Hnonempty].
    unfold Extension.runClangTidyAnalysis.
    rewrite Hnonempty by (rewrite Hcount; apply Htwo; assumption).
    rewrite andb_false_r, (parse_blank host _ Hblank). reflexivity.
Qed.

Lemma failure_reported_for_single_run_only_witness :
  Analysis.run 0 (fun _ => None) Examples.noFiles Examples.plainRunner
               Samples.unstartable 2 [] 0 1 ["a.cpp"]
  = Some (Extension.AnalysisFailed
            "Clang-Tidy analysis failed: spawn ENOENT")
  /\ Analysis.run 0 (fun _ => None) Examples.noFiles Examples.plainRunner
                  Samples.unstartable 2 [] 0 1 ["a.cpp"; "b.cpp"]
     = Some (Extension.NoIssuesFound "info.noIssuesFound").
Proof.
  split.
  - destruct (proj1 (failure_reported_for_single_run_only (fun _ => None)
                       Examples.noFiles Examples.plainRunner
                       Samples.unstartable 2 [] 0 1 ["a.cpp"])
                ltac:(simpl; lia) "spawn ENOENT" eq_refl eq_refl eq_refl)
      as (shown & Hdefault & Hrun).
    rewrite (Hrun 0 (Nat.le_refl 0)), (Hdefault eq_refl). reflexivity.
  - apply (proj2 (failure_reported_for_single_run_only (fun _ => None)
                    Examples.noFiles Examples.plainRunner
                    Samples.unstartable 2 [] 0 1 ["a.cpp"; "b.cpp"])).
    + simpl. lia.
    + lia.
    + intros i t. eexists. split; reflexivity.
Defined.

(** ** prepareReportData *)

Section ReportData.
Import TextParser Analysis.

Lemma groupFile_lookup (files : gmap string (list Diagnostic))
      (d : Diagnostic) (path : string) :
  groupFile files d !! path
  = if String.eqb (filePath d) path
    then Some (match files !! path with Some g => g | None => [] end ++ [d])
    else files !! path.
Proof.
  unfold groupFile. destruct (String.eqb_spec (filePath d) path) as [->|Hne].
  - rewrite lookup_alter_eq. destruct (files !! path) as [g|] eqn:Hg.
    + rewrite Hg. reflexivity.
    + rewrite lookup_insert_eq. reflexivity.
  - rewrite lookup_alter_ne by exact Hne.
    destruct (files !! filePath d); [reflexivity|].
    now rewrite lookup_insert_ne.
Qed.

Lemma fold_groupFile_lookup (ds : list Diagnostic) (path : string) :
  forall files,
    fold_left groupFile ds files !! path
    = match inFile path ds with
      | [] => files !! path
      | g => Some (match files !! path with Some g0 => g0 | None => [] end
                   ++ g)
      end.
Proof.
  induction ds as [|d ds IH]; intros files; [reflexivity|].
  simpl fold_left. rewrite IH, groupFile_lookup. unfold inFile. simpl.
  destruct (String.eqb (filePath d) path).
  - destruct (List.filter _ ds) as [|d' g]; [reflexivity|].
    now rewrite <- app_assoc.
  - reflexivity.
Qed.

Lemma inFile_nil (path : string) (ds : list Diagnostic) :
  inFile path ds = [] <-> ~ In path (map filePath ds).
Proof.
  unfold inFile. induction ds as [|d ds IH]; simpl; [tauto|].
  destruct (String.eqb_spec (filePath d) path) as [->|Hne].
  - split; [discriminate | intros H; exfalso; apply H; now left].
  - rewrite IH. tauto.
Qed.

Lemma countChecker_lookup (w : gmap string nat) (d : Diagnostic)
      (checker : string) :
  countChecker w d !! checker
  = if negb (JS.isEmpty (checkName d)) && String.eqb (checkName d) checker
    then Some (match w !! checker with Some n => n | None => 0 end + 1)
    else w !! checker.
Proof.
  unfold countChecker. destruct (JS.isEmpty (checkName d)); [reflexivity|].
  simpl. destruct (String.eqb_spec (checkName d) checker) as [->|Hne].
  - now rewrite lookup_insert_eq.
  - now rewrite lookup_insert_ne.
Qed.

Lemma fold_countChecker_lookup (ds : list Diagnostic) (checker : string) :
  checker <> EmptyString ->
  forall w,
    fold_left countChecker ds w !! checker
    = match issuesOf checker ds with
      | 0 => w !! checker
      | n => Some (match w !! checker with Some m => m | None => 0 end + n)
      end.
Proof.
  intros Hne. induction ds as [|d ds IH]; intros w; [reflexivity|].
  simpl fold_left. rewrite IH, countChecker_lookup. unfold issuesOf. simpl.
  destruct (String.eqb_spec (checkName d) checker) as [Heq|Hneq].
  - assert (Hfull : JS.isEmpty (checkName d) = false).
    { rewrite Heq. destruct checker; [congruence | reflexivity]. }
    rewrite Hfull. simpl.
    destruct (List.length (List.filter _ ds)); f_equal; lia.
  - rewrite andb_false_r. reflexivity.
Qed.

Lemma fold_countChecker_empty (ds : list Diagnostic) :
  forall w, fold_left countChecker ds w !! EmptyString = w !! EmptyString.
Proof.
  induction ds as [|d ds IH]; intros w; [reflexivity|].
  simpl fold_left. rewrite IH, countChecker_lookup.
  destruct (checkName d) eqn:Hc; reflexivity.
Qed.

End ReportData.

(** X13. For diagnostics whose file paths and check names are not
    names inherited from Object.prototype, prepareReportData files
    every diagnostic under its file path, in the order of the list: the
    entry of a path holds exactly the diagnostics of that file, a path
    without diagnostic has no entry, and filesWithWarnings is the
    number of distinct file paths, never more than totalWarnings, the
    length of the list. *)
Theorem prepareReportData_groups_by_file
  (ds : list TextParser.Diagnostic) (totalFiles : nat) :
  Analysis.plainKeys ds ->
  let report := Analysis.prepareReportData ds totalFiles in
  (forall path,
      Analysis.files report !! path
      = match Analysis.inFile path ds with
        | [] => None
        | group => Some group
        end)
  /\ Analysis.filesWithWarnings report
     = List.length (remove_dups (map TextParser.filePath ds))
  /\ Analysis.filesWithWarnings report <= Analysis.totalWarnings report
  /\ Analysis.totalWarnings report = List.length ds
  /\ Analysis.totalFilesChecked report = totalFiles.
Proof.
  intros _ report.
  assert (Hlookup : forall path,
             Analysis.files report !! path
             = match Analysis.inFile path ds with
               | [] => None
               | group => Some group
               end).
  { intros path. subst report. simpl.
    rewrite fold_groupFile_lookup, lookup_empty. reflexivity. }
  assert (Hsize : Analysis.filesWithWarnings report
                  = List.length (remove_dups (map TextParser.filePath ds))).
  { subst report. simpl. rewrite <- size_dom.
    rewrite <- (size_list_to_set (C := gset string)
                  (remove_dups (map TextParser.filePath ds)))
      by apply NoDup_remove_dups.
    f_equal. apply set_eq. intros path.
    rewrite elem_of_dom, elem_of_list_to_set, elem_of_remove_dups.
    rewrite fold_groupFile_lookup, lookup_empty.
    rewrite list_elem_of_In.
    destruct (Analysis.inFile path ds) as [|d g] eqn:Hg.
    - apply inFile_nil in Hg. split; [intros [x Hx]; discriminate | tauto].
    - split; [intros _ | eauto].
      destruct (in_dec string_dec path (map TextParser.filePath ds))
        as [Hin|Hout]; [exact Hin|].
      apply inFile_nil in Hout. congruence. }
  split; [exact Hlookup|]. split; [exact Hsize|].
  split; [|split; reflexivity].
  rewrite Hsize. subst report. simpl.
  rewrite <- (length_map TextParser.filePath ds).
  generalize (map TextParser.filePath ds). intros l.
  induction l as [|x l IH]; simpl; [lia|].
  destruct (decide_rel elem_of x l); simpl; lia.
Qed.

Lemma prepareReportData_groups_by_file_witness :
  let report :=
    Analysis.prepareReportData
      [Examples.headerDiagnostic; Samples.noteDiagnostic;
       Examples.headerDiagnostic] 3 in
  (forall path,
      Analysis.files report !! path
      = match Analysis.inFile path
                [Examples.headerDiagnostic; Samples.noteDiagnostic;
                 Examples.headerDiagnostic] with
        | [] => None
        | group => Some group
        end)
  /\ Analysis.filesWithWarnings report = 2.
Proof.
  destruct (prepareReportData_groups_by_file
              [Examples.headerDiagnostic; Samples.noteDiagnostic;
               Examples.headerDiagnostic] 3) as (Hgroups & Hsize & _).
  - repeat constructor.
  - split; [exact Hgroups | exact Hsize].
Defined.

(** X14. For such diagnostics, warningsByChecker holds for every check
    name that is not empty the number of diagnostics with this name,
    and no entry for a name without diagnostic; diagnostics with an
    empty check name are counted under no name. *)
Theorem prepareReportData_counts_by_checker
  (ds : list TextParser.Diagnostic) (totalFiles : nat) :
  Analysis.plainKeys ds ->
  let report := Analysis.prepareReportData ds totalFiles in
  Analysis.warningsByChecker report !! EmptyString = None
  /\ forall checker,
      checker <> EmptyString ->
      Analysis.warningsByChecker report !! checker
      = match Analysis.issuesOf checker ds with
        | 0 => None
        | n => Some n
        end.
Proof.
  intros _ report. subst report. simpl. split.
  - rewrite fold_countChecker_empty. apply lookup_empty.
  - intros checker Hne. rewrite (fold_countChecker_lookup ds checker Hne).
    rewrite lookup_empty. reflexivity.
Qed.

Lemma prepareReportData_counts_by_checker_witness :
  let report :=
    Analysis.prepareReportData
      [Examples.headerDiagnostic; Samples.noteDiagnostic;
       Examples.headerDiagnostic] 3 in
  Analysis.warningsByChecker report !! EmptyString = None
  /\ Analysis.warningsByChecker report !! "bugprone-signed-char-bitwise"
     = Some 2.
Proof.
  destruct (prepareReportData_counts_by_checker
              [Examples.headerDiagnostic; Samples.noteDiagnostic;
               Examples.headerDiagnostic] 3) as (Hempty & Hcount).
  - repeat constructor.
  - split; [exact Hempty|].
    apply (Hcount "bugprone-signed-char-bitwise"). discriminate.
Defined.

(** ** The line loop as a whole *)

Section WholeLoop.
Import Regex TextParser Lines.

(** One line: a header of valid severity appends its diagnostic, any
    other line leaves the list alone or updates one record in place. *)
Lemma processLine_headerOf (st : LoopState) (ln : string) :
  match headerOf ln with
  | Some d =>
      diagnostics (processLine st ln) = diagnostics st ++ [d]
      /\ matchedWarnings (processLine st ln) = S (matchedWarnings st)
      /\ invalidSeverities (processLine st ln) = invalidSeverities st
  | None =>
      (diagnostics (processLine st ln) = diagnostics st
       \/ exists f cur, detailUpdate f
                        /\ diagnostics (processLine st ln)
                           = alter f cur (diagnostics st))
      /\ exists k,
          matchedWarnings (processLine st ln) = matchedWarnings st + k
          /\ invalidSeverities (processLine st ln)
             = invalidSeverities st + k
  end.
Proof.
  pose proof (processLine_cases st ln) as Hcases.
  unfold headerOf, processLine in *.
  destruct (JS.isEmpty (JS.trim ln));
    [simpl; split; [left; reflexivity | exists 0; lia]|].
  destruct (exec warningRegex ln) as [caps|].
  { destruct (validateSeverity _); simpl; [auto|].
    split; [left; reflexivity | exists 1; lia]. }
  destruct (currentDiagnostic st) as [cur|];
    [|simpl; split; [left; reflexivity | exists 0; lia]].
  destruct (test codeLineRegex ln || test detailLineRegex ln);
    simpl in *; [|split; [left; reflexivity | exists 0; lia]].
  split; [|exists 0; lia].
  destruct Hcases as [H | [(d & H & _) | H]]; [left; exact H | | right; exact H].
  exfalso. apply (f_equal (@List.length Diagnostic)) in H.
  rewrite length_alter, length_app in H. simpl in H. lia.
Qed.

Lemma fold_processLine_headers (lines : list string) :
  forall (st : LoopState) (headers : list Diagnostic),
    Forall2 sameHeader headers (diagnostics st) ->
    invalidSeverities st <= matchedWarnings st ->
    matchedWarnings st - invalidSeverities st
    = List.length (diagnostics st) ->
    let st' := fold_left processLine lines st in
    Forall2 sameHeader (headers ++ omap headerOf lines) (diagnostics st')
    /\ invalidSeverities st' <= matchedWarnings st'
    /\ matchedWarnings st' - invalidSeverities st'
       = List.length (diagnostics st').
Proof.
  induction lines as [|ln lines IH]; intros st headers Hh Hle Hcount.
  - simpl. rewrite app_nil_r. auto.
  - simpl fold_left. pose proof (processLine_headerOf st ln) as Hstep.
    change (omap headerOf (ln :: lines))
      with (match headerOf ln with
            | Some d => d :: omap headerOf lines
            | None => omap headerOf lines
            end).
    destruct (headerOf ln) as [d|].
    + destruct Hstep as (Hd & Hm & Hi).
      replace (headers ++ d :: omap headerOf lines)
        with ((headers ++ [d]) ++ omap headerOf lines)
        by (rewrite <- app_assoc; reflexivity).
      apply IH.
      * rewrite Hd. apply Forall2_app; [exact Hh|].
        constructor; [apply sameHeader_refl | constructor].
      * lia.
      * rewrite Hd, length_app. simpl. lia.
    + destruct Hstep as (Hd & k & Hm & Hi). apply IH.
      * destruct Hd as [-> | (f & cur & Hf & ->)]; [exact Hh|].
        apply Forall2_alter_r; [exact Hh|]. intros x y _ _ Hxy.
        eapply sameHeader_trans; [exact Hxy|].
        apply detailUpdate_header, Hf.
      * lia.
      * replace (List.length (diagnostics (processLine st ln)))
          with (List.length (diagnostics st)); [lia|].
        destruct Hd as [-> | (f & cur & _ & ->)]; [reflexivity|].
        now rewrite length_alter.
Qed.

End WholeLoop.

Lemma parseLines_headers (lines : list string) :
  let st := TextParser.parseLines lines in
  Forall2 TextParser.sameHeader (omap Lines.headerOf lines)
          (TextParser.diagnostics st)
  /\ TextParser.matchedWarnings st
     = List.length (TextParser.diagnostics st)
       + TextParser.invalidSeverities st.
Proof.
  intros st.
  destruct (fold_processLine_headers lines TextParser.initialState [])
    as (Hh & Hle & Hcount); [constructor | simpl; lia | reflexivity|].
  fold (TextParser.parseLines lines) in Hh, Hle, Hcount.
  fold st in Hh, Hle, Hcount.
  simpl in Hh. split; [exact Hh | lia].
Qed.

Lemma enrich_headers (host : TextParser.Host)
      (headers ds : list TextParser.Diagnostic) :
  Forall2 TextParser.sameHeader headers ds ->
  Forall2 TextParser.sameHeader headers
          (TextParser.enrichDiagnosticsWithSourceCode host ds).
Proof.
  intros Hh. pose proof (enrich_Forall2 host ds) as Hcells.
  revert Hcells.
  generalize (TextParser.enrichDiagnosticsWithSourceCode host ds) as res.
  induction Hh as [|h d headers ds Hhd _ IH]; intros res Hcells;
    inversion Hcells as [|d0 d' ds0 res' Hcell Hrest]; subst;
    constructor; [|apply IH, Hrest].
  eapply sameHeader_trans; [exact Hhd|].
  apply (enriched_filled host d d' Hcell).
Qed.

(** X15. The diagnostics that parseClangTidyText returns are those of
    the header lines of valid severity of the text, one per such line
    and in the order of the lines, with the header fields of that line;
    the other lines and the enrichment pass add, remove and reorder
    nothing.  The counters of the loop add up: the matched lines are
    the diagnostics plus the lines dropped for their severity. *)
Theorem diagnostics_follow_header_lines
  (host : TextParser.Host) (text : string) :
  exists ds,
    TextParser.parseClangTidyText host text = Exn.Returned ds
    /\ Forall2 TextParser.sameHeader
               (omap Lines.headerOf (JS.split TextParser.LF text)) ds
    /\ List.length ds
       = List.length (omap Lines.headerOf (JS.split TextParser.LF text))
    /\ TextParser.matchedWarnings (TextParser.parseLoop text)
       = List.length ds
         + TextParser.invalidSeverities (TextParser.parseLoop text).
Proof.
  destruct (parseLines_headers (JS.split TextParser.LF text)) as [Hh Hc].
  fold (TextParser.parseLoop text) in Hh, Hc.
  apply (enrich_headers host) in Hh.
  eexists. split; [reflexivity|]. split; [exact Hh|]. split.
  - symmetry. apply (Forall2_length _ _ _ Hh).
  - rewrite Hc, enrich_length. reflexivity.
Qed.

(** ** Caret and fix suggestion lines *)

Section DetailLines.
Import Regex TextParser Lines.
#[local] Open Scope regex_scope.

Lemma isIndent_spec (indent : string) :
  isIndent indent = true ->
  exists a indent', indent = String a indent'
                    /\ JS.isWhiteSpace a = true
                    /\ JS.every JS.isWhiteSpace indent' = true.
Proof.
  unfold isIndent. destruct indent as [|a indent']; [discriminate|].
  simpl. intros H. apply andb_prop in H. eauto.
Qed.

Lemma detailLine_nonblank (indent rest : string) :
  JS.isEmpty (JS.trim (detailLine indent rest)) = false.
Proof.
  rewrite trim_blank. unfold detailLine.
  rewrite every_append, append_cons, append_nil_l, every_cons.
  change (JS.isWhiteSpace "|") with false. simpl. apply andb_false_r.
Qed.

Lemma detailLine_no_header (indent rest : string) :
  isIndent indent = true ->
  exec warningRegex (detailLine indent rest) = None.
Proof.
  intros Hi. destruct (isIndent_spec indent Hi) as (a & i' & -> & Ha & _).
  unfold detailLine. rewrite append_cons.
  apply header_whitespace_first, Ha.
Qed.

Lemma digits_needed (r : regex) (s : string) (c : captures) (k : cont) :
  JS.headIn JS.isDigit s = false ->
  run (Plus JS.isDigit &> r) s c k = None.
Proof.
  intros Hd. rewrite run_Seq. destruct s as [|x s]; [reflexivity|].
  rewrite run_Plus_cons. simpl in Hd. now rewrite Hd.
Qed.

Lemma repeatN_indent (rest : string) (c : captures) (k : cont) :
  (forall s c', JS.headIn JS.isDigit s = false -> k s c' = None) ->
  forall n indent,
    JS.every JS.isWhiteSpace indent = true ->
    repeatN n JS.isWhiteSpace (indent +:+ "|" +:+ rest) c k = None.
Proof.
  intros Hk. induction n as [|n IH]; intros indent Hw.
  - simpl. apply Hk. destruct indent as [|a indent]; [reflexivity|].
    rewrite append_cons. simpl. simpl in Hw. apply andb_prop in Hw.
    destruct Hw as [Ha _]. apply whitespace_cases in Ha. tauto.
  - destruct indent as [|a indent].
    + rewrite append_nil_l, append_cons. reflexivity.
    + rewrite append_cons. simpl. simpl in Hw. apply andb_prop in Hw.
      destruct Hw as [Ha Hw]. rewrite Ha. apply IH, Hw.
Qed.

Lemma detailLine_not_code (indent rest : string) :
  JS.every JS.isWhiteSpace indent = true ->
  test codeLineRegex (detailLine indent rest) = false.
Proof.
  intros Hw. unfold test, exec, codeLineRegex, detailLine.
  rewrite run_Seq. change (run (Rep 3 JS.isWhiteSpace)) with
    (repeatN 3 JS.isWhiteSpace).
  rewrite repeatN_indent; [reflexivity | | exact Hw].
  intros s c' Hd. apply digits_needed, Hd.
Qed.

Lemma detailLine_test (indent rest : string) :
  isIndent indent = true ->
  test detailLineRegex (detailLine indent rest) = true.
Proof.
  intros Hi. unfold isIndent in Hi. apply andb_prop in Hi.
  destruct Hi as [Hne Hw]. unfold test, exec, detailLineRegex, detailLine.
  rewrite run_Seq.
  rewrite (run_Plus_append JS.isWhiteSpace indent ("|" +:+ rest) []
             _ []); [reflexivity | | exact Hw | reflexivity |].
  - destruct indent; [discriminate | congruence].
  - rewrite append_cons, append_nil_l. apply run_chr.
Qed.

Lemma includes_notIn (c : ascii) (s : string) :
  JS.includes c s = false <-> JS.every (notIn [c]) s = true.
Proof.
  rewrite every_notIn_includes. destruct (JS.includes c s); simpl;
    intuition congruence.
Qed.

Lemma detailLine_no_caret (indent rest : string) :
  JS.every JS.isWhiteSpace indent = true ->
  JS.includes "^" rest = false ->
  JS.includes "^" (JS.trim (detailLine indent rest)) = false.
Proof.
  intros Hw Hr. apply includes_notIn, every_trim. unfold detailLine.
  rewrite every_append, append_cons, append_nil_l, every_cons.
  apply includes_notIn in Hr. rewrite Hr.
  rewrite (every_weaken JS.isWhiteSpace (notIn ["^"%char]) indent);
    [reflexivity | | exact Hw].
  intros x Hx. unfold notIn. simpl.
  destruct (JS.eqc x "^") eqn:Hc; [|reflexivity].
  apply eqc_eq in Hc. subst x. discriminate.
Qed.

(** The assignment made for a fix suggestion line. *)
Lemma processLine_fix (st : LoopState) (cur : nat) (indent rest : string) :
  currentDiagnostic st = Some cur ->
  isIndent indent = true -> JS.includes "^" rest = false ->
  let ln := detailLine indent rest in
  processLine st ln
  = mkLoopState
      (alter (fun d =>
                match fixSuggestion d with
                | Some f =>
                    if JS.isEmpty f then setFixSuggestion ln d
                    else setFixSuggestion
                           (f +:+ String LF EmptyString +:+ ln) d
                | None => setFixSuggestion ln d
                end) cur (diagnostics st))
      (Some cur) (matchedWarnings st) (invalidSeverities st).
Proof.
  intros Hcur Hi Hr ln. subst ln.
  assert (Hw : JS.every JS.isWhiteSpace indent = true).
  { unfold isIndent in Hi. apply andb_prop in Hi. tauto. }
  unfold processLine.
  rewrite detailLine_nonblank, (detailLine_no_header _ _ Hi), Hcur.
  rewrite (detailLine_not_code _ _ Hw), (detailLine_test _ _ Hi).
  rewrite (detailLine_no_caret _ _ Hw Hr). reflexivity.
Qed.

Lemma fold_prefix (ls : list string) :
  forall a b,
    a +:+ fold_left (fun acc l => acc +:+ String LF EmptyString +:+ l) ls b
    = fold_left (fun acc l => acc +:+ String LF EmptyString +:+ l) ls
                (a +:+ b).
Proof.
  induction ls as [|l ls IH]; intros a b; [reflexivity|]. simpl.
  rewrite IH, append_assoc. reflexivity.
Qed.

Lemma joinLines_fold (ls : list string) :
  forall x,
    joinLines (x :: ls)
    = fold_left (fun acc l => acc +:+ String LF EmptyString +:+ l) ls x.
Proof.
  unfold joinLines. induction ls as [|y ls IH]; intros x; [reflexivity|].
  change (JS.join (String LF EmptyString) (x :: y :: ls))
    with (x +:+ String LF EmptyString
            +:+ JS.join (String LF EmptyString) (y :: ls)).
  rewrite IH. simpl fold_left. rewrite !fold_prefix. reflexivity.
Qed.

Lemma fold_fix (cur : nat) (d : Diagnostic) (fixes : list (string * string)) :
  Forall (fun f => isIndent (fst f) = true
                   /\ JS.includes "^" (snd f) = false) fixes ->
  forall (st : LoopState) (acc : string),
    acc <> EmptyString ->
    currentDiagnostic st = Some cur ->
    diagnostics st !! cur = Some (setFixSuggestion acc d) ->
    let lines := map (fun f => detailLine (fst f) (snd f)) fixes in
    let st' := fold_left processLine lines st in
    diagnostics st' !! cur
    = Some (setFixSuggestion
              (fold_left (fun a l => a +:+ String LF EmptyString +:+ l)
                         lines acc) d)
    /\ currentDiagnostic st' = Some cur
    /\ List.length (diagnostics st') = List.length (diagnostics st).
Proof.
  induction 1 as [|[indent rest] fixes [Hi Hr] _ IH];
    intros st acc Hacc Hcur Hd; [simpl; auto|].
  simpl map. simpl fold_left. simpl in Hi, Hr.
  rewrite (processLine_fix st cur indent rest Hcur Hi Hr).
  set (ln := detailLine indent rest).
  destruct (IH (mkLoopState
                  (alter (fun d0 =>
                            match fixSuggestion d0 with
                            | Some f =>
                                if JS.isEmpty f then setFixSuggestion ln d0
                                else setFixSuggestion
                                       (f +:+ String LF EmptyString +:+ ln)
                                       d0
                            | None => setFixSuggestion ln d0
                            end) cur (diagnostics st))
                  (Some cur) (matchedWarnings st) (invalidSeverities st))
               (acc +:+ String LF EmptyString +:+ ln))
    as (H1 & H2 & H3).
  - apply append_nonempty_r. discriminate.
  - reflexivity.
  - simpl. rewrite list_lookup_alter_eq, Hd. simpl.
    destruct acc; [congruence | reflexivity].
  - split; [exact H1|]. split; [exact H2|].
    rewrite H3. simpl. apply length_alter.
Qed.

End DetailLines.

Lemma fix_lines_accumulate
  (st : TextParser.LoopState) (cur : nat) (d : TextParser.Diagnostic)
  (fixes : list (string * string)) :
  TextParser.currentDiagnostic st = Some cur ->
  TextParser.diagnostics st !! cur = Some d ->
  TextParser.truthy (TextParser.fixSuggestion d) = false ->
  fixes <> [] ->
  Forall (fun f => Lines.isIndent (fst f) = true
                   /\ JS.includes "^" (snd f) = false) fixes ->
  let lines := map (fun f => Lines.detailLine (fst f) (snd f)) fixes in
  let st' := fold_left TextParser.processLine lines st in
  TextParser.diagnostics st' !! cur
  = Some (TextParser.setFixSuggestion (TextParser.joinLines lines) d)
  /\ TextParser.currentDiagnostic st' = Some cur
  /\ List.length (TextParser.diagnostics st')
     = List.length (TextParser.diagnostics st).
Proof.
  intros Hcur Hd Hfix Hne Hall lines st'.
  destruct fixes as [|[indent rest] fixes]; [congruence|].
  inversion Hall as [|? ? [Hi Hr] Hrest]; subst. simpl in Hi, Hr.
  subst st' lines. simpl map. simpl fold_left.
  rewrite (processLine_fix st cur indent rest Hcur Hi Hr).
  set (ln := Lines.detailLine indent rest).
  rewrite joinLines_fold.
  destruct (fold_fix cur d fixes Hrest
              (TextParser.mkLoopState
                 (alter (fun d0 =>
                           match TextParser.fixSuggestion d0 with
                           | Some f =>
                               if JS.isEmpty f
                               then TextParser.setFixSuggestion ln d0
                               else TextParser.setFixSuggestion
                                      (f +:+ String TextParser.LF EmptyString
                                         +:+ ln) d0
                           | None => TextParser.setFixSuggestion ln d0
                           end) cur (TextParser.diagnostics st))
                 (Some cur) (TextParser.matchedWarnings st)
                 (TextParser.invalidSeverities st)) ln)
    as (H1 & H2 & H3).
  - unfold ln, Lines.detailLine. apply append_nonempty_r. discriminate.
  - reflexivity.
  - simpl. rewrite list_lookup_alter_eq, Hd. simpl.
    destruct (TextParser.fixSuggestion d) as [f|]; [|reflexivity].
    simpl in Hfix. destruct (JS.isEmpty f); [reflexivity | discriminate].
  - split; [exact H1|]. split; [exact H2|].
    rewrite H3. simpl. apply length_alter.
Qed.

(** X16. While a diagnostic is in progress, consecutive fix suggestion
    lines (white space, a pipe, and text without caret) are all kept:
    from a diagnostic without fix suggestion, fixSuggestion becomes
    these lines in their order, joined by line feeds, and the
    diagnostic stays in progress. *)
Theorem fix_suggestion_accumulates
  (st : TextParser.LoopState) (cur : nat) (d : TextParser.Diagnostic)
  (fixes : list (string * string)) :
  TextParser.currentDiagnostic st = Some cur ->
  TextParser.diagnostics st !! cur = Some d ->
  TextParser.truthy (TextParser.fixSuggestion d) = false ->
  fixes <> [] ->
  Forall (fun f => Lines.isIndent (fst f) = true
                   /\ JS.includes "^" (snd f) = false) fixes ->
  let lines := map (fun f => Lines.detailLine (fst f) (snd f)) fixes in
  let st' := fold_left TextParser.processLine lines st in
  TextParser.diagnostics st' !! cur
  = Some (TextParser.setFixSuggestion (TextParser.joinLines lines) d)
  /\ TextParser.currentDiagnostic st' = Some cur
  /\ List.length (TextParser.diagnostics st')
     = List.length (TextParser.diagnostics st).
Proof. exact (fix_lines_accumulate st cur d fixes). Qed.

Lemma fix_suggestion_accumulates_witness :
  let lines := map (fun f => Lines.detailLine (fst f) (snd f))
                   [("      ", "  static_cast<int*>(  )");
                    ("      ", "  nullptr")] in
  let st' := fold_left TextParser.processLine lines Examples.afterHeader in
  TextParser.diagnostics st' !! 0
  = Some (TextParser.setFixSuggestion (TextParser.joinLines lines)
                                      Examples.headerDiagnostic)
  /\ TextParser.currentDiagnostic st' = Some 0
  /\ List.length (TextParser.diagnostics st')
     = List.length (TextParser.diagnostics Examples.afterHeader).
Proof.
  apply (fix_suggestion_accumulates Examples.afterHeader 0
           Examples.headerDiagnostic
           [("      ", "  static_cast<int*>(  )"); ("      ", "  nullptr")]).
  - reflexivity.
  - reflexivity.
  - reflexivity.
  - discriminate.
  - repeat constructor.
Defined.

(** ** The code block of the report *)

Section CodeBlock.
Import TextParser Lines HtmlReporter.

Lemma indexOf_indent (indent rest : string) :
  JS.every JS.isWhiteSpace indent = true ->
  JSString.indexOf "|" (indent +:+ "|" +:+ rest)
  = Some (String.length indent).
Proof.
  induction indent as [|a indent IH]; intros Hw; [reflexivity|].
  simpl in Hw. apply andb_prop in Hw. destruct Hw as [Ha Hw].
  rewrite append_cons. simpl.
  destruct (JS.eqc a "|") eqn:Hc.
  - apply eqc_eq in Hc. subst a. discriminate.
  - rewrite (IH Hw). reflexivity.
Qed.

Lemma substringFrom_append (a b : string) :
  JSString.substringFrom (String.length a) (a +:+ b) = b.
Proof. induction a as [|x a IH]; [reflexivity | exact IH]. Qed.

Lemma afterSeparator_detailLine (indent rest : string) :
  JS.every JS.isWhiteSpace indent = true ->
  afterSeparator (detailLine indent rest) = rest.
Proof.
  intros Hw. unfold afterSeparator, detailLine.
  rewrite (indexOf_indent indent rest Hw).
  replace (String.length indent + 1)
    with (String.length (indent +:+ "|"))
    by (rewrite length_append; reflexivity).
  rewrite <- (append_assoc indent "|" rest). apply substringFrom_append.
Qed.

Lemma indexOf_none (c : ascii) (s : string) :
  JS.includes c s = false -> JSString.indexOf c s = None.
Proof.
  induction s as [|x s IH]; [reflexivity|]. simpl.
  destruct (JS.eqc x c); [discriminate|]. simpl. intros H.
  now rewrite IH.
Qed.

Lemma generated_caret_has_no_pipe (n : nat) :
  JS.includes "|" (JS.repeat " " n +:+ "^") = false.
Proof. induction n as [|n IH]; [reflexivity | exact IH]. Qed.

Lemma built_caret_has_no_pipe (host : Host) (d : Diagnostic)
      (caret : string) :
  buildCaretLine host d = Exn.Returned caret ->
  JS.includes "|" caret = false.
Proof.
  unfold buildCaretLine, JS.repeatCount.
  destruct (JS.max0 _) as [z| |]; try discriminate.
  destruct (z <? 0)%Z; [discriminate|].
  destruct (_ <? z)%Z; [discriminate|].
  unfold JS.concat. destruct (_ <? _)%Z; [discriminate|].
  intros [= <-]. apply generated_caret_has_no_pipe.
Qed.

Lemma caretContent_unset (d : Diagnostic) :
  truthy (caretLine d) = false -> caretContent d = EmptyString.
Proof.
  unfold caretContent, truthy. destruct (caretLine d) as [c|]; [|reflexivity].
  destruct (JS.isEmpty c); [reflexivity | discriminate].
Qed.

Lemma caretLine_fillCodeLine (c : string) (d : Diagnostic) :
  caretLine (fillCodeLine c d) = caretLine d.
Proof. unfold fillCodeLine. destruct (truthy (codeLineFull d)); reflexivity. Qed.

Lemma caretContent_fillCaretLine (host : Host) (d d' : Diagnostic) :
  truthy (caretLine d) = false ->
  fillCaretLine host d = Exn.Returned d' ->
  caretContent d' = EmptyString.
Proof.
  intros Hc. unfold fillCaretLine. rewrite Hc.
  destruct (buildCaretLine host d) as [caret|] eqn:Hb; [|discriminate].
  intros [= <-]. unfold caretContent, setCaretLine. cbn [caretLine].
  destruct (JS.isEmpty caret); [reflexivity|].
  now rewrite (indexOf_none _ _ (built_caret_has_no_pipe host d caret Hb)).
Qed.

Lemma caretContent_enrichDiag (host : Host) (d : Diagnostic) :
  truthy (caretLine d) = false ->
  caretContent (enrichDiag host d) = EmptyString.
Proof.
  intros Hc. unfold enrichDiag.
  destruct (readFileSync host (filePath d)) as [content|];
    [|now apply caretContent_unset].
  unfold enrichOne.
  destruct (JS.isIndex _ _); [|now apply caretContent_unset].
  destruct (JS.element _ _) as [codeLine|]; [|now apply caretContent_unset].
  destruct (fillCaretLine host (fillCodeLine codeLine d)) as [d2|] eqn:Hk;
    cbn [fst].
  - apply (caretContent_fillCaretLine host (fillCodeLine codeLine d) d2);
      [|exact Hk].
    now rewrite caretLine_fillCodeLine.
  - apply caretContent_unset. now rewrite caretLine_fillCodeLine.
Qed.

End CodeBlock.

(** X17. The report shows a caret line only when clang-tidy printed
    one.  For a caret line parsed from the output (white space, a pipe
    and the rest) the code block shows the rest with its runs of carets
    highlighted; for a diagnostic without parsed caret line, the caret
    line that the enrichment pass computes holds no pipe, and the code
    block shows no caret at all. *)
Theorem report_shows_parsed_caret_only
  (host : TextParser.Host) (ds : list TextParser.Diagnostic)
  (i : nat) (d : TextParser.Diagnostic) :
  ds !! i = Some d ->
  exists d',
    TextParser.enrichDiagnosticsWithSourceCode host ds !! i = Some d'
    /\ (TextParser.truthy (TextParser.caretLine d) = false ->
        HtmlReporter.caretContent d' = EmptyString)
    /\ (forall indent rest,
           Lines.isIndent indent = true ->
           TextParser.caretLine d = Some (Lines.detailLine indent rest) ->
           HtmlReporter.caretContent d'
           = HtmlReporter.highlightCarets false rest).
Proof.
  intros Hi. destruct (enrich_cells host ds i d Hi) as (d' & Hd' & Hcell).
  exists d'. split; [exact Hd'|]. split.
  { intros Hc. destruct Hcell as [-> | ->];
      [apply caretContent_unset | apply caretContent_enrichDiag]; exact Hc. }
  intros indent rest Hind Hcaret.
  assert (Hw : JS.every JS.isWhiteSpace indent = true).
  { unfold Lines.isIndent in Hind. apply andb_prop in Hind. tauto. }
  destruct (enriched_filled host d d' Hcell) as (_ & _ & _ & Hkeep).
  unfold HtmlReporter.caretContent. rewrite Hkeep, Hcaret.
  - destruct (JS.isEmpty (Lines.detailLine indent rest)) eqn:He.
    { unfold Lines.detailLine in He. destruct indent; discriminate. }
    unfold Lines.detailLine. rewrite (indexOf_indent indent rest Hw).
    replace (String.length indent + 1)
      with (String.length (indent +:+ "|"))
      by (rewrite length_append; reflexivity).
    rewrite <- (append_assoc indent "|" rest), substringFrom_append.
    reflexivity.
  - rewrite Hcaret. simpl. unfold Lines.detailLine.
    destruct indent; [discriminate | reflexivity].
Qed.

Lemma report_shows_parsed_caret_only_witness :
  exists d',
    TextParser.enrichDiagnosticsWithSourceCode Examples.fiveLines
      [Examples.headerDiagnostic] !! 0 = Some d'
    /\ HtmlReporter.caretContent d' = EmptyString
    /\ TextParser.caretLine d' = Some "        ^".
Proof.
  destruct (report_shows_parsed_caret_only Examples.fiveLines
              [Examples.headerDiagnostic] 0 Examples.headerDiagnostic
              eq_refl) as (d' & Hd' & Hnone & _).
  exists d'. split; [exact Hd'|]. split; [apply Hnone; reflexivity|].
  vm_compute in Hd'. injection Hd' as <-. reflexivity.
Defined.

(** X18. Fix suggestion lines come out of the report as they went into
    the parser: for fix suggestion lines without line feed, parsed
    while a diagnostic without fix suggestion is in progress, the code
    block shows the texts after the pipes, in order, one per line. *)
Theorem report_shows_fix_suggestion_text
  (st : TextParser.LoopState) (cur : nat) (d : TextParser.Diagnostic)
  (fixes : list (string * string)) :
  TextParser.currentDiagnostic st = Some cur ->
  TextParser.diagnostics st !! cur = Some d ->
  TextParser.truthy (TextParser.fixSuggestion d) = false ->
  fixes <> [] ->
  Forall (fun f => Lines.isIndent (fst f) = true
                   /\ JS.includes "^" (snd f) = false) fixes ->
  Forall (fun f => TextParser.noLineFeed (fst f) = true
                   /\ TextParser.noLineFeed (snd f) = true) fixes ->
  let lines := map (fun f => Lines.detailLine (fst f) (snd f)) fixes in
  exists d',
    TextParser.diagnostics (fold_left TextParser.processLine lines st) !! cur
    = Some d'
    /\ HtmlReporter.fixContent d' = TextParser.joinLines (map snd fixes).
Proof.
  intros Hcur Hd Hfix Hne Hall Hlf lines.
  destruct (fix_lines_accumulate st cur d fixes Hcur Hd Hfix Hne Hall)
    as (Hd' & _ & _).
  fold lines in Hd'. eexists. split; [exact Hd'|].
  assert (Hlines : lines <> []).
  { subst lines. destruct fixes; [congruence | discriminate]. }
  assert (Hnolf : Forall (fun l => TextParser.noLineFeed l = true) lines).
  { subst lines. clear -Hlf. induction Hlf as [|f fixes [H1 H2] _ IH];
      simpl; constructor; [|exact IH].
    unfold TextParser.noLineFeed, Lines.detailLine in *.
    rewrite !every_append, H1, H2. reflexivity. }
  assert (He : JS.isEmpty (TextParser.joinLines lines) = false).
  { subst lines. destruct fixes as [|[indent rest] fixes']; [congruence|].
    inversion Hall as [|? ? [Hi _] _]; subst. simpl in Hi.
    apply isIndent_spec in Hi. destruct Hi as (a & i' & -> & _).
    unfold TextParser.joinLines. simpl map.
    destruct (map _ fixes'); reflexivity. }
  assert (Hmap : map HtmlReporter.afterSeparator lines = map snd fixes).
  { subst lines. rewrite map_map. clear -Hall.
    induction Hall as [|f fixes [Hi _] _ IH]; [reflexivity|]. simpl.
    rewrite IH. f_equal. apply afterSeparator_detailLine.
    unfold Lines.isIndent in Hi. apply andb_prop in Hi. tauto. }
  unfold HtmlReporter.fixContent, TextParser.setFixSuggestion.
  cbn [TextParser.fixSuggestion].
  rewrite He, (split_joinLines lines Hlines Hnolf), Hmap. reflexivity.
Qed.

Lemma report_shows_fix_suggestion_text_witness :
  let lines := map (fun f => Lines.detailLine (fst f) (snd f))
                   [("      ", "  static_cast<int*>(  )");
                    ("      ", "  nullptr")] in
  exists d',
    TextParser.diagnostics
      (fold_left TextParser.processLine lines Examples.afterHeader) !! 0
    = Some d'
    /\ HtmlReporter.fixContent d'
       = TextParser.joinLines ["  static_cast<int*>(  )"; "  nullptr"].
Proof.
  apply (report_shows_fix_suggestion_text Examples.afterHeader 0
           Examples.headerDiagnostic
           [("      ", "  static_cast<int*>(  )"); ("      ", "  nullptr")]).
  - reflexivity.
  - reflexivity.
  - reflexivity.
  - discriminate.
  - repeat constructor.
  - repeat constructor.
Defined.

(** ** I18nService.t, with and without end *)

(** X19. t returns for parameters that hold neither a brace nor a
    dollar sign: every replacement removes one placeholder and brings
    no brace in, so each loop ends after at most as many rounds as the
    translation holds opening braces. *)
Theorem t_returns_for_plain_parameters
  (translations : string -> option string) (key : string)
  (defaultValue : option string) (params : list string) :
  Forall (fun p => JS.includes "{" p = false
                   /\ JS.includes "$" p = false) params ->
  exists result,
    forall fuel,
      JSString.count "{" (I18nService.lookupTranslation
                            translations key defaultValue) <= fuel ->
      I18nService.t fuel translations key defaultValue params = Some result.
Proof.
  intros Hparams. unfold I18nService.t.
  apply (forEachParam_ends params Hparams 0 _ _ (Nat.le_refl _)).
Qed.

Lemma t_returns_for_plain_parameters_witness :
  exists result,
    forall fuel,
      JSString.count "{"
        (I18nService.lookupTranslation
           (fun _ => None) "status.analysisCompleted"
           (Some "Analysis completed: {0} issues in {1} files")) <= fuel ->
      I18nService.t fuel (fun _ => None) "status.analysisCompleted"
        (Some "Analysis completed: {0} issues in {1} files") ["12"; "3"]
      = Some result.
Proof.
  apply (t_returns_for_plain_parameters (fun _ => None)
           "status.analysisCompleted"
           (Some "Analysis completed: {0} issues in {1} files")
           ["12"; "3"]).
  repeat constructor.
Defined.



(** ** What a match of the header pattern tells about the line *)

Section MatchInversion.
Import Regex TextParser Lines.
#[local] Open Scope regex_scope.

Lemma starGreedy_inv (p : ascii -> bool) (s : string) (c : captures)
      (k : cont) (res : captures) :
  starGreedy p s c k = Some res ->
  exists m rest, s = m +:+ rest /\ JS.every p m = true
                 /\ k rest c = Some res.
Proof.
  induction s as [|x s IH]; simpl; intros H.
  - exists EmptyString, EmptyString. auto.
  - destruct (p x) eqn:Hx; [|exists EmptyString, (String x s); auto].
    destruct (starGreedy p s c k) as [r|] eqn:Hs.
    + injection H as <-. destruct (IH eq_refl) as (m & rest & -> & Hm & Hk).
      exists (String x m), rest. rewrite append_cons. simpl.
      rewrite Hx, Hm. auto.
    + exists EmptyString, (String x s). auto.
Qed.

Lemma starLazy_inv (p : ascii -> bool) (s : string) (c : captures)
      (k : cont) (res : captures) :
  starLazy p s c k = Some res ->
  exists m rest, s = m +:+ rest /\ JS.every p m = true
                 /\ k rest c = Some res.
Proof.
  induction s as [|x s IH]; simpl; intros H.
  - destruct (k EmptyString c) as [r|] eqn:Hk; [|discriminate].
    exists EmptyString, EmptyString. rewrite Hk. auto.
  - destruct (k (String x s) c) as [r|] eqn:Hk.
    + exists EmptyString, (String x s). rewrite Hk. auto.
    + destruct (p x) eqn:Hx; [|discriminate].
      destruct (IH H) as (m & rest & -> & Hm & Hk').
      exists (String x m), rest. rewrite append_cons. simpl.
      rewrite Hx, Hm. auto.
Qed.

Lemma run_Plus_inv (p : ascii -> bool) (s : string) (c : captures)
      (k : cont) (res : captures) :
  run (Plus p) s c k = Some res ->
  exists m rest, s = m +:+ rest /\ m <> EmptyString
                 /\ JS.every p m = true /\ k rest c = Some res.
Proof.
  destruct s as [|x s]; [discriminate|]. rewrite run_Plus_cons.
  destruct (p x) eqn:Hx; [|discriminate]. intros H.
  destruct (starGreedy_inv p s c k res H) as (m & rest & -> & Hm & Hk).
  exists (String x m), rest. rewrite append_cons. simpl. rewrite Hx, Hm.
  repeat split; [discriminate | exact Hk].
Qed.

Lemma run_PlusLazy_inv (p : ascii -> bool) (s : string) (c : captures)
      (k : cont) (res : captures) :
  run (PlusLazy p) s c k = Some res ->
  exists m rest, s = m +:+ rest /\ m <> EmptyString
                 /\ JS.every p m = true /\ k rest c = Some res.
Proof.
  destruct s as [|x s]; [discriminate|]. rewrite run_PlusLazy_cons.
  destruct (p x) eqn:Hx; [|discriminate]. intros H.
  destruct (starLazy_inv p s c k res H) as (m & rest & -> & Hm & Hk).
  exists (String x m), rest. rewrite append_cons. simpl. rewrite Hx, Hm.
  repeat split; [discriminate | exact Hk].
Qed.

Lemma run_Cls_inv (p : ascii -> bool) (s : string) (c : captures)
      (k : cont) (res : captures) :
  run (Cls p) s c k = Some res ->
  exists x rest, s = String x rest /\ p x = true /\ k rest c = Some res.
Proof.
  destruct s as [|x s]; [discriminate|]. rewrite run_Cls_cons.
  destruct (p x) eqn:Hx; [|discriminate]. eauto.
Qed.

Lemma run_chr_inv (a : ascii) (s : string) (c : captures)
      (k : cont) (res : captures) :
  run (chr a) s c k = Some res ->
  exists rest, s = String a rest /\ k rest c = Some res.
Proof.
  intros H. destruct (run_Cls_inv _ _ _ _ _ H) as (x & rest & -> & Hx & Hk).
  apply eqc_eq in Hx. subst x. eauto.
Qed.

Lemma run_Cap_Plus_inv (i : nat) (p : ascii -> bool) (s : string)
      (c : captures) (k : cont) (res : captures) :
  run (Cap i (Plus p)) s c k = Some res ->
  exists m rest, s = m +:+ rest /\ m <> EmptyString
                 /\ JS.every p m = true
                 /\ k rest ((i, m) :: c) = Some res.
Proof.
  rewrite run_Cap. intros H.
  destruct (run_Plus_inv _ _ _ _ _ H) as (m & rest & -> & Hne & Hm & Hk).
  rewrite consumed_append in Hk. eauto 6.
Qed.

Lemma run_Cap_PlusLazy_inv (i : nat) (p : ascii -> bool) (s : string)
      (c : captures) (k : cont) (res : captures) :
  run (Cap i (PlusLazy p)) s c k = Some res ->
  exists m rest, s = m +:+ rest /\ m <> EmptyString
                 /\ JS.every p m = true
                 /\ k rest ((i, m) :: c) = Some res.
Proof.
  rewrite run_Cap. intros H.
  destruct (run_PlusLazy_inv _ _ _ _ _ H) as (m & rest & -> & Hne & Hm & Hk).
  rewrite consumed_append in Hk. eauto 6.
Qed.

Lemma alpha_not_separator (a : ascii) :
  JS.isAlpha a = true -> isSeparator a = false.
Proof.
  intros Ha. destruct (isSeparator a) eqn:Hs; [|reflexivity].
  apply separator_not_alpha in Hs. congruence.
Qed.

Lemma isPathBody_intro (body : string) :
  body <> EmptyString -> JS.every pathChar body = true ->
  isPathBody body = true.
Proof.
  intros Hne Hb. unfold isPathBody. rewrite Hb.
  destruct body; [congruence | reflexivity].
Qed.

Lemma run_path_inv (s : string) (c : captures) (k : cont) (res : captures) :
  run (Cap 1 (Opt (Cls JS.isAlpha &> chr ":") &> Cls isSeparator
              &> Plus pathChar)) s c k = Some res ->
  exists path rest, s = path +:+ rest /\ isAbsolutePath path = true
                    /\ k rest ((1, path) :: c) = Some res.
Proof.
  rewrite run_Cap, run_Seq, run_Opt. intros H.
  set (tail := fun s' c' =>
                 run (Cls isSeparator &> Plus pathChar) s' c'
                     (fun s'' c'' => k s'' ((1, consumed s s'') :: c''))) in *.
  assert (Htail : forall s0 pre,
             s = pre +:+ s0 ->
             tail s0 c = Some res ->
             exists x body rest,
               s0 = String x (body +:+ rest) /\ isSeparator x = true
               /\ isPathBody body = true
               /\ k rest ((1, pre +:+ String x body) :: c) = Some res).
  { intros s0 pre Hs Ht. subst tail. cbv beta in Ht.
    rewrite run_Seq in Ht.
    destruct (run_Cls_inv _ _ _ _ _ Ht) as (x & s1 & -> & Hx & Ht1).
    destruct (run_Plus_inv _ _ _ _ _ Ht1)
      as (body & rest & -> & Hne & Hb & Hk).
    exists x, body, rest. repeat split; try assumption.
    - apply isPathBody_intro; assumption.
    - replace (consumed s rest) with (pre +:+ String x body) in Hk;
        [exact Hk|].
      rewrite Hs.
      replace (pre +:+ String x (body +:+ rest))
        with ((pre +:+ String x body) +:+ rest)
        by (rewrite append_assoc, append_cons; reflexivity).
      symmetry. apply consumed_append. }
  destruct (run (Cls JS.isAlpha &> chr ":") s c tail) as [r|] eqn:Hdrive.
  - injection H as ->. rewrite run_Seq in Hdrive.
    destruct (run_Cls_inv _ _ _ _ _ Hdrive) as (a & s1 & Hs & Ha & H1).
    destruct (run_chr_inv _ _ _ _ _ H1) as (s2 & -> & H2).
    destruct (Htail s2 (String a (String ":" EmptyString)))
      as (x & body & rest & -> & Hx & Hb & Hk);
      [rewrite Hs; reflexivity | exact H2|].
    exists (String a (String ":" (String x body))), rest.
    split; [rewrite Hs; rewrite !append_cons; reflexivity|].
    split; [|exact Hk].
    simpl. rewrite (alpha_not_separator a Ha), Ha, Hx, Hb. reflexivity.
  - destruct (Htail s EmptyString) as (x & body & rest & -> & Hx & Hb & Hk);
      [reflexivity | exact H|].
    exists (String x body), rest.
    split; [rewrite append_cons; reflexivity|]. split; [|exact Hk].
    simpl. rewrite Hx. exact Hb.
Qed.

Lemma isNumber_intro (n : string) :
  n <> EmptyString -> JS.every JS.isDigit n = true -> isNumber n = true.
Proof.
  intros Hne Hd. unfold isNumber. rewrite Hd.
  destruct n; [congruence | reflexivity].
Qed.

Lemma isIndent_intro (w : string) :
  w <> EmptyString -> JS.every JS.isWhiteSpace w = true -> isIndent w = true.
Proof.
  intros Hne Hw. unfold isIndent. rewrite Hw.
  destruct w; [congruence | reflexivity].
Qed.

(** The end of the pattern: nothing, or white space and a rule in
    brackets. *)
Lemma run_rule_inv (s : string) (c res : captures) :
  run (Opt ruleGroup &> Eol) s c (fun _ c' => Some c') = Some res ->
  (s = EmptyString /\ res = c)
  \/ exists w rule,
      s = w +:+ "[" +:+ rule +:+ "]" /\ isIndent w = true
      /\ rule <> EmptyString /\ JS.every (notIn ["]"%char]) rule = true
      /\ res = (6, rule) :: c.
Proof.
  rewrite run_Seq, run_Opt. intros H.
  assert (Hend : forall s0 c0, run Eol s0 c0 (fun _ c' => Some c') = Some res
                               -> s0 = EmptyString /\ res = c0).
  { intros s0 c0 He. destruct s0; [|discriminate].
    simpl in He. injection He as <-. auto. }
  destruct (run ruleGroup s c _) as [r|] eqn:Hrule.
  - injection H as ->. right. unfold ruleGroup in Hrule.
    rewrite run_Seq in Hrule.
    destruct (run_Plus_inv _ _ _ _ _ Hrule) as (w & s1 & -> & Hne & Hw & H1).
    rewrite run_Seq in H1.
    destruct (run_chr_inv _ _ _ _ _ H1) as (s2 & -> & H2).
    rewrite run_Seq in H2.
    destruct (run_Cap_Plus_inv _ _ _ _ _ _ H2)
      as (rule & s3 & -> & Hrne & Hr & H3).
    destruct (run_chr_inv _ _ _ _ _ H3) as (s4 & -> & H4).
    destruct (Hend _ _ H4) as [-> ->].
    exists w, rule. split; [now rewrite !append_cons, !append_nil_l|].
    split; [apply isIndent_intro; assumption|]. auto.
  - left. apply Hend, H.
Qed.

(** A line that the header pattern matches has the shape
    [<path>:<line>:<column>:<ws><severity>:<ws><message>], possibly
    followed by white space and a rule in brackets, and the captures
    are these parts. *)
Lemma exec_warningRegex_inv (ln : string) (caps : captures) :
  exec warningRegex ln = Some caps ->
  exists path l col w1 sev w2 msg (rule : option (string * string)),
    ln = path +:+ ":" +:+ l +:+ ":" +:+ col +:+ ":" +:+ w1 +:+ sev
         +:+ ":" +:+ w2 +:+ msg
         +:+ match rule with
             | Some (w3, r) => w3 +:+ "[" +:+ r +:+ "]"
             | None => EmptyString
             end
    /\ isAbsolutePath path = true
    /\ isNumber l = true /\ isNumber col = true
    /\ isIndent w1 = true
    /\ sev <> EmptyString /\ JS.every JS.isAlpha sev = true
    /\ isIndent w2 = true
    /\ msg <> EmptyString /\ noLineFeed msg = true
    /\ match rule with
       | Some (w3, r) =>
           isIndent w3 = true /\ r <> EmptyString
           /\ JS.every (notIn ["]"%char]) r = true
       | None => True
       end
    /\ caps = match rule with Some (_, r) => [(6, r)] | None => [] end
              ++ [(5, msg); (4, sev); (3, col); (2, l); (1, path)].
Proof.
  unfold exec, warningRegex. rewrite run_Seq. intros H.
  destruct (run_path_inv _ _ _ _ H) as (path & s1 & -> & Hpath & H1).
  rewrite run_Seq in H1.
  destruct (run_chr_inv _ _ _ _ _ H1) as (s2 & -> & H2).
  rewrite run_Seq in H2.
  destruct (run_Cap_Plus_inv _ _ _ _ _ _ H2) as (l & s3 & -> & Hl1 & Hl2 & H3).
  rewrite run_Seq in H3.
  destruct (run_chr_inv _ _ _ _ _ H3) as (s4 & -> & H4).
  rewrite run_Seq in H4.
  destruct (run_Cap_Plus_inv _ _ _ _ _ _ H4)
    as (col & s5 & -> & Hc1 & Hc2 & H5).
  rewrite run_Seq in H5.
  destruct (run_chr_inv _ _ _ _ _ H5) as (s6 & -> & H6).
  rewrite run_Seq in H6.
  destruct (run_Plus_inv _ _ _ _ _ H6) as (w1 & s7 & -> & Hw11 & Hw12 & H7).
  rewrite run_Seq in H7.
  destruct (run_Cap_Plus_inv _ _ _ _ _ _ H7)
    as (sev & s8 & -> & Hs1 & Hs2 & H8).
  rewrite run_Seq in H8.
  destruct (run_chr_inv _ _ _ _ _ H8) as (s9 & -> & H9).
  rewrite run_Seq in H9.
  destruct (run_Plus_inv _ _ _ _ _ H9) as (w2 & s10 & -> & Hw21 & Hw22 & H10).
  rewrite run_Seq in H10.
  destruct (run_Cap_PlusLazy_inv _ _ _ _ _ _ H10)
    as (msg & s11 & -> & Hm1 & Hm2 & H11).
  destruct (run_rule_inv _ _ _ H11)
    as [[-> ->] | (w3 & rule & -> & Hw3 & Hr1 & Hr2 & ->)].
  - exists path, l, col, w1, sev, w2, msg, None.
    split; [now rewrite !append_cons, !append_nil_l|].
    repeat split; try assumption;
      try (apply isNumber_intro; assumption);
      try (apply isIndent_intro; assumption).
  - exists path, l, col, w1, sev, w2, msg, (Some (w3, rule)).
    split; [now rewrite !append_cons, !append_nil_l|].
    repeat split; try assumption;
      try (apply isNumber_intro; assumption);
      try (apply isIndent_intro; assumption).
Qed.

End MatchInversion.

Section WellFormed.
Import Regex TextParser Lines.

Lemma validateSeverity_valid (v sev : string) :
  validateSeverity v = Some sev -> In sev validSeverities.
Proof.
  unfold validateSeverity. destruct (existsb _ _) eqn:He; [|discriminate].
  intros H. injection H as <-. apply existsb_exists in He.
  destruct He as (x & Hin & Heq). apply String.eqb_eq in Heq. now subst x.
Qed.

Lemma headerOf_wellFormed (ln : string) (d : Diagnostic) :
  headerOf ln = Some d -> wellFormed d.
Proof.
  unfold headerOf. destruct (JS.isEmpty (JS.trim ln)); [discriminate|].
  destruct (exec warningRegex ln) as [caps|] eqn:Hexec; [|discriminate].
  destruct (validateSeverity _) as [sev'|] eqn:Hsev; [|discriminate].
  intros H. injection H as <-.
  destruct (exec_warningRegex_inv ln caps Hexec)
    as (path & l & col & w1 & sev & w2 & msg & rule & _ & Hpath & _ & _ & _
        & _ & _ & _ & _ & Hmsg & Hrule & ->).
  assert (Hcaps : capture 1 (match rule with
                             | Some (_, r) => [(6, r)]
                             | None => []
                             end
                             ++ [(5, msg); (4, sev); (3, col); (2, l);
                                 (1, path)]) = path
                  /\ capture 5 (match rule with
                                | Some (_, r) => [(6, r)]
                                | None => []
                                end
                                ++ [(5, msg); (4, sev); (3, col); (2, l);
                                    (1, path)]) = msg
                  /\ capture 6 (match rule with
                                | Some (_, r) => [(6, r)]
                                | None => []
                                end
                                ++ [(5, msg); (4, sev); (3, col); (2, l);
                                    (1, path)])
                     = match rule with
                       | Some (_, r) => r
                       | None => EmptyString
                       end).
  { destruct rule as [[w3 r]|]; repeat split; reflexivity. }
  destruct Hcaps as (H1 & H5 & H6).
  unfold wellFormed. cbn [severity filePath line column message checkName].
  rewrite H1, H5, H6.
  split; [exact (validateSeverity_valid _ _ Hsev)|].
  split; [exact Hpath|].
  split; [apply parseInt_nonNegative|].
  split; [apply parseInt_nonNegative|].
  split; [apply trim_idem|].
  split; [apply every_trim, Hmsg|].
  destruct rule as [[w3 r]|]; [|reflexivity].
  destruct Hrule as (_ & _ & Hr). apply includes_notIn, Hr.
Qed.

Lemma wellFormed_sameHeader (h d : Diagnostic) :
  sameHeader h d -> wellFormed h -> wellFormed d.
Proof.
  intros (Hf & Hl & Hc & Hs & Hm & Hk). unfold wellFormed.
  now rewrite Hf, Hl, Hc, Hs, Hm, Hk.
Qed.

Lemma omap_headerOf_wellFormed (lines : list string) :
  Forall wellFormed (omap headerOf lines).
Proof.
  induction lines as [|ln lines IH]; [constructor|].
  change (omap headerOf (ln :: lines))
    with (match headerOf ln with
          | Some d => d :: omap headerOf lines
          | None => omap headerOf lines
          end).
  destruct (headerOf ln) as [d|] eqn:Hd; [|exact IH].
  constructor; [exact (headerOf_wellFormed ln d Hd) | exact IH].
Qed.

End WellFormed.

(** X21. A line is matched by the header pattern only if it is made of
    an absolute path, a colon, the decimal line, a colon, the decimal
    column, a colon, white space, a severity made of letters, a colon,
    white space and a message on one line, possibly followed by white
    space and a rule in brackets; and the groups of the match are these
    parts. *)
Theorem header_match_gives_the_parts (ln : string) (caps : Regex.captures) :
  Regex.exec TextParser.warningRegex ln = Some caps ->
  exists path l col w1 sev w2 msg (rule : option (string * string)),
    ln = path +:+ ":" +:+ l +:+ ":" +:+ col +:+ ":" +:+ w1 +:+ sev
         +:+ ":" +:+ w2 +:+ msg
         +:+ match rule with
             | Some (w3, r) => w3 +:+ "[" +:+ r +:+ "]"
             | None => EmptyString
             end
    /\ TextParser.isAbsolutePath path = true
    /\ TextParser.isNumber l = true /\ TextParser.isNumber col = true
    /\ Lines.isIndent w1 = true
    /\ sev <> EmptyString /\ JS.every JS.isAlpha sev = true
    /\ Lines.isIndent w2 = true
    /\ msg <> EmptyString /\ TextParser.noLineFeed msg = true
    /\ match rule with
       | Some (w3, r) =>
           Lines.isIndent w3 = true /\ r <> EmptyString
           /\ JS.every (Regex.notIn ["]"%char]) r = true
       | None => True
       end
    /\ caps = match rule with Some (_, r) => [(6, r)] | None => [] end
              ++ [(5, msg); (4, sev); (3, col); (2, l); (1, path)].
Proof. exact (exec_warningRegex_inv ln caps). Qed.

Lemma header_match_gives_the_parts_witness :
  exists path l col w1 sev w2 msg (rule : option (string * string)),
    Examples.headerText
    = path +:+ ":" +:+ l +:+ ":" +:+ col +:+ ":" +:+ w1 +:+ sev
      +:+ ":" +:+ w2 +:+ msg
      +:+ match rule with
          | Some (w3, r) => w3 +:+ "[" +:+ r +:+ "]"
          | None => EmptyString
          end
    /\ TextParser.isAbsolutePath path = true
    /\ TextParser.isNumber l = true /\ TextParser.isNumber col = true
    /\ Lines.isIndent w1 = true
    /\ sev <> EmptyString /\ JS.every JS.isAlpha sev = true
    /\ Lines.isIndent w2 = true
    /\ msg <> EmptyString /\ TextParser.noLineFeed msg = true
    /\ match rule with
       | Some (w3, r) =>
           Lines.isIndent w3 = true /\ r <> EmptyString
           /\ JS.every (Regex.notIn ["]"%char]) r = true
       | None => True
       end
    /\ [(6, "bugprone-signed-char-bitwise");
        (5, "use of a signed integer operand"); (4, "warning");
        (3, "9"); (2, "5"); (1, "/p/f.cpp")]
       = match rule with Some (_, r) => [(6, r)] | None => [] end
         ++ [(5, msg); (4, sev); (3, col); (2, l); (1, path)].
Proof.
  apply (header_match_gives_the_parts Examples.headerText).
  reflexivity.
Defined.

(** X22. Every diagnostic that parseClangTidyText returns is well
    formed: its severity is one of error, warning, note and fatal, its
    file path is absolute, its line and column are not negative, its
    message is on one line and has no white space around it, and its
    check name holds no closing bracket. *)
Theorem parsed_diagnostics_are_well_formed
  (host : TextParser.Host) (text : string) :
  exists ds,
    TextParser.parseClangTidyText host text = Exn.Returned ds
    /\ Forall Lines.wellFormed ds.
Proof.
  destruct (parseLines_headers (JS.split TextParser.LF text)) as [Hh _].
  fold (TextParser.parseLoop text) in Hh.
  apply (enrich_headers host) in Hh.
  eexists. split; [reflexivity|].
  pose proof (omap_headerOf_wellFormed (JS.split TextParser.LF text)) as Hwf.
  revert Hwf. induction Hh as [|h d hs ds Hhd _ IH]; intros Hwf;
    [constructor|].
  inversion Hwf as [|? ? Hh0 Hrest]; subst.
  constructor; [exact (wellFormed_sameHeader h d Hhd Hh0) | exact (IH Hrest)].
Qed.

(** ** Enrichment, record by record *)

Section BuildCaret.
Import TextParser.

(** The caret line of a column below 2^53, when it is no longer than
    the strings of the engine. *)
Lemma buildCaretLine_fits (host : Host) (d : Diagnostic) (c : Z) :
  column d = JS.Num c -> (0 <= c < JS.exactBelow)%Z ->
  (Z.max 1 c <= maxStringLength host)%Z ->
  buildCaretLine host d
  = Exn.Returned (JS.repeat " " (Z.to_nat (c - 1)) +:+ "^").
Proof.
  intros Hcol Hc Hfit. unfold buildCaretLine. rewrite Hcol.
  unfold JS.minusOne. rewrite round_exact
    by (unfold JS.exactBelow in *; lia).
  unfold JS.max0, JS.repeatCount.
  replace (Z.max 0 (c - 1) <? 0)%Z with false by (symmetry; apply Z.ltb_ge; lia).
  replace (maxStringLength host <? Z.max 0 (c - 1))%Z with false
    by (symmetry; apply Z.ltb_ge; lia).
  replace (Z.to_nat (Z.max 0 (c - 1))) with (Z.to_nat (c - 1)) by lia.
  unfold JS.concat.
  assert (Hlen : forall n, String.length (JS.repeat " " n) = n).
  { induction n as [|n IH]; simpl; [reflexivity | now rewrite IH]. }
  rewrite Hlen. simpl String.length.
  replace (maxStringLength host <? Z.of_nat (Z.to_nat (c - 1) + 1))%Z
    with false by (symmetry; apply Z.ltb_ge; lia).
  reflexivity.
Qed.

End BuildCaret.

(** X23. The enrichment pass treats every diagnostic by the content of
    its own file.  When the file cannot be read, when the line number
    is outside the file, or when the caret line of a diagnostic of the
    same file in front of it could not be built, the diagnostic is
    returned as it was parsed.  Otherwise a missing source line becomes
    that line of the file; a missing caret line becomes column - 1
    blanks (none for column 0) followed by a caret when the column is
    below 2^53 and this text is no longer than the strings of the
    engine, and stays unset when the caret line cannot be built. *)
Theorem enrichment_reads_the_file_of_each_diagnostic
  (host : TextParser.Host) (ds : list TextParser.Diagnostic)
  (i : nat) (d : TextParser.Diagnostic) :
  ds !! i = Some d ->
  exists d',
    TextParser.enrichDiagnosticsWithSourceCode host ds !! i = Some d'
    /\ (forall message,
           TextParser.readFileSync host (TextParser.filePath d)
           = Exn.Thrown message -> d' = d)
    /\ (forall content,
           TextParser.readFileSync host (TextParser.filePath d)
           = Exn.Returned content ->
           let fileLines := JS.split TextParser.LF content in
           let lineIndex := JS.minusOne (TextParser.line d) in
           (JS.isIndex lineIndex (List.length fileLines) = false -> d' = d)
           /\ (TextParser.abortedBefore host fileLines i ds
                 (TextParser.filePath d) = true -> d' = d)
           /\ (forall codeLine,
                  JS.isIndex lineIndex (List.length fileLines) = true ->
                  JS.element fileLines lineIndex = Some codeLine ->
                  TextParser.abortedBefore host fileLines i ds
                    (TextParser.filePath d) = false ->
                  (TextParser.truthy (TextParser.codeLineFull d) = false ->
                   TextParser.codeLineFull d' = Some codeLine)
                  /\ (forall c,
                         TextParser.truthy (TextParser.caretLine d) = false ->
                         TextParser.column d = JS.Num c ->
                         (0 <= c < JS.exactBelow)%Z ->
                         (Z.max 1 c <= TextParser.maxStringLength host)%Z ->
                         TextParser.caretLine d'
                         = Some (JS.repeat " " (Z.to_nat (c - 1)) +:+ "^"))
                  /\ (forall error,
                         TextParser.truthy (TextParser.caretLine d) = false ->
                         TextParser.buildCaretLine host d = Exn.Thrown error ->
                         TextParser.caretLine d' = TextParser.caretLine d))).
Proof.
  intros Hi. destruct (enrich_cells host ds i d Hi) as (d' & Hd' & Hcell).
  exists d'. split; [exact Hd'|].
  rewrite (enrich_lookup host ds i d Hi) in Hd'.
  unfold TextParser.enrichPath in Hd'.
  split.
  { intros message Hread. rewrite Hread in Hd'. congruence. }
  intros content Hread fileLines lineIndex. rewrite Hread in Hd'.
  rewrite (enrichRecords_lookup host _ _ ds i d Hi eq_refl) in Hd'.
  fold fileLines in Hd'.
  change (existsb _ (take i ds))
    with (TextParser.abortedBefore host fileLines i ds
            (TextParser.filePath d)) in Hd'.
  split; [|split].
  - intros Hout.
    destruct (TextParser.abortedBefore _ _ _ _ _); [congruence|].
    injection Hd' as <-. unfold TextParser.enrichOne.
    fold lineIndex. rewrite Hout. reflexivity.
  - intros Hab. rewrite Hab in Hd'. congruence.
  - intros codeLine Hin Hcode Hab. rewrite Hab in Hd'.
    injection Hd' as <-. unfold TextParser.enrichOne.
    fold lineIndex. rewrite Hin, Hcode.
    assert (Hcaret : TextParser.caretLine
                       (TextParser.fillCodeLine codeLine d)
                     = TextParser.caretLine d)
      by apply caretLine_fillCodeLine.
    assert (Hbuild : TextParser.buildCaretLine host
                       (TextParser.fillCodeLine codeLine d)
                     = TextParser.buildCaretLine host d).
    { apply buildCaretLine_column.
      apply (fillCodeLine_filled codeLine d). }
    unfold TextParser.fillCaretLine. rewrite Hcaret, Hbuild.
    split; [|split].
    + intros Hc.
      assert (Hfill : TextParser.codeLineFull
                        (TextParser.fillCodeLine codeLine d)
                      = Some codeLine).
      { unfold TextParser.fillCodeLine. rewrite Hc. reflexivity. }
      destruct (TextParser.truthy (TextParser.caretLine d));
        [exact Hfill|].
      destruct (TextParser.buildCaretLine host d); exact Hfill.
    + intros c Hk Hcol Hc Hfit. rewrite Hk.
      rewrite (buildCaretLine_fits host d c Hcol Hc Hfit). reflexivity.
    + intros error Hk Hthrow. rewrite Hk, Hthrow. cbn [fst]. exact Hcaret.
Qed.

Lemma enrichment_reads_the_file_of_each_diagnostic_witness :
  exists d',
    TextParser.enrichDiagnosticsWithSourceCode Examples.fiveLines
      [Samples.noteDiagnostic; Examples.headerDiagnostic] !! 1 = Some d'
    /\ TextParser.codeLineFull d' = Some "char other;"
    /\ TextParser.caretLine d' = Some "        ^".
Proof.
  destruct (enrichment_reads_the_file_of_each_diagnostic Examples.fiveLines
              [Samples.noteDiagnostic; Examples.headerDiagnostic] 1
              Examples.headerDiagnostic eq_refl) as (d' & Hd' & _ & Hread).
  exists d'. split; [exact Hd'|].
  destruct (Hread _ eq_refl) as (_ & _ & Hfill).
  destruct (Hfill "char other;" eq_refl eq_refl eq_refl)
    as (Hcode & Hcaret & _).
  split; [apply Hcode; reflexivity|].
  apply (Hcaret 9%Z); [reflexivity | reflexivity | | ].
  - unfold JS.exactBelow. lia.
  - vm_compute. discriminate.
Defined.

(** A caret line that cannot be built ends the enrichment of its file:
    with strings of at most four characters, the caret line of column
    9 cannot be built; the first diagnostic of the file gets its
    source line only, and the second one is returned as it was
    parsed. *)
Example caret_error_ends_the_file :
  TextParser.enrichDiagnosticsWithSourceCode
    (TextParser.mkHost (TextParser.readFileSync Examples.fiveLines) 4)
    [Examples.headerDiagnostic; Examples.headerDiagnostic]
  = [TextParser.setCodeLineFull "char other;" Examples.headerDiagnostic;
     Examples.headerDiagnostic].
Proof. reflexivity. Qed.

(** ** Between two diagnostics *)

Section Idle.
Import Regex TextParser Lines.

Lemma processLine_idle (st : LoopState) (ln : string) :
  currentDiagnostic st = None -> headerOf ln = None ->
  diagnostics (processLine st ln) = diagnostics st
  /\ currentDiagnostic (processLine st ln) = None.
Proof.
  intros Hcur Hh. unfold headerOf in Hh. unfold processLine.
  destruct (JS.isEmpty (JS.trim ln)); [auto|].
  destruct (exec warningRegex ln) as [caps|].
  - destruct (validateSeverity _); [discriminate | auto].
  - rewrite Hcur. auto.
Qed.

Lemma fold_processLine_idle (lines : list string) :
  Forall (fun ln => headerOf ln = None) lines ->
  forall st,
    currentDiagnostic st = None ->
    diagnostics (fold_left processLine lines st) = diagnostics st
    /\ currentDiagnostic (fold_left processLine lines st) = None.
Proof.
  induction 1 as [|ln lines Hln _ IH]; intros st Hcur; [auto|].
  simpl. destruct (processLine_idle st ln Hcur Hln) as [Hd Hc].
  destruct (IH (processLine st ln) Hc) as [Hd' Hc'].
  rewrite Hd', Hd. auto.
Qed.

End Idle.

(** X24. A blank line ends the diagnostic in progress, and what follows
    it is ignored until the next header line of valid severity: source
    lines, caret lines and fix suggestion lines after a blank line are
    attached to no diagnostic. *)
Theorem lines_after_a_blank_line_are_ignored
  (st : TextParser.LoopState) (blank : string) (lines : list string) :
  JS.every JS.isWhiteSpace blank = true ->
  Forall (fun ln => Lines.headerOf ln = None) lines ->
  let st' := fold_left TextParser.processLine (blank :: lines) st in
  TextParser.diagnostics st' = TextParser.diagnostics st
  /\ TextParser.currentDiagnostic st' = None.
Proof.
  intros Hblank Hlines st'. subst st'. simpl.
  assert (Hstep : TextParser.processLine st blank
                  = TextParser.mkLoopState
                      (TextParser.diagnostics st) None
                      (TextParser.matchedWarnings st)
                      (TextParser.invalidSeverities st)).
  { unfold TextParser.processLine. now rewrite trim_blank, Hblank. }
  rewrite Hstep.
  set (idle := TextParser.mkLoopState _ _ _ _).
  exact (fold_processLine_idle lines Hlines idle eq_refl).
Qed.

Lemma lines_after_a_blank_line_are_ignored_witness :
  let st' := fold_left TextParser.processLine
               [""; Examples.sourceText; Examples.caretText]
               Examples.afterHeader in
  TextParser.diagnostics st' = [Examples.headerDiagnostic]
  /\ TextParser.currentDiagnostic st' = None.
Proof.
  apply (lines_after_a_blank_line_are_ignored Examples.afterHeader ""
           [Examples.sourceText; Examples.caretText]).
  - reflexivity.
  - repeat constructor.
Defined.

(** ** The option arguments *)

Section OptionArguments.
Import ClangTidyCommand.

Lemma orString_nonempty (a : option string) (b : string) :
  b <> EmptyString -> orString a b <> EmptyString.
Proof.
  intros Hb. unfold orString. destruct a as [v|]; [|exact Hb].
  destruct v; [exact Hb | discriminate].
Qed.

End OptionArguments.

(** X25. The first argument of clang-tidy is the configuration file of
    the workspace root exactly when the root holds a .clang-tidy file,
    and the checks otherwise, never both by the runner's doing: with a
    .clang-tidy file the checks of the options and of the settings are
    not passed, and without it the checks argument is never empty (it
    falls back to the star). *)
Theorem buildArguments_config_file_or_checks
  (pf : ClangTidyCommand.Platform) (cfg : ClangTidyCommand.Configuration)
  (files : list string) (options : ClangTidyCommand.RunOptions) :
  let extra := match ClangTidyCommand.extraArgs options with
               | Some l => l
               | None => ClangTidyCommand.getExtraArgs cfg
               end in
  exists first middle,
    ClangTidyCommand.buildArguments pf cfg files options
    = first :: middle ++ extra ++ ClangTidyCommand.cppFiles pf files
    /\ Forall (fun a => JSString.startsWith "-checks=" a = false
                        /\ JSString.startsWith "--config-file=" a = false)
              middle
    /\ (forall root,
           ClangTidyCommand.workspaceRoot pf = Some root ->
           root <> EmptyString ->
           ClangTidyCommand.existsSync pf
             (ClangTidyCommand.join pf root ".clang-tidy") = true ->
           first = "--config-file="
                   +:+ ClangTidyCommand.join pf root ".clang-tidy")
    /\ ((exists root,
            ClangTidyCommand.workspaceRoot pf = Some root
            /\ root <> EmptyString
            /\ ClangTidyCommand.existsSync pf
                 (ClangTidyCommand.join pf root ".clang-tidy") = true
            /\ first = "--config-file="
                       +:+ ClangTidyCommand.join pf root ".clang-tidy")
        \/ (exists checks,
               checks <> EmptyString /\ first = "-checks=" +:+ checks)).
Proof.
  intros extra. unfold ClangTidyCommand.buildArguments,
    ClangTidyCommand.optionArguments. fold extra.
  set (hf := ClangTidyCommand.orString
               (ClangTidyCommand.headerFilter options)
               (ClangTidyCommand.getHeaderFilter cfg)).
  set (ccp := ClangTidyCommand.getCompileCommandsPath cfg).
  set (fixPart := if ClangTidyCommand.fixFlag options
                  then ["-fix"] else []).
  set (pPart := if negb (JS.isEmpty ccp) then ["-p=" +:+ ccp] else []).
  assert (Htail : forall hfPart,
             Forall (fun a => JSString.startsWith "-checks=" a = false
                              /\ JSString.startsWith "--config-file=" a
                                 = false)
                    (hfPart ++ fixPart ++ pPart)
             <-> Forall (fun a => JSString.startsWith "-checks=" a = false
                                  /\ JSString.startsWith "--config-file=" a
                                     = false) hfPart).
  { intros hfPart. rewrite !Forall_app. subst fixPart pPart.
    destruct (ClangTidyCommand.fixFlag options), (negb (JS.isEmpty ccp));
      (split; [tauto|]); intros H;
      repeat split; try exact H; repeat constructor. }
  assert (Hshape : forall first hfPart,
             ((if negb (JS.isEmpty ccp)
               then (if ClangTidyCommand.fixFlag options
                     then ([first] ++ hfPart) ++ ["-fix"]
                     else [first] ++ hfPart) ++ ["-p=" +:+ ccp]
               else if ClangTidyCommand.fixFlag options
                    then ([first] ++ hfPart) ++ ["-fix"]
                    else [first] ++ hfPart) ++ extra)
             ++ ClangTidyCommand.cppFiles pf files
             = first :: (hfPart ++ fixPart ++ pPart) ++ extra
                        ++ ClangTidyCommand.cppFiles pf files).
  { intros first hfPart. subst fixPart pPart.
    destruct (negb (JS.isEmpty ccp)), (ClangTidyCommand.fixFlag options);
      cbn [app]; rewrite <- ?app_assoc; cbn [app];
      rewrite ?app_nil_r; reflexivity. }
  assert (Hchecks : exists checks,
             checks <> EmptyString
             /\ ClangTidyCommand.checksArgument cfg options
                = "-checks=" +:+ checks).
  { eexists. split; [|reflexivity]. apply orString_nonempty. discriminate. }
  destruct (ClangTidyCommand.workspaceRoot pf) as [root|] eqn:Hroot.
  - destruct (JS.isEmpty root) eqn:Hempty.
    + exists (ClangTidyCommand.checksArgument cfg options).
      exists ((if negb (JS.isEmpty hf)
               then ["-header-filter=" +:+ hf] else [])
              ++ fixPart ++ pPart).
      split; [|split; [|split; [|right; exact Hchecks]]].
      * rewrite <- Hshape. destruct (negb (JS.isEmpty hf)); reflexivity.
      * apply Htail.
        destruct (negb (JS.isEmpty hf)); repeat constructor.
      * intros root' Heq Hr _. injection Heq as <-.
        destruct root; [now destruct Hr | discriminate Hempty].
    + destruct (ClangTidyCommand.existsSync pf
                  (ClangTidyCommand.join pf root ".clang-tidy")) eqn:Hex.
      * exists ("--config-file="
                +:+ ClangTidyCommand.join pf root ".clang-tidy").
        exists ((if negb (JS.isEmpty hf)
                 then ["-header-filter=" +:+ hf]
                 else if negb (TextParser.truthy
                                 (Some (ClangTidyCommand.join pf root
                                          ".clang-tidy")))
                      then ["-header-filter=" +:+ root] else [])
                ++ fixPart ++ pPart).
        split; [|split; [|split]].
        -- rewrite <- Hshape.
           destruct (negb (JS.isEmpty hf)),
             (negb (TextParser.truthy
                      (Some (ClangTidyCommand.join pf root ".clang-tidy"))));
             reflexivity.
        -- apply Htail.
           destruct (negb (JS.isEmpty hf)),
             (negb (TextParser.truthy
                      (Some (ClangTidyCommand.join pf root ".clang-tidy"))));
             repeat constructor.
        -- intros root' Heq _ _. injection Heq as <-. reflexivity.
        -- left. exists root. repeat split; try assumption.
           intros ->. discriminate Hempty.
      * exists (ClangTidyCommand.checksArgument cfg options).
        exists ((if negb (JS.isEmpty hf)
                 then ["-header-filter=" +:+ hf]
                 else ["-header-filter=" +:+ root])
                ++ fixPart ++ pPart).
        split; [|split; [|split; [|right; exact Hchecks]]].
        -- rewrite <- Hshape. destruct (negb (JS.isEmpty hf)); reflexivity.
        -- apply Htail.
           destruct (negb (JS.isEmpty hf)); repeat constructor.
        -- intros root' Heq _ Hex'. injection Heq as <-.
           rewrite Hex in Hex'. discriminate Hex'.
  - exists (ClangTidyCommand.checksArgument cfg options).
    exists ((if negb (JS.isEmpty hf)
             then ["-header-filter=" +:+ hf] else [])
            ++ fixPart ++ pPart).
    split; [|split; [|split; [|right; exact Hchecks]]].
    + rewrite <- Hshape. destruct (negb (JS.isEmpty hf)); reflexivity.
    + apply Htail.
      destruct (negb (JS.isEmpty hf)); repeat constructor.
    + intros root' Heq. discriminate Heq.
Qed.
